(** * broadlink-rm-ts: a shallow embedding of the protocol engine

    The development follows [index.ts]: the discovery engine ([Broadlink]),
    the device session ([BroadlinkDevice]) with its packet codec, the command
    dispatcher and the RF learning sequences.  Buffers are lists of integers,
    JavaScript objects used as dictionaries are finite maps (with the names a
    plain object inherits where arbitrary strings are looked up), the event
    loop (timers, promises, listeners) is explicit state. *)

From Stdlib Require Import ZArith QArith Lia Ascii String.
From stdpp Require Import base gmap list strings.

Close Scope Q_scope.
Open Scope Z_scope.

(** ** JavaScript numbers and buffers *)

Abbreviation Buffer := (list Z).

(** [ToInt32] of the language standard on an integer: wrap to 32 bits, signed. *)
Definition ToInt32Z (n : Z) : Z := (n + 2 ^ 31) mod 2 ^ 32 - 2 ^ 31.

(** Truncation toward zero of a finite number (a rational here: every
    finite double is one). *)
Definition truncate (q : Q) : Z := Z.quot (Qnum q) (Z.pos (Qden q)).

Definition ToInt32 (q : Q) : Z := ToInt32Z (truncate q).

(** The conversion applied by a store into a byte array. *)
Definition ToUint8 (n : Z) : Z := n mod 256.

(** [Buffer.alloc(n, 0)] for a size that is not negative. *)
Definition Buffer_alloc (n : Z) : Buffer := replicate (Z.to_nat n) 0.

(** [b[i]] read in an arithmetic context: [undefined] counts as 0. *)
Definition byteAt (b : Buffer) (i : Z) : Z :=
  if i <? 0 then 0 else default 0 (b !! Z.to_nat i).

(** [b[i] = v]: a store out of range is ignored. *)
Definition store (i : Z) (v : Z) (b : Buffer) : Buffer :=
  if i <? 0 then b else <[Z.to_nat i := ToUint8 v]> b.

(** A run of assignments [b[i1] = v1; b[i2] = v2; ...], in order. *)
Definition stores (assignments : list (Z * Z)) (b : Buffer) : Buffer :=
  foldl (fun acc iv => store iv.1 iv.2 acc) b assignments.

(** Whether a run of assignments leaves offset [n] alone. *)
Definition untouched (n : nat) (a : list (Z * Z)) : bool :=
  forallb (fun iv => (iv.1 <? 0) || negb (Z.to_nat iv.1 =? n)%nat) a.

(** Outcome of code that may throw. *)
Inductive result (A : Type) : Type :=
| Ok (a : A)
| Throws.
Arguments Ok {A} a.
Arguments Throws {A}.

(** [source.copy(target, targetStart, sourceStart, sourceEnd)]; the result is
    the target after the call.  A source start past the end of the source
    throws; the copied run is cut to what source and target hold. *)
Definition Buffer_copy (source target : Buffer)
    (targetStart sourceStart sourceEnd : nat) : result Buffer :=
  if decide (length source < sourceStart)%nat then Throws
  else if decide (length target ≤ targetStart ∨ sourceEnd ≤ sourceStart)%nat
  then Ok target
  else
    let n := ((sourceEnd - sourceStart) `min` (length target - targetStart))%nat in
    let run := take n (drop sourceStart source) in
    Ok (take targetStart target ++ run ++ drop (targetStart + length run) target).

(** The same call with [sourceEnd] left out. *)
Definition Buffer_copy_from (source target : Buffer)
    (targetStart sourceStart : nat) : result Buffer :=
  Buffer_copy source target targetStart sourceStart (length source).

(** [Buffer.alloc(n, 0)] for a computed size: a negative size throws. *)
Definition Buffer_alloc_size (n : Z) : result Buffer :=
  if n <? 0 then Throws else Ok (Buffer_alloc n).

Definition result_bind {A B} (f : A -> result B) (r : result A) : result B :=
  match r with
  | Ok a => f a
  | Throws => Throws
  end.

#[export] Instance result_mbind : MBind result := @result_bind.
#[export] Instance result_mret : MRet result := @Ok.

(** [buffer.toString('hex')]. *)
Definition hex_digit (n : Z) : ascii :=
  match n with
  | 0 => "0" | 1 => "1" | 2 => "2" | 3 => "3" | 4 => "4" | 5 => "5"
  | 6 => "6" | 7 => "7" | 8 => "8" | 9 => "9" | 10 => "a" | 11 => "b"
  | 12 => "c" | 13 => "d" | 14 => "e" | _ => "f"
  end%char.

Definition toString_hex (b : Buffer) : string :=
  foldr (fun x s => String (hex_digit (x / 16)) (String (hex_digit (x mod 16)) s))
    EmptyString b.

(** ** Checksums *)

(** The loop of [sendPacket]: the running sum is masked at every step. *)
Definition checksum_masked (b : Buffer) : Z :=
  foldl (fun checksum x => Z.land (checksum + x) 0xffff) 0xbeaf b.

(** The loop of [onListening]: the sum is masked once, after the loop. *)
Definition checksum_summed (b : Buffer) : Z :=
  Z.land (foldl (fun checksum x => checksum + x) 0xbeaf b) 0xffff.

(** Reference computation: seed plus the sum of the bytes, modulo 2^16. *)
Definition wraparound_checksum (b : Buffer) : Z :=
  (0xbeaf + foldr Z.add 0 b) mod 0x10000.

(** The 16-bit little-endian field at offsets 0x20 and 0x21. *)
Definition stored_checksum (packet : Buffer) : Z :=
  Z.lor (byteAt packet 0x20) (Z.shiftl (byteAt packet 0x21) 8).

Definition zero_checksum_field (packet : Buffer) : Buffer :=
  stores [(0x20, 0); (0x21, 0)] packet.

(** ** Static device tables *)

(** RM devices without RF support. *)
Definition rmDeviceTypes : gmap Z string :=
  list_to_map
    [ (0x2737, "Broadlink RM Mini"); (0x27c7, "Broadlink RM Mini 3 A");
      (0x27c2, "Broadlink RM Mini 3 B"); (0x27de, "Broadlink RM Mini 3 C");
      (0x5f36, "Broadlink RM Mini 3 D"); (0x273d, "Broadlink RM Pro Phicomm");
      (0x2712, "Broadlink RM2"); (0x2783, "Broadlink RM2 Home Plus");
      (0x277c, "Broadlink RM2 Home Plus GDT");
      (0x278f, "Broadlink RM Mini Shate") ]%string.

(** RM devices with RF support. *)
Definition rmPlusDeviceTypes : gmap Z string :=
  list_to_map
    [ (0x272a, "Broadlink RM2 Pro Plus"); (0x2787, "Broadlink RM2 Pro Plus v2");
      (0x278b, "Broadlink RM2 Pro Plus BL");
      (0x2797, "Broadlink RM2 Pro Plus HYC");
      (0x27a1, "Broadlink RM2 Pro Plus R1"); (0x27a6, "Broadlink RM2 Pro PP");
      (0x279d, "Broadlink RM3 Pro Plus"); (0x27a9, "Broadlink RM3 Pro Plus v2");
      (0x27c3, "Broadlink RM3 Pro") ]%string.

(** Known unsupported devices. *)
Definition unsupportedDeviceTypes : gmap Z string :=
  list_to_map
    [ (0, "Broadlink SP1"); (0x2711, "Broadlink SP2");
      (0x2719, "Honeywell SP2"); (0x7919, "Honeywell SP2");
      (0x271a, "Honeywell SP2"); (0x791a, "Honeywell SP2");
      (0x2733, "OEM Branded SP Mini"); (0x273e, "OEM Branded SP Mini");
      (0x2720, "Broadlink SP Mini"); (0x7d07, "Broadlink SP Mini");
      (0x753e, "Broadlink SP 3"); (0x2728, "Broadlink SPMini 2");
      (0x2736, "Broadlink SPMini Plus"); (0x2714, "Broadlink A1");
      (0x4EB5, "Broadlink MP1"); (0x2722, "Broadlink S1 (SmartOne Alarm Kit)");
      (0x4E4D, "Dooya DT360E (DOOYA_CURTAIN_V2) or Hysen Heating Controller");
      (0x4ead, "Dooya DT360E (DOOYA_CURTAIN_V2) or Hysen Heating Controller");
      (0x947a, "BroadLink Outlet") ]%string.

Arguments rmDeviceTypes : simpl never.
Arguments rmPlusDeviceTypes : simpl never.
Arguments unsupportedDeviceTypes : simpl never.

(** ** Values exchanged with the outside *)

Record RemoteInfo := { address : string; port : Z }.

(** The lines written by [log] and [console.log], one constructor per
    message of the source, with the values it interpolates. *)
Inductive diagnostic :=
| Listening (ipAddress : list Z) (port : Z)
| Discovered (macAddress : string) (deviceType : Z)
| IgnoringUnsupportedNamed (name : string) (host : RemoteInfo)
| IgnoringUnsupported (deviceType : Z) (host : RemoteInfo)
| IgnoringUnknown (deviceType : Z) (host : RemoteInfo)
| Found (model : option string) (host : RemoteInfo)
| UnknownCommand (command : Z)
| NoRFCapabilities
| LongPressPrompt
| ShortPressPrompt.

(** The number the temperature expression evaluates to.  [Tenths n] stands
    for the value of [n / 10.0], the double nearest to the quotient ([n],
    built from two bytes, is at most 2805 and held exactly); [NaN] is the
    value when an operand is [undefined]. *)
Inductive jsnumber :=
| NaN
| Tenths (n : Z).

(** ** The event loop as the module uses it *)

Inductive settlement (A : Type) : Type :=
| Pending
| Fulfilled (value : A)
| Rejected (reason : string).
Arguments Pending {A}.
Arguments Fulfilled {A} value.
Arguments Rejected {A} reason.

(** The closures handed to [setTimeout], with what each captures. *)
Inductive timer_callback :=
| SweepTimeoutCb (promise : nat)
| SweepCheckCb
| ConfirmTimeoutCb (promise : nat)
| ConfirmCheckCb.

(** The closures handed to [on], with what each captures. *)
Inductive listener :=
| SweepListener (sweepTimeout : nat) (promise : nat)
| DataListener (dataTimeout : nat) (promise : nat)
| ReadyRelay.

(** ** Device session *)

Record BroadlinkDevice := {
  host : RemoteInfo;
  mac : Buffer;
  type : Z;
  model : option string;
  count : Z;
  sweepHandler : option nat;
  confirmHandler : option nat;
  key : Buffer;
  iv : Buffer;
  id : Buffer;
  capabilites_RF : bool;
  listeners : list listener
}.

(** The events of a device session; the ready notification passes the
    session itself. *)
Inductive notification :=
| EvDeviceReady (session : BroadlinkDevice)
| EvTemperature (temp : jsnumber)
| EvData (buf : Buffer)
| EvSweep (success : bool)
| EvRfData (buf : Buffer)
| EvDataError (err : Z).

(** What leaves the module: a line logged, a datagram sent, a notification
    emitted on a session, and the ready notification the engine emits with
    the session. *)
Inductive effect :=
| Log (d : diagnostic)
| Send (packet : Buffer) (port : Z) (address : string)
| Emitted (n : notification)
| EngineDeviceReady (session : BroadlinkDevice).

Definition set_count (c : Z) (d : BroadlinkDevice) : BroadlinkDevice :=
  {| host := host d; mac := mac d; type := type d; model := model d;
     count := c; sweepHandler := sweepHandler d;
     confirmHandler := confirmHandler d; key := key d; iv := iv d; id := id d;
     capabilites_RF := capabilites_RF d; listeners := listeners d |}.

Definition set_sweepHandler (h : option nat) (d : BroadlinkDevice) : BroadlinkDevice :=
  {| host := host d; mac := mac d; type := type d; model := model d;
     count := count d; sweepHandler := h;
     confirmHandler := confirmHandler d; key := key d; iv := iv d; id := id d;
     capabilites_RF := capabilites_RF d; listeners := listeners d |}.

Definition set_confirmHandler (h : option nat) (d : BroadlinkDevice) : BroadlinkDevice :=
  {| host := host d; mac := mac d; type := type d; model := model d;
     count := count d; sweepHandler := sweepHandler d;
     confirmHandler := h; key := key d; iv := iv d; id := id d;
     capabilites_RF := capabilites_RF d; listeners := listeners d |}.

Definition set_key_id (k i : Buffer) (d : BroadlinkDevice) : BroadlinkDevice :=
  {| host := host d; mac := mac d; type := type d; model := model d;
     count := count d; sweepHandler := sweepHandler d;
     confirmHandler := confirmHandler d; key := k; iv := iv d; id := i;
     capabilites_RF := capabilites_RF d; listeners := listeners d |}.

(** [this.on(event, listener)]: listeners are kept in registration order. *)
Definition on (l : listener) (d : BroadlinkDevice) : BroadlinkDevice :=
  {| host := host d; mac := mac d; type := type d; model := model d;
     count := count d; sweepHandler := sweepHandler d;
     confirmHandler := confirmHandler d; key := key d; iv := iv d; id := id d;
     capabilites_RF := capabilites_RF d; listeners := listeners d ++ [l] |}.

(** A session with the promises and timers its closures created. *)
Record World := {
  device : BroadlinkDevice;
  sweepPromises : list (settlement ());
  confirmPromises : list (settlement Buffer);
  timers : gmap nat (timer_callback * Z);
  next_timer : nat
}.

Definition with_device (d : BroadlinkDevice) (w : World) : World :=
  {| device := d; sweepPromises := sweepPromises w;
     confirmPromises := confirmPromises w; timers := timers w;
     next_timer := next_timer w |}.

Definition with_sweepPromises (ps : list (settlement ())) (w : World) : World :=
  {| device := device w; sweepPromises := ps;
     confirmPromises := confirmPromises w; timers := timers w;
     next_timer := next_timer w |}.

Definition with_confirmPromises (ps : list (settlement Buffer)) (w : World) : World :=
  {| device := device w; sweepPromises := sweepPromises w;
     confirmPromises := ps; timers := timers w;
     next_timer := next_timer w |}.

Definition with_timers (ts : gmap nat (timer_callback * Z)) (n : nat) (w : World) : World :=
  {| device := device w; sweepPromises := sweepPromises w;
     confirmPromises := confirmPromises w; timers := ts; next_timer := n |}.

(** [resolve] and [reject] of a promise: only a pending promise changes. *)
Definition settle {A} (p : nat) (s : settlement A) (ps : list (settlement A)) :
    list (settlement A) :=
  match ps !! p with
  | Some Pending => <[p := s]> ps
  | _ => ps
  end.

Definition setTimeout (cb : timer_callback) (ms : Z) (w : World) : nat * World :=
  (next_timer w,
   with_timers (<[next_timer w := (cb, ms)]> (timers w)) (S (next_timer w)) w).

Definition clearTimeout (t : nat) (w : World) : World :=
  with_timers (delete t (timers w)) (next_timer w) w.

(** Initial seed of the sequence counter: [Math.random() & 0xffff]. *)
Definition initial_count (random : Q) : Z := Z.land (ToInt32 random) 0xffff.

(** [rmDeviceTypes[type] || rmPlusDeviceTypes[type]]: the names in the tables
    are not empty, so the first one defined is taken. *)
Definition model_of (type : Z) : option string :=
  match rmDeviceTypes !! type with
  | Some name => Some name
  | None => rmPlusDeviceTypes !! type
  end.

(** The constructor of [BroadlinkDevice]; [random] is what [Math.random()]
    returns. *)
Definition new_BroadlinkDevice (host : RemoteInfo) (mac : Buffer) (type : Z)
    (random : Q) : BroadlinkDevice :=
  {| host := host; mac := mac; type := type; model := model_of type;
     count := initial_count random;
     sweepHandler := None; confirmHandler := None;
     key := [0x09; 0x76; 0x28; 0x34; 0x3f; 0xe9; 0x9e; 0x23;
             0x76; 0x5c; 0x15; 0x13; 0xac; 0xcf; 0x8b; 0x02];
     iv := [0x56; 0x2e; 0x17; 0x99; 0x6d; 0x09; 0x3d; 0x28;
            0xdd; 0xb3; 0xba; 0x69; 0x5a; 0x2e; 0x6f; 0x58];
     id := [0; 0; 0; 0];
     capabilites_RF := bool_decide (rmPlusDeviceTypes !! type ≠ None);
     listeners := [] |}.

Definition new_World (host : RemoteInfo) (mac : Buffer) (type : Z)
    (random : Q) : World :=
  {| device := new_BroadlinkDevice host mac type random;
     sweepPromises := []; confirmPromises := []; timers := ∅;
     next_timer := 0 |}.

(** ** Discovery packet *)

(** What [onListening] reads from [new Date()]. *)
Record Date := {
  getTimezoneOffset : Z;
  getFullYear : Z;
  getMinutes : Z;
  getHours : Z;
  getDay : Z;
  getDate : Z;
  getMonth : Z
}.

(** [b[i] = v] for a value that need not be an integer. *)
Definition storeQ (i : Z) (v : Q) (b : Buffer) : Buffer := store i (truncate v) b.

(** The 48-byte packet of [onListening]; [splitIPAddress] holds the four
    fields of the address as [parseInt] reads them. *)
Definition discovery_packet (splitIPAddress : list Z) (port : Z) (now : Date) : Buffer :=
  let timezone := (inject_Z (getTimezoneOffset now) / inject_Z (-3600))%Q in
  let packet := Buffer_alloc 0x30 in
  let year := getFullYear now - 1900 in
  let packet :=
    if Qlt_le_dec timezone 0 then
      stores [(0x09, 0xff); (0x0a, 0xff); (0x0b, 0xff)]
        (storeQ 0x08 (0xff + timezone - 1)%Q packet)
    else
      stores [(0x09, 0); (0x0a, 0); (0x0b, 0)] (storeQ 0x08 timezone packet) in
  let subyear := Z.rem year 100 in
  let packet :=
    stores
      [ (0x0c, Z.land year 0xff); (0x0d, Z.shiftr year 8);
        (0x0e, getMinutes now); (0x0f, getHours now);
        (0x10, subyear); (0x11, getDay now); (0x12, getDate now);
        (0x13, getMonth now);
        (0x18, byteAt splitIPAddress 0); (0x19, byteAt splitIPAddress 1);
        (0x1a, byteAt splitIPAddress 2); (0x1b, byteAt splitIPAddress 3);
        (0x1c, Z.land port 0xff); (0x1d, Z.shiftr port 8);
        (0x26, 6) ] packet in
  let checksum := checksum_summed packet in
  stores [(0x20, Z.land checksum 0xff); (0x21, Z.shiftr checksum 8)] packet.

Definition onListening (splitIPAddress : list Z) (port : Z) (now : Date) : list effect :=
  let packet := discovery_packet splitIPAddress port now in
  [Log (Listening splitIPAddress port); Send packet 80 "255.255.255.255"].

(** ** The classification of [src/index.ts] *)

Module IndexTs.

(** The names a plain object inherits from [Object.prototype]: reading one
    of them from the registry object gives a function (the prototype itself
    for ["__proto__"]), which counts as true in a test. *)
Definition Object_prototype : list string :=
  ["constructor"; "__defineGetter__"; "__defineSetter__"; "hasOwnProperty";
   "__lookupGetter__"; "__lookupSetter__"; "isPrototypeOf";
   "propertyIsEnumerable"; "toString"; "valueOf"; "__proto__";
   "toLocaleString"].

(** [if (this.devices[macAddress])]: true for a key of the registry and for
    an inherited name. *)
Definition registered (devices : gmap string ()) (macAddress : string) : bool :=
  bool_decide (macAddress ∈ Object_prototype)
  || bool_decide (is_Some (devices !! macAddress)).

(** [addDevice] of [src/index.ts]: the registry is a plain object indexed by
    the string passed in (the identity as a hex string when [onMessage]
    calls); the construction of a session is commented out there, so the
    registry is never written and the call only logs. *)
Definition addDevice (devices : gmap string ()) (host : RemoteInfo)
    (macAddress : string) (deviceType : Z) : list effect :=
  if registered devices macAddress then []
  else if unsupportedDeviceTypes !! deviceType is Some name then
    [Log (IgnoringUnsupportedNamed name host)]
  else if (0x7530 <=? deviceType) && (deviceType <=? 0x7918) then
    [Log (IgnoringUnsupported deviceType host)]
  else if bool_decide (rmDeviceTypes !! deviceType = None
                       ∨ rmPlusDeviceTypes !! deviceType = None) then
    [Log (IgnoringUnknown deviceType host)]
  else [Log (Found (model_of deviceType) host)].

End IndexTs.

(** ** AES-128-CBC as [crypto] provides it

    The block cipher itself belongs to the platform; the development is
    parametric in it.  The chaining mode and the way [update] and [final]
    treat an incomplete last block are written out. *)

Definition xor_bytes (a b : Buffer) : Buffer := zip_with Z.lxor a b.

(** The complete 16-byte blocks of a buffer; an incomplete tail is left out. *)
Definition complete_blocks (b : Buffer) : list Buffer :=
  (fun i => take 16 (drop (16 * i) b)) <$> seq 0 (length b / 16)%nat.

(** ** One learning sequence, seen apart from the rest of the world

    [sweepFrequency] and [confirmFrequency] keep the same kind of state: the
    handler field, the promises created so far, the timeout timers still set
    and the listeners registered, each timeout timer and each listener
    belonging to one promise. *)

Record view (A : Type) := View {
  v_handler : option nat;
  v_promises : list (settlement A);
  v_timeout : nat -> option nat;
  v_targets : list (nat * nat)
}.
Arguments View {A}.
Arguments v_handler {A}.
Arguments v_promises {A}.
Arguments v_timeout {A}.
Arguments v_targets {A}.

Record machine_inv {A} (v : view A) : Prop := {
  mi_handler_pending :
    ∀ p, v_handler v = Some p → v_promises v !! p = Some Pending;
  mi_timer_pending :
    ∀ t p, v_timeout v t = Some p → v_promises v !! p = Some Pending;
  mi_listener_timer :
    ∀ t t' p, (t, p) ∈ v_targets v → v_timeout v t' = Some p → t' = t;
  mi_pending_listener :
    ∀ p, v_promises v !! p = Some Pending → ∃ t, (t, p) ∈ v_targets v;
  mi_listener_bound :
    ∀ t p, (t, p) ∈ v_targets v → (p < length (v_promises v))%nat
}.

(** Every listener of the sequence settles its promise with one outcome. *)
Definition settle_all {A} (outcome : settlement A) (targets : list (nat * nat))
    (ps : list (settlement A)) : list (settlement A) :=
  foldl (fun ps tp => settle tp.2 outcome ps) ps targets.

(** The four ways a sequence changes. *)
Definition v_frame {A} (v v' : view A) : Prop :=
  v_handler v' = v_handler v ∧ v_promises v' = v_promises v
  ∧ v_targets v' = v_targets v
  ∧ ∀ t p, v_timeout v' t = Some p → v_timeout v t = Some p.

Definition v_notified {A} (outcome : settlement A) (v v' : view A) : Prop :=
  v_targets v' = v_targets v
  ∧ v_handler v' = (if v_targets v is [] then v_handler v else None)
  ∧ v_promises v' = settle_all outcome (v_targets v) (v_promises v)
  ∧ ∀ t p, v_timeout v' t = Some p →
           v_timeout v t = Some p ∧ t ∉ (v_targets v).*1.

Definition v_timed_out {A} (t p : nat) (outcome : settlement A) (v v' : view A) : Prop :=
  v_timeout v t = Some p
  ∧ v_targets v' = v_targets v
  ∧ v_handler v' = None
  ∧ v_promises v' = settle p outcome (v_promises v)
  ∧ ∀ t' q, v_timeout v' t' = Some q → v_timeout v t' = Some q ∧ t' ≠ t.

Definition v_invoked {A} (t : nat) (v v' : view A) : Prop :=
  v_handler v = None
  ∧ v_handler v' = Some (length (v_promises v))
  ∧ v_promises v' = v_promises v ++ [Pending]
  ∧ v_targets v' = v_targets v ++ [(t, length (v_promises v))]
  ∧ ∀ t' q, v_timeout v' t' = Some q →
            (t' = t ∧ q = length (v_promises v)) ∨ v_timeout v t' = Some q.

Inductive v_step {A} (v v' : view A) : Prop :=
| vs_frame : v_frame v v' -> v_step v v'
| vs_notified outcome :
    outcome ≠ Pending -> v_notified outcome v v' -> v_step v v'
| vs_timed_out t p outcome :
    outcome ≠ Pending -> v_timed_out t p outcome v v' -> v_step v v'
| vs_invoked t : v_invoked t v v' -> v_step v v'.

(** One listener of the sequence runs, whether its promise is still pending
    or not: it clears its timeout timer and the handler field and settles
    its promise. *)
Definition v_run {A} (t p : nat) (outcome : settlement A) (v v' : view A) : Prop :=
  (t, p) ∈ v_targets v
  ∧ v_targets v' = v_targets v
  ∧ v_handler v' = None
  ∧ v_promises v' = settle p outcome (v_promises v)
  ∧ ∀ t' q, v_timeout v' t' = Some q → v_timeout v t' = Some q ∧ t' ≠ t.

(** What an input does to a sequence when outside listeners call the
    session back in between: single steps and single listeners, in any
    number. *)
Inductive v_steps {A} : view A -> view A -> Prop :=
| vs_step v v' : v_step v v' -> v_steps v v'
| vs_run t p outcome v v' :
    outcome ≠ Pending -> v_run t p outcome v v' -> v_steps v v'
| vs_trans v1 v2 v3 : v_steps v1 v2 -> v_steps v2 v3 -> v_steps v1 v3.

(** The listeners of each sequence, as (timeout timer, promise). *)
Definition sweep_target (l : listener) : option (nat * nat) :=
  match l with
  | SweepListener t p => Some (t, p)
  | _ => None
  end.

Definition confirm_target (l : listener) : option (nat * nat) :=
  match l with
  | DataListener t p => Some (t, p)
  | _ => None
  end.

Definition sweep_view (w : World) : view () :=
  {| v_handler := sweepHandler (device w);
     v_promises := sweepPromises w;
     v_timeout := fun t =>
       match timers w !! t with
       | Some (SweepTimeoutCb p, _) => Some p
       | _ => None
       end;
     v_targets := omap sweep_target (listeners (device w)) |}.

Definition confirm_view (w : World) : view Buffer :=
  {| v_handler := confirmHandler (device w);
     v_promises := confirmPromises w;
     v_timeout := fun t =>
       match timers w !! t with
       | Some (ConfirmTimeoutCb p, _) => Some p
       | _ => None
       end;
     v_targets := omap confirm_target (listeners (device w)) |}.

(** A stand-in block function (exclusive or with the key), its own inverse,
    for running the model on concrete inputs. *)
Definition xor_block (key block : Buffer) : Buffer := xor_bytes block key.

(** ** Sample inputs *)

Definition sample_host : RemoteInfo := {| address := "192.168.1.40"; port := 80 |}.

(** A discovery reply of 0x40 bytes: type id 0x272a at offsets 0x34 and
    0x35, the identity bytes at offsets 0x3a to 0x3f. *)
Definition sample_reply : Buffer :=
  replicate 0x34 0 ++ [0x2a; 0x27] ++ [0; 0; 0; 0]
  ++ [0x78; 0x56; 0x12; 0x34; 0xea; 0x34].

Definition sample_mac : Buffer := [0x34; 0xea; 0x34; 0x12; 0x56; 0x78].

(** An RF-capable session (type 0x272a) and one without RF (type 0x2737). *)
Definition sample_session : World := new_World sample_host sample_mac 0x272a (1 # 2).

Definition sample_plain_session : World :=
  new_World sample_host sample_mac 0x2737 (1 # 2).

(** A reply with command byte 0xe9, error code 0 and 32 bytes after the
    header. *)
Definition sample_handshake_reply : Buffer :=
  store 0x26 0xe9 (Buffer_alloc 0x38) ++ seqZ 1 32.

(** A block function returns a block when given a 16-byte key and block. *)
Definition block_sized (f : Buffer -> Buffer -> Buffer) : Prop :=
  ∀ key block : Buffer,
    length key = 16%nat → length block = 16%nat → length (f key block) = 16%nat.

Section Engine.

Variable aes_encrypt_block : Buffer -> Buffer -> Buffer.
Variable aes_decrypt_block : Buffer -> Buffer -> Buffer.

Fixpoint cbc_encrypt (key previous : Buffer) (blocks : list Buffer) : list Buffer :=
  match blocks with
  | [] => []
  | block :: rest =>
      let c := aes_encrypt_block key (xor_bytes block previous) in
      c :: cbc_encrypt key c rest
  end.

Fixpoint cbc_decrypt (key previous : Buffer) (blocks : list Buffer) : list Buffer :=
  match blocks with
  | [] => []
  | block :: rest =>
      xor_bytes (aes_decrypt_block key block) previous
        :: cbc_decrypt key block rest
  end.

(** [createCipheriv] and [createDecipheriv] want a 16-byte key and a 16-byte
    iv; the fields of a session always are ([reachable_wf] below), so the two
    calls are taken to succeed. *)

(** [createCipheriv('aes-128-cbc', key, iv).update(data)]: the complete
    blocks are encrypted and returned; the bytes of an incomplete last block
    stay inside the cipher object until [final], which [sendPacket] never
    calls. *)
Definition cipher_update (key iv data : Buffer) : Buffer :=
  concat (cbc_encrypt key iv (complete_blocks data)).

(** [createDecipheriv] with [setAutoPadding(false)], [update] then [final]:
    [final] throws when the input is not block aligned and otherwise adds
    nothing. *)
Definition decipher_update_final (key iv data : Buffer) : result Buffer :=
  if decide (length data `mod` 16 = 0)%nat
  then Ok (concat (cbc_decrypt key iv (complete_blocks data)))
  else Throws.

(** ** Send path *)

(** The header of [sendPacket] before the checksums are known. *)
Definition packet_header (command : Z) (d : BroadlinkDevice) : Buffer :=
  stores
    [ (0x00, 0x5a); (0x01, 0xa5); (0x02, 0xaa); (0x03, 0x55);
      (0x04, 0x5a); (0x05, 0xa5); (0x06, 0xaa); (0x07, 0x55);
      (0x24, 0x2a); (0x25, 0x27); (0x26, command);
      (0x28, Z.land (count d) 0xff); (0x29, Z.shiftr (count d) 8);
      (0x2a, byteAt (mac d) 5); (0x2b, byteAt (mac d) 4);
      (0x2c, byteAt (mac d) 3); (0x2d, byteAt (mac d) 2);
      (0x2e, byteAt (mac d) 1); (0x2f, byteAt (mac d) 0);
      (0x30, byteAt (id d) 0); (0x31, byteAt (id d) 1);
      (0x32, byteAt (id d) 2); (0x33, byteAt (id d) 3) ]
    (Buffer_alloc 0x38).

(** The datagram [sendPacket] hands to the socket; [d] is the session after
    the counter was incremented. *)
Definition command_packet (command : Z) (payload : Buffer) (d : BroadlinkDevice) : Buffer :=
  let packet := packet_header command d in
  let checksum := checksum_masked payload in
  let payload := cipher_update (key d) (iv d) payload in
  let packet := stores [(0x34, Z.land checksum 0xff); (0x35, Z.shiftr checksum 8)] packet in
  let packet := packet ++ payload in
  let checksum := checksum_masked packet in
  stores [(0x20, Z.land checksum 0xff); (0x21, Z.shiftr checksum 8)] packet.

Definition sendPacket (command : Z) (payload : Buffer) (d : BroadlinkDevice) :
    BroadlinkDevice * list effect :=
  let d := set_count (Z.land (count d + 1) 0xffff) d in
  let packet := command_packet command payload d in
  (d, [Send packet (port (host d)) (address (host d))]).

(** A run of [sendPacket] calls, each with its command and payload. *)
Definition send_all (sends : list (Z * Buffer)) (d : BroadlinkDevice) : BroadlinkDevice :=
  foldl (fun d s => (sendPacket s.1 s.2 d).1) d sends.

(** The encrypted part of a command packet: what follows the header. *)
Definition ciphertext_of (packet : Buffer) : Buffer := drop 0x38 packet.

Definition authenticate (d : BroadlinkDevice) : BroadlinkDevice * list effect :=
  let payload :=
    stores
      [ (0x04, 0x31); (0x05, 0x31); (0x06, 0x31); (0x07, 0x31); (0x08, 0x31);
        (0x09, 0x31); (0x0a, 0x31); (0x0b, 0x31); (0x0c, 0x31); (0x0d, 0x31);
        (0x0e, 0x31); (0x0f, 0x31); (0x10, 0x31); (0x11, 0x31); (0x12, 0x31);
        (0x1e, 0x01); (0x2d, 0x01);
        (0x30, 84); (0x31, 101); (0x32, 115); (0x33, 116);
        (0x34, 32); (0x35, 32); (0x36, 49) ]
      (Buffer_alloc 0x50) in
  sendPacket 0x65 payload d.

(** ** Command dispatcher *)

Definition checkData (d : BroadlinkDevice) : BroadlinkDevice * list effect :=
  sendPacket 0x6a (store 0 4 (Buffer_alloc 16)) d.

Definition sendData (data : Buffer) (d : BroadlinkDevice) : BroadlinkDevice * list effect :=
  let packet := [0x02; 0x00; 0x00; 0x00] in
  let packet := packet ++ data in
  sendPacket 0x6a packet d.

Definition enterLearning (d : BroadlinkDevice) : BroadlinkDevice * list effect :=
  sendPacket 0x6a (store 0 3 (Buffer_alloc 16)) d.

Definition checkTemperature (d : BroadlinkDevice) : BroadlinkDevice * list effect :=
  sendPacket 0x6a (store 0 1 (Buffer_alloc 16)) d.

Definition cancelLearn (d : BroadlinkDevice) : BroadlinkDevice * list effect :=
  sendPacket 0x6a (store 0 0x1e (Buffer_alloc 16)) d.

Definition enterRFSweep (d : BroadlinkDevice) : BroadlinkDevice * list effect :=
  if negb (capabilites_RF d) then (d, [Log NoRFCapabilities])
  else
    let '(d, sent) := sendPacket 0x6a (store 0 0x19 (Buffer_alloc 16)) d in
    (d, Log LongPressPrompt :: sent).

Definition cancelRFSweep (d : BroadlinkDevice) : BroadlinkDevice * list effect :=
  if negb (capabilites_RF d) then (d, [Log NoRFCapabilities])
  else sendPacket 0x6a (store 0 0x1e (Buffer_alloc 16)) d.

Definition findRFPacket (d : BroadlinkDevice) : BroadlinkDevice * list effect :=
  if negb (capabilites_RF d) then (d, [Log NoRFCapabilities])
  else
    let '(d, sent) := sendPacket 0x6a (store 0 0x1b (Buffer_alloc 16)) d in
    (d, Log ShortPressPrompt :: sent).

Definition checkRFSweep (d : BroadlinkDevice) : BroadlinkDevice * list effect :=
  if negb (capabilites_RF d) then (d, [Log NoRFCapabilities])
  else sendPacket 0x6a (store 0 0x1a (Buffer_alloc 16)) d.

(** ** Receive path and notifications *)

(** A method of the session run on the session of a world. *)
Definition lift (f : BroadlinkDevice -> BroadlinkDevice * list effect) (w : World) :
    World * list effect :=
  let '(d, fx) := f (device w) in (with_device d w, fx).

(** One registered listener called with a notification. *)
Definition run_listener (n : notification) (w : World) (l : listener) :
    World * list effect :=
  match l, n with
  | SweepListener sweepTimeout p, EvSweep success =>
      let w := clearTimeout sweepTimeout w in
      let w := with_device (set_sweepHandler None (device w)) w in
      let outcome :=
        if negb success then Rejected "The RF sweep was not successful"
        else Fulfilled () in
      (with_sweepPromises (settle p outcome (sweepPromises w)) w, [])
  | DataListener dataTimeout p, EvData buf =>
      let w := clearTimeout dataTimeout w in
      let w := with_device (set_confirmHandler None (device w)) w in
      (with_confirmPromises (settle p (Fulfilled buf) (confirmPromises w)) w, [])
  | ReadyRelay, EvDeviceReady _ => (w, [EngineDeviceReady (device w)])
  | _, _ => (w, [])
  end.

(** The listeners of a notification called one after the other. *)
Definition call_listeners (n : notification) (ls : list listener)
    (start : World * list effect) : World * list effect :=
  foldl
    (fun acc l =>
       let '(w', fx) := run_listener n acc.1 l in (w', acc.2 ++ fx))
    start ls.

(** [this.emit(...)]: the listeners run in registration order. *)
Definition emit (n : notification) (w : World) : World * list effect :=
  call_listeners n (listeners (device w)) (w, [Emitted n]).

(** [(payload[0x4] * 10 + payload[0x5]) / 10.0]: an operand read past the
    end of the payload is [undefined] and makes the result [NaN]. *)
Definition temperature_of (payload : Buffer) : jsnumber :=
  match payload !! 4%nat, payload !! 5%nat with
  | Some tens, Some units => Tenths (tens * 10 + units)
  | _, _ => NaN
  end.

(** The ['message'] handler, for any way of delivering a notification to
    the listeners: [emit] when only the listeners of the module are
    registered, [emit_with] below when listeners registered from outside
    call back into the session. *)
Section Handler.

Variable deliver : notification -> World -> World * list effect.

Definition onPayloadReceived_by (err : Z) (payload : Buffer) (w : World) :
    result (World * list effect) :=
  let param := byteAt payload 0 in
  data ← Buffer_alloc_size (Z.of_nat (length payload) - 4);
  data ← Buffer_copy_from payload data 0 4;
  if param =? 1 then
    let temp := temperature_of payload in
    Ok (deliver (EvTemperature temp) w)
  else if param =? 4 then
    data ← Buffer_alloc_size (Z.of_nat (length payload) - 4);
    data ← Buffer_copy_from payload data 0 4;
    Ok (deliver (EvData data) w)
  else if param =? 26 then
    data ← Buffer_copy_from payload (Buffer_alloc 1) 0 0x4;
    Ok (deliver (EvSweep (bool_decide (byteAt data 0 = 1))) w)
  else if param =? 27 then
    data ← Buffer_copy_from payload (Buffer_alloc 1) 0 0x4;
    Ok (deliver (EvRfData data) w)
  else Ok (w, []).

Definition onResponse_by (response : Buffer) (w : World) :
    result (World * list effect) :=
  encryptedPayload ← Buffer_alloc_size (Z.of_nat (length response) - 0x38);
  encryptedPayload ← Buffer_copy_from response encryptedPayload 0 0x38;
  let err := Z.lor (byteAt response 0x22) (Z.shiftl (byteAt response 0x23) 8) in
  if negb (err =? 0) then Ok (deliver (EvDataError err) w)
  else
    payload ← decipher_update_final (key (device w)) (iv (device w)) encryptedPayload;
    let command := byteAt response 0x26 in
    if command =? 0xe9 then
      key' ← Buffer_copy payload (Buffer_alloc 0x10) 0 0x04 0x14;
      id' ← Buffer_copy payload (Buffer_alloc 0x04) 0 0x00 0x04;
      let w := with_device (set_key_id key' id' (device w)) w in
      Ok (deliver (EvDeviceReady (device w)) w)
    else if (command =? 0xee) || (command =? 0xef) then
      onPayloadReceived_by err payload w
    else Ok (w, [Log (UnknownCommand command)]).

End Handler.

(** The handler when no listener from outside calls back into the session
    while a notification is delivered. *)
Definition onPayloadReceived (err : Z) (payload : Buffer) (w : World) :
    result (World * list effect) :=
  onPayloadReceived_by emit err payload w.

Definition onResponse (response : Buffer) (w : World) : result (World * list effect) :=
  onResponse_by emit response w.

(** What the listeners of the module put out when the ready notification is
    delivered in world [w]: one relay by the engine for every relay listener
    [addDevice] registered, each passing the session as it is then. *)
Definition ready_relays (w : World) : list effect :=
  omap (fun l => if l is ReadyRelay then Some (EngineDeviceReady (device w)) else None)
    (listeners (device w)).

(** The handshake as the specification words it: the new key is 14
    contiguous payload bytes from some fixed offset, in a 16-byte field whose
    other bytes stay as allocated. *)
Definition key_is_14_payload_bytes (payload key : Buffer) : Prop :=
  ∃ offset : nat, key = take 14 (drop offset payload) ++ [0; 0].

(** ** RF learning sequences *)

Definition run_callback (cb : timer_callback) (w : World) : World * list effect :=
  match cb with
  | SweepTimeoutCb p =>
      let '(w, fx) := lift cancelRFSweep w in
      let w := with_device (set_sweepHandler None (device w)) w in
      (with_sweepPromises
         (settle p (Rejected "RF sweep did not return any result") (sweepPromises w)) w,
       fx)
  | SweepCheckCb => lift checkRFSweep w
  | ConfirmTimeoutCb p =>
      let w := with_device (set_confirmHandler None (device w)) w in
      (with_confirmPromises
         (settle p (Rejected "Did not get RF data from device") (confirmPromises w)) w,
       [])
  | ConfirmCheckCb => lift checkData w
  end.

(** The event loop runs the callback of a timer that is still set. *)
Definition timer_fires (t : nat) (w : World) : World * list effect :=
  match timers w !! t with
  | None => (w, [])
  | Some (cb, _) => run_callback cb (clearTimeout t w)
  end.

(** The result is the promise returned, as its index among the promises of
    its kind. *)
Definition sweepFrequency (w : World) : nat * World * list effect :=
  match sweepHandler (device w) with
  | Some p => (p, w, [])
  | None =>
      let p := length (sweepPromises w) in
      let w := with_sweepPromises (sweepPromises w ++ [Pending]) w in
      let '(sweepTimeout, w) := setTimeout (SweepTimeoutCb p) 30000 w in
      let '(_, w) := setTimeout SweepCheckCb 10000 w in
      let w := with_device (on (SweepListener sweepTimeout p) (device w)) w in
      let '(w, fx) := lift enterRFSweep w in
      let w := with_device (set_sweepHandler (Some p) (device w)) w in
      (p, w, fx)
  end.

Definition confirmFrequency (w : World) : nat * World * list effect :=
  match confirmHandler (device w) with
  | Some p => (p, w, [])
  | None =>
      let p := length (confirmPromises w) in
      let w := with_confirmPromises (confirmPromises w ++ [Pending]) w in
      let '(dataTimeout, w) := setTimeout (ConfirmTimeoutCb p) 10000 w in
      let '(_, w) := setTimeout ConfirmCheckCb 5000 w in
      let w := with_device (on (DataListener dataTimeout p) (device w)) w in
      let '(w, fx) := lift findRFPacket w in
      let w := with_device (set_confirmHandler (Some p) (device w)) w in
      (p, w, fx)
  end.

(** The cancellation the specification asks of a timeout: once the timeout
    timer [t] of an invocation has fired, the listener that invocation
    registered is gone. *)
Definition timeout_removes_listener (l : listener) (t : nat) (w : World) : Prop :=
  l ∉ listeners (device (timer_fires t w).1).


(** ** Listeners registered from outside

    The user of the module registers listeners of its own with [on]; [emit]
    calls them in registration order among the listeners of the module, and
    such a listener may call the public methods of the session, [emit]
    among them, before the next listener runs. *)

(** The public methods of a session. *)
Inductive method :=
| Emit (n : notification)
| Authenticate
| SendPacket (command : Z) (payload : Buffer)
| CheckData
| SendData (data : Buffer)
| EnterLearning
| CheckTemperature
| CancelLearn
| SweepFrequency
| ConfirmFrequency
| EnterRFSweep
| CancelRFSweep
| FindRFPacket
| CheckRFSweep.

Definition invoke (m : method) (w : World) : World * list effect :=
  match m with
  | Emit n => emit n w
  | Authenticate => lift authenticate w
  | SendPacket command payload => lift (sendPacket command payload) w
  | CheckData => lift checkData w
  | SendData data => lift (sendData data) w
  | EnterLearning => lift enterLearning w
  | CheckTemperature => lift checkTemperature w
  | CancelLearn => lift cancelLearn w
  | SweepFrequency => let '(_, w, fx) := sweepFrequency w in (w, fx)
  | ConfirmFrequency => let '(_, w, fx) := confirmFrequency w in (w, fx)
  | EnterRFSweep => lift enterRFSweep w
  | CancelRFSweep => lift cancelRFSweep w
  | FindRFPacket => lift findRFPacket w
  | CheckRFSweep => lift checkRFSweep w
  end.

(** The calls of outside listeners, one after the other. *)
Definition invoke_all (calls : list method) (start : World * list effect) :
    World * list effect :=
  foldl
    (fun acc m => let '(w', fx) := invoke m acc.1 in (w', acc.2 ++ fx))
    start calls.

(** The delivery of a notification to the listeners [ls] of the module that
    were registered when [emit] was called (listeners registered meanwhile
    are not called), with outside listeners among them: the head of [calls]
    is what the outside listeners registered before the next listener of the
    module call on the session, and what is left of [calls] after the last
    listener of the module is called then. *)
Fixpoint call_listeners_with (n : notification) (ls : list listener)
    (calls : list (list method)) (acc : World * list effect) : World * list effect :=
  match ls with
  | [] => invoke_all (concat calls) acc
  | l :: ls =>
      let acc := invoke_all (hd [] calls) acc in
      let '(w', fx) := run_listener n acc.1 l in
      call_listeners_with n ls (tl calls) (w', acc.2 ++ fx)
  end.

(** [this.emit(...)] with outside listeners registered. *)
Definition emit_with (calls : list (list method)) (n : notification) (w : World) :
    World * list effect :=
  call_listeners_with n (listeners (device w)) calls (w, [Emitted n]).

(** ** What can happen to a session

    A session reacts to a datagram on its socket, to a timer of the event
    loop running out, to a notification emitted on it from outside, and to a
    call of one of its public methods.  The event loop may run any timer that
    is still set: every order in which timers, datagrams and calls can arrive
    is covered, the orders the delays allow among them; the delay passed to
    [setTimeout] is recorded with the timer.  A datagram or a notification
    may be delivered while outside listeners are registered that call the
    session back: [DatagramWith] and [NotifyWith] carry what they call. *)

Inductive input :=
| Datagram (response : Buffer)
| TimerFires (t : nat)
| Notify (n : notification)
| CallAuthenticate
| CallSendPacket (command : Z) (payload : Buffer)
| CallCheckData
| CallSendData (data : Buffer)
| CallEnterLearning
| CallCheckTemperature
| CallCancelLearn
| CallSweepFrequency
| CallConfirmFrequency
| CallEnterRFSweep
| CallCancelRFSweep
| CallFindRFPacket
| CallCheckRFSweep
| DatagramWith (calls : list (list method)) (response : Buffer)
| NotifyWith (calls : list (list method)) (n : notification).

Definition step (i : input) (w : World) : result (World * list effect) :=
  match i with
  | Datagram response => onResponse response w
  | TimerFires t => Ok (timer_fires t w)
  | Notify n => Ok (emit n w)
  | CallAuthenticate => Ok (lift authenticate w)
  | CallSendPacket command payload => Ok (lift (sendPacket command payload) w)
  | CallCheckData => Ok (lift checkData w)
  | CallSendData data => Ok (lift (sendData data) w)
  | CallEnterLearning => Ok (lift enterLearning w)
  | CallCheckTemperature => Ok (lift checkTemperature w)
  | CallCancelLearn => Ok (lift cancelLearn w)
  | CallSweepFrequency => let '(_, w, fx) := sweepFrequency w in Ok (w, fx)
  | CallConfirmFrequency => let '(_, w, fx) := confirmFrequency w in Ok (w, fx)
  | CallEnterRFSweep => Ok (lift enterRFSweep w)
  | CallCancelRFSweep => Ok (lift cancelRFSweep w)
  | CallFindRFPacket => Ok (lift findRFPacket w)
  | CallCheckRFSweep => Ok (lift checkRFSweep w)
  | DatagramWith calls response => onResponse_by (emit_with calls) response w
  | NotifyWith calls n => Ok (emit_with calls n w)
  end.

(** A public method as an input of its own. *)
Definition input_of (m : method) : input :=
  match m with
  | Emit n => Notify n
  | Authenticate => CallAuthenticate
  | SendPacket command payload => CallSendPacket command payload
  | CheckData => CallCheckData
  | SendData data => CallSendData data
  | EnterLearning => CallEnterLearning
  | CheckTemperature => CallCheckTemperature
  | CancelLearn => CallCancelLearn
  | SweepFrequency => CallSweepFrequency
  | ConfirmFrequency => CallConfirmFrequency
  | EnterRFSweep => CallEnterRFSweep
  | CancelRFSweep => CallCancelRFSweep
  | FindRFPacket => CallFindRFPacket
  | CheckRFSweep => CallCheckRFSweep
  end.

(** The inputs during which no outside listener calls the session back. *)
Definition atomic (i : input) : Prop :=
  match i with
  | DatagramWith _ _ | NotifyWith _ _ => False
  | _ => True
  end.

(** The worlds a session reaches from its construction: [addDevice] may
    register its relay of the ready notification, then inputs arrive. *)
Inductive reachable : World -> Prop :=
| reachable_new host mac type random :
    reachable (new_World host mac type random)
| reachable_relay w :
    reachable w -> reachable (with_device (on ReadyRelay (device w)) w)
| reachable_step w i w' fx :
    reachable w -> step i w = Ok (w', fx) -> reachable w'.


(** A run of inputs; it ends at the first one that throws. *)
Fixpoint run (inputs : list input) (w : World) : result (World * list effect) :=
  match inputs with
  | [] => Ok (w, [])
  | i :: rest =>
      '(w1, fx1) ← step i w;
      '(w2, fx2) ← run rest w1;
      Ok (w2, fx1 ++ fx2)
  end.

(** ** Discovery engine *)

Record Broadlink := { devices : gmap string World }.

Definition addDevice (host : RemoteInfo) (mac : Buffer) (deviceType : Z)
    (random : Q) (b : Broadlink) : Broadlink * list effect :=
  if devices b !! toString_hex mac is Some _ then (b, [])
  else if unsupportedDeviceTypes !! deviceType is Some _ then (b, [])
  else if (0x7530 <=? deviceType) && (deviceType <=? 0x7918) then
    (b, [Log (IgnoringUnsupported deviceType host)])
  else if bool_decide (rmDeviceTypes !! deviceType = None
                       ∧ rmPlusDeviceTypes !! deviceType = None) then
    (b, [Log (IgnoringUnknown deviceType host)])
  else
    let session := new_World host mac deviceType random in
    let found := Log (Found (model (device session)) host) in
    let session := with_device (on ReadyRelay (device session)) session in
    let '(session, sent) := lift authenticate session in
    ({| devices := <[toString_hex mac := session]> (devices b) |}, found :: sent).

(** The identity of a discovery reply, assembled by six [copy] calls. *)
Definition macAddressBuffer (message : Buffer) : result Buffer :=
  m ← Buffer_copy_from message (Buffer_alloc 6) 0x00 0x3D;
  m ← Buffer_copy_from message m 0x01 0x3E;
  m ← Buffer_copy_from message m 0x02 0x3F;
  m ← Buffer_copy_from message m 0x03 0x3C;
  m ← Buffer_copy_from message m 0x04 0x3B;
  Buffer_copy_from message m 0x05 0x3A.

Definition onMessage (message : Buffer) (host : RemoteInfo) (random : Q)
    (b : Broadlink) : result (Broadlink * list effect) :=
  mac ← macAddressBuffer message;
  let macAddress := toString_hex mac in
  if devices b !! macAddress is Some _ then Ok (b, [])
  else
    let deviceType := Z.lor (byteAt message 0x34) (Z.shiftl (byteAt message 0x35) 8) in
    let '(b, fx) := addDevice host mac deviceType random b in
    Ok (b, Log (Discovered macAddress deviceType) :: fx).

(** What can happen to the engine: a discovery reply arrives ([random] is
    the draw a new session would make), or something happens to one of the
    registered sessions. *)
Inductive engine_input :=
| Reply (message : Buffer) (host : RemoteInfo) (random : Q)
| ToDevice (macAddress : string) (i : input).

Definition engine_step (e : engine_input) (b : Broadlink) :
    result (Broadlink * list effect) :=
  match e with
  | Reply message host random => onMessage message host random b
  | ToDevice macAddress i =>
      match devices b !! macAddress with
      | None => Ok (b, [])
      | Some w =>
          '(w', fx) ← step i w;
          Ok ({| devices := <[macAddress := w']> (devices b) |}, fx)
      end
  end.

Fixpoint engine_run (es : list engine_input) (b : Broadlink) :
    result (Broadlink * list effect) :=
  match es with
  | [] => Ok (b, [])
  | e :: rest =>
      '(b1, fx1) ← engine_step e b;
      '(b2, fx2) ← engine_run rest b1;
      Ok (b2, fx1 ++ fx2)
  end.

(** ** Notions used in the proofs *)

(** The methods of a session that only send, or refuse to. *)
Definition sender (f : BroadlinkDevice -> BroadlinkDevice * list effect) : Prop :=
  ∀ d, (f d).1 = d ∨ ∃ command payload, f d = sendPacket command payload d
       ∨ ∃ line, f d = ((sendPacket command payload d).1,
                        Log line :: (sendPacket command payload d).2).

(** What happens between two listeners while a notification is delivered
    with outside listeners registered: a public method is called, or a
    registered listener of the module runs. *)
Inductive micro : World -> World -> Prop :=
| micro_invoke m w : micro w (invoke m w).1
| micro_run n l w : l ∈ listeners (device w) -> micro w (run_listener n w l).1.

(** A notification no listener of the module reacts to by changing state. *)
Definition passive (n : notification) : Prop :=
  match n with
  | EvSweep _ | EvData _ => False
  | _ => True
  end.


(** Steps that leave both sequences alone, up to timers being taken away. *)
Definition rf_frame (w w' : World) : Prop :=
  sweepHandler (device w') = sweepHandler (device w)
  ∧ confirmHandler (device w') = confirmHandler (device w)
  ∧ listeners (device w') = listeners (device w)
  ∧ sweepPromises w' = sweepPromises w
  ∧ confirmPromises w' = confirmPromises w
  ∧ ∀ t x, timers w' !! t = Some x → timers w !! t = Some x.

(** What the constructor establishes about a session and every later
    operation keeps. *)
Definition session_wf (d : BroadlinkDevice) : Prop :=
  0 ≤ count d < 0x10000
  ∧ length (key d) = 16%nat ∧ length (iv d) = 16%nat ∧ length (id d) = 4%nat
  ∧ capabilites_RF d = bool_decide (rmPlusDeviceTypes !! type d ≠ None)
  ∧ model d = model_of (type d).

(** The ways the fields of a session are written after construction. *)
Inductive evolves : BroadlinkDevice -> BroadlinkDevice -> Prop :=
| evolves_refl d : evolves d d
| evolves_count d c : 0 ≤ c < 0x10000 -> evolves d (set_count c d)
| evolves_sweepHandler d h : evolves d (set_sweepHandler h d)
| evolves_confirmHandler d h : evolves d (set_confirmHandler h d)
| evolves_key_id d k i :
    length k = 16%nat -> length i = 4%nat -> evolves d (set_key_id k i d)
| evolves_on d l : evolves d (on l d)
| evolves_trans d1 d2 d3 : evolves d1 d2 -> evolves d2 d3 -> evolves d1 d3.

(** Both learning sequences of a session are in order. *)
Definition rf_inv (w : World) : Prop :=
  machine_inv (sweep_view w) ∧ machine_inv (confirm_view w).

(** What an input does to the two sequences. *)
Definition both_views (w w' : World) : Prop :=
  v_steps (sweep_view w) (sweep_view w') ∧ v_steps (confirm_view w) (confirm_view w').

(** What one step does to the listeners, promises and timers of a session. *)
Inductive rf_step (w w' : World) : Prop :=
| rs_same :
    listeners (device w') = listeners (device w) ->
    sweepPromises w' = sweepPromises w ->
    confirmPromises w' = confirmPromises w ->
    timers w' = timers w ->
    next_timer w' = next_timer w ->
    rf_step w w'
| rs_sweep_notified outcome :
    outcome ≠ Pending ->
    listeners (device w') = listeners (device w) ->
    next_timer w' = next_timer w ->
    confirmPromises w' = confirmPromises w ->
    sweepPromises w'
    = settle_all outcome (omap sweep_target (listeners (device w))) (sweepPromises w) ->
    (∀ t, t ∈ (omap sweep_target (listeners (device w))).*1 → timers w' !! t = None) ->
    (∀ t, t ∉ (omap sweep_target (listeners (device w))).*1 →
          timers w' !! t = timers w !! t) ->
    rf_step w w'
| rs_data_notified outcome :
    outcome ≠ Pending ->
    listeners (device w') = listeners (device w) ->
    next_timer w' = next_timer w ->
    sweepPromises w' = sweepPromises w ->
    confirmPromises w'
    = settle_all outcome (omap confirm_target (listeners (device w)))
        (confirmPromises w) ->
    (∀ t, t ∈ (omap confirm_target (listeners (device w))).*1 → timers w' !! t = None) ->
    (∀ t, t ∉ (omap confirm_target (listeners (device w))).*1 →
          timers w' !! t = timers w !! t) ->
    rf_step w w'
| rs_timer t cb ms :
    timers w !! t = Some (cb, ms) ->
    listeners (device w') = listeners (device w) ->
    next_timer w' = next_timer w ->
    timers w' = delete t (timers w) ->
    sweepPromises w'
    = (if cb is SweepTimeoutCb p
       then settle p (Rejected "RF sweep did not return any result") (sweepPromises w)
       else sweepPromises w) ->
    confirmPromises w'
    = (if cb is ConfirmTimeoutCb p
       then settle p (Rejected "Did not get RF data from device") (confirmPromises w)
       else confirmPromises w) ->
    rf_step w w'
| rs_sweep_invoked :
    listeners (device w')
    = listeners (device w)
      ++ [SweepListener (next_timer w) (length (sweepPromises w))] ->
    sweepPromises w' = sweepPromises w ++ [Pending] ->
    confirmPromises w' = confirmPromises w ->
    timers w'
    = <[S (next_timer w) := (SweepCheckCb, 10000)]>
        (<[next_timer w := (SweepTimeoutCb (length (sweepPromises w)), 30000)]>
           (timers w)) ->
    next_timer w' = S (S (next_timer w)) ->
    rf_step w w'
| rs_confirm_invoked :
    listeners (device w')
    = listeners (device w)
      ++ [DataListener (next_timer w) (length (confirmPromises w))] ->
    confirmPromises w' = confirmPromises w ++ [Pending] ->
    sweepPromises w' = sweepPromises w ->
    timers w'
    = <[S (next_timer w) := (ConfirmCheckCb, 5000)]>
        (<[next_timer w := (ConfirmTimeoutCb (length (confirmPromises w)), 10000)]>
           (timers w)) ->
    next_timer w' = S (S (next_timer w)) ->
    rf_step w w'
| rs_sweep_run t p outcome :
    outcome ≠ Pending ->
    SweepListener t p ∈ listeners (device w) ->
    listeners (device w') = listeners (device w) ->
    next_timer w' = next_timer w ->
    confirmPromises w' = confirmPromises w ->
    sweepPromises w' = settle p outcome (sweepPromises w) ->
    timers w' = delete t (timers w) ->
    rf_step w w'
| rs_data_run t p outcome :
    outcome ≠ Pending ->
    DataListener t p ∈ listeners (device w) ->
    listeners (device w') = listeners (device w) ->
    next_timer w' = next_timer w ->
    sweepPromises w' = sweepPromises w ->
    confirmPromises w' = settle p outcome (confirmPromises w) ->
    timers w' = delete t (timers w) ->
    rf_step w w'.

(** One step as both descriptions see it. *)
Definition linked (w w' : World) : Prop := both_views w w' ∧ rf_step w w'.

(** While a result is pending, the timeout timer of its invocation is set;
    the listeners have timers of their own. *)
Definition armed_inv (w : World) : Prop :=
  (∀ t p, SweepListener t p ∈ listeners (device w) → (t < next_timer w)%nat)
  ∧ (∀ t p, DataListener t p ∈ listeners (device w) → (t < next_timer w)%nat)
  ∧ (∀ t p q, SweepListener t p ∈ listeners (device w) →
              DataListener t q ∈ listeners (device w) → False)
  ∧ (∀ t p, SweepListener t p ∈ listeners (device w) →
            sweepPromises w !! p = Some Pending →
            timers w !! t = Some (SweepTimeoutCb p, 30000))
  ∧ (∀ t p, DataListener t p ∈ listeners (device w) →
            confirmPromises w !! p = Some Pending →
            timers w !! t = Some (ConfirmTimeoutCb p, 10000))
  ∧ (∀ t p q, SweepListener t p ∈ listeners (device w) →
              SweepListener t q ∈ listeners (device w) → p = q)
  ∧ (∀ t p q, DataListener t p ∈ listeners (device w) →
              DataListener t q ∈ listeners (device w) → p = q).


(** ** Further notions for the properties of the rest of the code *)

Definition is_byte (x : Z) : Prop := 0 ≤ x < 256.

(** The decryption of a block undoes its encryption. *)
Definition inverse_blocks (encrypt decrypt : Buffer -> Buffer -> Buffer) : Prop :=
  ∀ key block : Buffer,
    length key = 16%nat → length block = 16%nat →
    decrypt key (encrypt key block) = block.

(** The value of a hexadecimal digit as [toString('hex')] writes it. *)
Definition hex_value (c : ascii) : Z :=
  (if Ascii.eqb c "0" then 0 else if Ascii.eqb c "1" then 1
   else if Ascii.eqb c "2" then 2 else if Ascii.eqb c "3" then 3
   else if Ascii.eqb c "4" then 4 else if Ascii.eqb c "5" then 5
   else if Ascii.eqb c "6" then 6 else if Ascii.eqb c "7" then 7
   else if Ascii.eqb c "8" then 8 else if Ascii.eqb c "9" then 9
   else if Ascii.eqb c "a" then 10 else if Ascii.eqb c "b" then 11
   else if Ascii.eqb c "c" then 12 else if Ascii.eqb c "d" then 13
   else if Ascii.eqb c "e" then 14 else 15)%char.

(** Reading a buffer back from its hex string. *)
Fixpoint from_hex (s : string) : Buffer :=
  match s with
  | String hi (String lo rest) => (hex_value hi * 16 + hex_value lo) :: from_hex rest
  | _ => []
  end.

(** A 16-bit little-endian field of a buffer. *)
Definition le16 (b : Buffer) (offset : Z) : Z :=
  Z.lor (byteAt b offset) (Z.shiftl (byteAt b (offset + 1)) 8).

(** What a method of the command dispatcher does when it sends the 16-byte
    template with operation code [opcode]: one datagram of 0x38 + 16 bytes to
    the device, outer command byte 0x6a, after the lines of [prompt]; the
    counter moves on by one and the ciphertext decrypts to the template. *)
Definition sends_command (opcode : Z) (prompt : list effect)
    (d : BroadlinkDevice) (r : BroadlinkDevice * list effect) : Prop :=
  ∃ packet,
    r = (set_count (Z.land (count d + 1) 0xffff) d,
         prompt ++ [Send packet (port (host d)) (address (host d))])
    ∧ length packet = 72%nat
    ∧ byteAt packet 0x26 = 0x6a
    ∧ decipher_update_final (key d) (iv d) (ciphertext_of packet)
      = Ok (opcode :: replicate 15 0).


(** The notifications the module itself registers no listener for. *)
Definition unheard (n : notification) : Prop :=
  match n with
  | EvTemperature _ | EvRfData _ | EvDataError _ => True
  | _ => False
  end.

Definition is_send (e : effect) : Prop :=
  match e with
  | Send _ _ _ => True
  | _ => False
  end.

(** The callbacks of the two poll timers. *)
Definition is_check (cb : timer_callback) : Prop :=
  match cb with
  | SweepCheckCb | ConfirmCheckCb => True
  | _ => False
  end.

(** Timers are numbered below the next timer id, and no listener holds the
    id of a poll timer. *)
Definition timer_inv (w : World) : Prop :=
  (∀ t x, timers w !! t = Some x → (t < next_timer w)%nat)
  ∧ (∀ t cb ms, timers w !! t = Some (cb, ms) → is_check cb →
       (t ∉ (omap sweep_target (listeners (device w))).*1)
       ∧ (t ∉ (omap confirm_target (listeners (device w))).*1)).

(** A timer id that has been given out and that no listener holds. *)
Definition unheld (t : nat) (w : World) : Prop :=
  (t < next_timer w)%nat
  ∧ (t ∉ (omap sweep_target (listeners (device w))).*1)
  ∧ (t ∉ (omap confirm_target (listeners (device w))).*1).

(** One listener of each kind per promise of that kind. *)
Definition listener_count_inv (w : World) : Prop :=
  length (omap sweep_target (listeners (device w))) = length (sweepPromises w)
  ∧ length (omap confirm_target (listeners (device w))) = length (confirmPromises w).

(** ** Further sample inputs *)

Definition sample_payload : Buffer := replicate 16 7.

(** A reply of 0x38 bytes with error code 0xfffb. *)
Definition sample_error_reply : Buffer :=
  replicate 0x22 0 ++ [0xfb; 0xff] ++ replicate 0x14 0.

(** A header with error code 0 and command byte 0xee, and a payload of one
    block that announces data. *)
Definition sample_data_header : Buffer :=
  replicate 0x26 0 ++ [0xee] ++ replicate 0x11 0.

Definition sample_data_payload : Buffer := [4; 0; 0; 0; 38; 0; 1; 2] ++ replicate 8 0.

(** A temperature reply cut short: the units byte at offset 5 is missing. *)
Definition sample_short_temperature : Buffer := [1; 0; 0; 0; 25].

(** A temperature reply of one block: 25 and 3 at offsets 4 and 5. *)
Definition sample_temperature : Buffer := [1; 0; 0; 0; 25; 3] ++ replicate 10 0.

Definition sample_date : Date :=
  {| getTimezoneOffset := 300; getFullYear := 2024; getMinutes := 30;
     getHours := 12; getDay := 1; getDate := 15; getMonth := 3 |}.

Definition sample_other_mac : Buffer := [0x34; 0xea; 0x34; 0x99; 0x99; 0x99].



(** What holds of every session the registry holds. *)
Definition registry_inv (b : Broadlink) : Prop :=
  ∀ k w, devices b !! k = Some w →
    reachable w
    ∧ k = toString_hex (mac (device w))
    ∧ (is_Some (rmDeviceTypes !! type (device w))
       ∨ is_Some (rmPlusDeviceTypes !! type (device w)))
    ∧ ReadyRelay ∈ listeners (device w).
(** * Properties *)

(** ** Integers and buffers *)

Lemma land_ffff n : Z.land n 0xffff = n mod 0x10000.
Proof. apply (Z.land_ones n 16). lia. Qed.

Lemma land_ff n : Z.land n 0xff = n mod 0x100.
Proof. apply (Z.land_ones n 8). lia. Qed.

Lemma ToUint8_small n : 0 ≤ n < 256 → ToUint8 n = n.
Proof. intros Hn. unfold ToUint8. by apply Z.mod_small. Qed.

Lemma length_store i v b : length (store i v b) = length b.
Proof. unfold store. destruct (i <? 0); [done | apply length_insert]. Qed.

Lemma length_stores a b : length (stores a b) = length b.
Proof.
  unfold stores. revert b.
  induction a as [|[i v] a IH]; intros b; simpl; [done|].
  by rewrite IH, length_store.
Qed.

Lemma length_Buffer_alloc n : length (Buffer_alloc n) = Z.to_nat n.
Proof. apply length_replicate. Qed.

Lemma lookup_store_ne i v b (n : nat) :
  Z.to_nat i ≠ n ∨ i < 0 → store i v b !! n = b !! n.
Proof.
  unfold store. intros H. destruct (Z.ltb_spec i 0); [done|].
  apply list_lookup_insert_ne. lia.
Qed.

Lemma lookup_store_eq i v b :
  0 ≤ i → (Z.to_nat i < length b)%nat → store i v b !! Z.to_nat i = Some (ToUint8 v).
Proof.
  unfold store. intros H Hlen. destruct (Z.ltb_spec i 0); [lia|].
  by apply list_lookup_insert_eq.
Qed.

Lemma lookup_stores_untouched a b n :
  untouched n a = true → stores a b !! n = b !! n.
Proof.
  unfold stores. revert b.
  induction a as [|[i v] a IH]; intros b Hu; simpl in *; [done|].
  apply andb_prop in Hu as [Hi Hu]. rewrite IH by done.
  apply lookup_store_ne. apply orb_prop in Hi as [Hi|Hi].
  - right. by apply Z.ltb_lt.
  - left. apply negb_true_iff, Nat.eqb_neq in Hi. done.
Qed.

Lemma byteAt_lookup b i x :
  0 ≤ i → b !! Z.to_nat i = Some x → byteAt b i = x.
Proof.
  unfold byteAt. intros Hi Hx. destruct (Z.ltb_spec i 0); [lia|]. by rewrite Hx.
Qed.

(** ** Checksums *)

Lemma foldl_masked b acc :
  foldl (fun checksum x => Z.land (checksum + x) 0xffff) acc b
  = if b is [] then acc else (acc + foldr Z.add 0 b) mod 0x10000.
Proof.
  revert acc. induction b as [|x b IH]; intros acc; [done|].
  simpl. rewrite IH, land_ffff. destruct b as [|y b].
  - simpl. by rewrite Z.add_0_r.
  - rewrite Zplus_mod_idemp_l. f_equal. simpl. lia.
Qed.

Lemma foldl_summed b acc :
  foldl (fun checksum x => checksum + x) acc b = acc + foldr Z.add 0 b.
Proof.
  revert acc. induction b as [|x b IH]; intros acc; simpl; [lia|].
  rewrite IH. lia.
Qed.

Lemma checksum_masked_reference b : checksum_masked b = wraparound_checksum b.
Proof.
  unfold checksum_masked, wraparound_checksum. rewrite foldl_masked.
  destruct b; [done|done].
Qed.

Lemma checksum_summed_reference b : checksum_summed b = wraparound_checksum b.
Proof.
  unfold checksum_summed, wraparound_checksum. by rewrite foldl_summed, land_ffff.
Qed.

Lemma wraparound_checksum_range b : 0 ≤ wraparound_checksum b < 0x10000.
Proof. unfold wraparound_checksum. apply Z.mod_pos_bound. lia. Qed.

(** Writing a 16-bit value into a zeroed checksum field and reading it back. *)
Lemma checksum_field_roundtrip (packet : Buffer) checksum :
  0 ≤ checksum < 0x10000 →
  packet !! 0x20%nat = Some 0 → packet !! 0x21%nat = Some 0 →
  let sent := stores [(0x20, Z.land checksum 0xff); (0x21, Z.shiftr checksum 8)] packet in
  stored_checksum sent = checksum ∧ zero_checksum_field sent = packet.
Proof.
  intros Hc H20 H21 sent.
  assert (Hlen : (0x21 < length packet)%nat) by (by eapply lookup_lt_Some).
  split.
  - unfold stored_checksum, sent, stores. simpl.
    rewrite (byteAt_lookup _ 0x20 (ToUint8 (Z.land checksum 0xff))); [|lia|].
    2:{ rewrite lookup_store_ne by (left; lia).
        apply (lookup_store_eq 0x20); [lia|]. change (Z.to_nat 0x20) with 32%nat. lia. }
    rewrite (byteAt_lookup _ 0x21 (ToUint8 (Z.shiftr checksum 8))); [|lia|].
    2:{ apply (lookup_store_eq 0x21); [lia|]. rewrite length_store.
        change (Z.to_nat 0x21) with 33%nat. lia. }
    rewrite !ToUint8_small.
    + change 0xff with (Z.ones 8). rewrite <- Z.ldiff_ones_r by lia.
      rewrite Z.lor_comm. apply Z.lor_ldiff_and.
    + rewrite Z.shiftr_div_pow2 by lia. change (2 ^ 8) with 256.
      split; [apply Z.div_pos; lia | apply Z.div_lt_upper_bound; lia].
    + rewrite land_ff. apply Z.mod_pos_bound. lia.
  - unfold zero_checksum_field, sent, stores, store. simpl.
    change (Pos.to_nat 32) with 32%nat. change (Pos.to_nat 33) with 33%nat.
    apply list_eq. intros n.
    destruct (decide (n = 33%nat)) as [->|]; [|rewrite list_lookup_insert_ne by done].
    + rewrite list_lookup_insert_eq; [by rewrite H21|]. rewrite !length_insert. lia.
    + destruct (decide (n = 32%nat)) as [->|]; [|rewrite list_lookup_insert_ne by done].
      * rewrite list_lookup_insert_eq; [by rewrite H20|]. rewrite !length_insert. lia.
      * rewrite list_lookup_insert_ne by done. by rewrite list_lookup_insert_ne by done.
Qed.

(** ** Packets and their checksums *)

Lemma length_packet_header command d : length (packet_header command d) = 0x38%nat.
Proof. unfold packet_header. by rewrite length_stores, length_Buffer_alloc. Qed.

Lemma discovery_packet_length splitIPAddress port now :
  length (discovery_packet splitIPAddress port now) = 0x30%nat.
Proof.
  unfold discovery_packet, storeQ. cbv zeta.
  destruct (Qlt_le_dec _ 0);
    by rewrite !length_stores, length_store, length_Buffer_alloc.
Qed.

(** The packet of [sendPacket] before its whole-packet checksum is stored. *)
Lemma command_packet_before_checksum command payload d :
  ∃ packet : Buffer,
    packet = stores [(0x34, Z.land (checksum_masked payload) 0xff);
                     (0x35, Z.shiftr (checksum_masked payload) 8)]
               (packet_header command d)
             ++ cipher_update (key d) (iv d) payload
    ∧ command_packet command payload d
      = stores [(0x20, Z.land (checksum_masked packet) 0xff);
                (0x21, Z.shiftr (checksum_masked packet) 8)] packet
    ∧ packet !! 0x20%nat = Some 0 ∧ packet !! 0x21%nat = Some 0.
Proof.
  eexists. split; [reflexivity|]. split; [reflexivity|].
  split.
  all: rewrite lookup_app_l by (rewrite length_stores, length_packet_header; lia).
  all: rewrite lookup_stores_untouched by reflexivity.
  all: unfold packet_header; by rewrite lookup_stores_untouched by reflexivity.
Qed.

(** C5: the checksum stored at offsets 0x20 and 0x21 of the discovery packet
    of [onListening] and of every command packet of [sendPacket] is the
    wraparound checksum (seed 0xBEAF, sum modulo 2^16) of the whole packet
    with that field zeroed. *)
Theorem built_packets_reproduce_stored_checksum :
  (∀ splitIPAddress port now,
     let packet := discovery_packet splitIPAddress port now in
     onListening splitIPAddress port now
       = [Log (Listening splitIPAddress port); Send packet 80 "255.255.255.255"]
     ∧ length packet = 48%nat
     ∧ stored_checksum packet = wraparound_checksum (zero_checksum_field packet))
  ∧ (∀ command payload d,
       ∃ d' packet,
         sendPacket command payload d
           = (d', [Send packet (port (host d)) (address (host d))])
         ∧ packet = command_packet command payload d'
         ∧ stored_checksum packet = wraparound_checksum (zero_checksum_field packet)).
Proof.
  split.
  - intros splitIPAddress port now packet.
    split; [reflexivity|]. split; [apply discovery_packet_length|].
    subst packet. unfold discovery_packet. cbv zeta.
    match goal with
    | |- context [stores _ ?p0] =>
        lazymatch p0 with
        | stores _ (if _ then _ else _) =>
            destruct (checksum_field_roundtrip p0 (checksum_summed p0)) as [-> ->]
        end
    end.
    + rewrite checksum_summed_reference. apply wraparound_checksum_range.
    + rewrite lookup_stores_untouched by reflexivity.
      destruct (Qlt_le_dec _ 0); rewrite lookup_stores_untouched by reflexivity;
        unfold storeQ; by rewrite lookup_store_ne by (left; lia).
    + rewrite lookup_stores_untouched by reflexivity.
      destruct (Qlt_le_dec _ 0); rewrite lookup_stores_untouched by reflexivity;
        unfold storeQ; by rewrite lookup_store_ne by (left; lia).
    + apply checksum_summed_reference.
  - intros command payload d. eexists _, _. split; [reflexivity|].
    split; [reflexivity|].
    destruct (command_packet_before_checksum command payload
                (set_count (Z.land (count d + 1) 0xffff) d))
      as (packet & _ & -> & H20 & H21).
    destruct (checksum_field_roundtrip packet (checksum_masked packet))
      as [-> ->]; try done.
    + rewrite checksum_masked_reference. apply wraparound_checksum_range.
    + apply checksum_masked_reference.
Qed.

(** ** The sequence counter *)

Lemma store_app_l i v (l1 l2 : Buffer) :
  (Z.to_nat i < length l1)%nat → store i v (l1 ++ l2) = store i v l1 ++ l2.
Proof.
  intros Hi. unfold store. destruct (i <? 0); [done|]. by apply insert_app_l.
Qed.

Lemma command_packet_split command payload d :
  ∃ header : Buffer,
    command_packet command payload d = header ++ cipher_update (key d) (iv d) payload
    ∧ length header = 0x38%nat
    ∧ ∀ n, untouched n [(0x20, 0); (0x21, 0); (0x34, 0); (0x35, 0)] = true →
           header !! n = packet_header command d !! n.
Proof.
  unfold command_packet. cbv zeta.
  set (h := stores _ (packet_header command d)).
  assert (Hh : length h = 0x38%nat) by (unfold h; by rewrite length_stores, length_packet_header).
  set (c := checksum_masked _). clearbody c.
  exists (stores [(0x20, Z.land c 0xff); (0x21, Z.shiftr c 8)] h).
  split; [|split].
  - unfold stores. cbn [foldl fst snd]. rewrite !store_app_l; [done| |].
    + rewrite length_store, Hh. change (Z.to_nat 33) with 33%nat. lia.
    + rewrite Hh. change (Z.to_nat 32) with 32%nat. lia.
  - by rewrite length_stores.
  - intros n Hn. unfold untouched in Hn. cbn [forallb] in Hn.
    repeat (apply andb_prop in Hn as [? Hn]). unfold h.
    rewrite !lookup_stores_untouched; [done| |]; unfold untouched; cbn [forallb];
      repeat (apply andb_true_intro; split); assumption.
Qed.

Lemma packet_header_counter command d :
  packet_header command d !! 40%nat = Some (ToUint8 (Z.land (count d) 0xff))
  ∧ packet_header command d !! 41%nat = Some (ToUint8 (Z.shiftr (count d) 8)).
Proof. split; reflexivity. Qed.

Lemma count_after_send command payload d :
  count (sendPacket command payload d).1 = (count d + 1) mod 0x10000.
Proof. simpl. apply land_ffff. Qed.

Lemma count_send_all sends d :
  count (send_all sends d)
  = if sends is [] then count d
    else (count d + Z.of_nat (length sends)) mod 0x10000.
Proof.
  unfold send_all. revert d. induction sends as [|s sends IH]; intros d; [done|].
  cbn [foldl]. rewrite IH, count_after_send. destruct sends as [|s' sends].
  - simpl. done.
  - rewrite Zplus_mod_idemp_l. f_equal. simpl length. lia.
Qed.

(** ** Block alignment of the ciphertext *)

Lemma length_complete_blocks (b : Buffer) :
  length (complete_blocks b) = (length b / 16)%nat.
Proof. unfold complete_blocks. by rewrite length_fmap, length_seq. Qed.

Lemma complete_blocks_sized (b : Buffer) :
  Forall (fun block => length block = 16%nat) (complete_blocks b).
Proof.
  unfold complete_blocks. apply Forall_fmap, Forall_forall.
  intros i Hi%elem_of_seq. simpl. rewrite length_take, length_drop.
  pose proof (Nat.div_mod_eq (length b) 16). lia.
Qed.

Lemma complete_blocks_prefix (b : Buffer) :
  complete_blocks (take (16 * (length b / 16)) b) = complete_blocks b.
Proof.
  pose proof (Nat.div_mod_eq (length b) 16) as Hdiv.
  unfold complete_blocks. rewrite length_take.
  replace ((16 * (length b / 16)) `min` length b)%nat with (16 * (length b / 16))%nat by lia.
  rewrite (Nat.mul_comm 16), Nat.div_mul by done.
  apply list_fmap_ext. intros _ i Hi%list_elem_of_lookup_2%elem_of_seq.
  rewrite !take_drop_commute, take_take. do 2 f_equal. lia.
Qed.

Lemma cbc_encrypt_sized key previous blocks :
  block_sized aes_encrypt_block →
  length key = 16%nat → length previous = 16%nat →
  Forall (fun block => length block = 16%nat) blocks →
  Forall (fun c => length c = 16%nat) (cbc_encrypt key previous blocks)
  ∧ length (cbc_encrypt key previous blocks) = length blocks.
Proof.
  intros Haes Hkey. revert previous.
  induction blocks as [|block blocks IH]; intros previous Hprev Hblocks; [done|].
  apply Forall_cons in Hblocks as [Hblock Hblocks]. simpl.
  assert (length (aes_encrypt_block key (xor_bytes block previous)) = 16%nat) as Hc.
  { apply Haes; [done|]. unfold xor_bytes. rewrite length_zip_with. lia. }
  destruct (IH _ Hc Hblocks) as [IH1 IH2]. split; [by constructor | by rewrite IH2].
Qed.

Lemma length_concat_sized (blocks : list Buffer) :
  Forall (fun c => length c = 16%nat) blocks →
  length (concat blocks) = (16 * length blocks)%nat.
Proof.
  induction 1 as [|c blocks Hc _ IH]; [done|].
  simpl. rewrite length_app, IH, Hc. lia.
Qed.

Lemma length_cipher_update key iv data :
  block_sized aes_encrypt_block →
  length key = 16%nat → length iv = 16%nat →
  length (cipher_update key iv data) = (16 * (length data / 16))%nat.
Proof.
  intros Haes Hkey Hiv. unfold cipher_update.
  destruct (cbc_encrypt_sized key iv (complete_blocks data) Haes Hkey Hiv
              (complete_blocks_sized data)) as [Hsized Hlen].
  by rewrite length_concat_sized, Hlen, length_complete_blocks.
Qed.

Lemma cipher_update_prefix key iv data :
  cipher_update key iv data
  = cipher_update key iv (take (16 * (length data / 16)) data).
Proof. unfold cipher_update. by rewrite complete_blocks_prefix. Qed.

(** C10: the ciphertext that [sendPacket] appends to the 0x38-byte header
    has length 16 * floor(payload length / 16) and is the encryption of that
    prefix of the payload alone: the trailing bytes of a payload that is not
    block aligned are not encrypted and not sent.  For [sendData] the payload
    is the 4-byte send-code header followed by the code, so unless the code
    length is 12 modulo 16 the ciphertext is shorter than the payload. *)
Theorem ciphertext_holds_only_complete_blocks :
  block_sized aes_encrypt_block →
  (∀ command payload d,
     length (key d) = 16%nat → length (iv d) = 16%nat →
     ∃ d' packet,
       sendPacket command payload d
         = (d', [Send packet (port (host d)) (address (host d))])
       ∧ length packet = (0x38 + 16 * (length payload / 16))%nat
       ∧ length (ciphertext_of packet) = (16 * (length payload / 16))%nat
       ∧ ciphertext_of packet
         = cipher_update (key d) (iv d) (take (16 * (length payload / 16)) payload))
  ∧ (∀ data d,
       length (key d) = 16%nat → length (iv d) = 16%nat →
       (length data `mod` 16 ≠ 12)%nat →
       ∃ d' packet,
         sendData data d = (d', [Send packet (port (host d)) (address (host d))])
         ∧ (length (ciphertext_of packet) < 4 + length data)%nat
         ∧ ciphertext_of packet
           = cipher_update (key d) (iv d)
               (take (16 * ((4 + length data) / 16)) ([0x02; 0x00; 0x00; 0x00] ++ data))).
Proof.
  intros Haes.
  assert (Hsend : ∀ command payload d,
     length (key d) = 16%nat → length (iv d) = 16%nat →
     ∃ d' packet,
       sendPacket command payload d
         = (d', [Send packet (port (host d)) (address (host d))])
       ∧ length packet = (0x38 + 16 * (length payload / 16))%nat
       ∧ length (ciphertext_of packet) = (16 * (length payload / 16))%nat
       ∧ ciphertext_of packet
         = cipher_update (key d) (iv d) (take (16 * (length payload / 16)) payload)).
  { intros command payload d Hkey Hiv. eexists _, _. split; [reflexivity|].
    destruct (command_packet_split command payload
                (set_count (Z.land (count d + 1) 0xffff) d)) as (h & -> & Hh & _).
    simpl key. simpl iv. unfold ciphertext_of.
    rewrite drop_app_length' by done.
    rewrite length_app, Hh, length_cipher_update by done.
    split; [done|]. split; [done|]. apply cipher_update_prefix. }
  split; [exact Hsend|].
  intros data d Hkey Hiv Hmod.
  destruct (Hsend 0x6a ([0x02; 0x00; 0x00; 0x00] ++ data) d Hkey Hiv)
    as (d' & packet & Hsent & _ & Hlen & Hct).
  exists d', packet. split; [exact Hsent|].
  rewrite Hlen, Hct. simpl length.
  split; [|done].
  pose proof (Nat.div_mod_eq (S (S (S (S (length data))))) 16) as Hdiv.
  assert (S (S (S (S (length data)))) `mod` 16 ≠ 0)%nat; [|lia].
  intros H0. apply Hmod.
  pose proof (Nat.div_mod_eq (length data) 16) as Hd.
  pose proof (Nat.mod_upper_bound (length data) 16).
  assert (Hsum : (S (S (S (S (length data)))) = 4 + length data `mod` 16 + (length data / 16) * 16)%nat) by lia.
  rewrite Hsum, Nat.Div0.mod_add in H0.
  destruct (decide (length data `mod` 16 < 12)%nat).
  - rewrite Nat.mod_small in H0 by lia. lia.
  - destruct (decide (length data `mod` 16 = 12)%nat); [done|].
    assert (Hr : (4 + length data `mod` 16 = (4 + length data `mod` 16 - 16) + 1 * 16)%nat) by lia.
    rewrite Hr, Nat.Div0.mod_add, Nat.mod_small in H0 by lia. lia.
Qed.
(** ** How a session evolves *)

Lemma with_device_same w : with_device (device w) w = w.
Proof. by destruct w. Qed.

Lemma evolves_wf d d' : evolves d d' → session_wf d → session_wf d'.
Proof.
  induction 1 as [d|d c Hc|d h|d h|d k i Hk Hi|d l|d1 d2 d3 _ IH1 _ IH2];
    intros Hwf; try (apply IH2, IH1, Hwf);
    destruct Hwf as (Hcount & Hkey & Hiv & Hid & Hrf & Hmodel); done.
Qed.

Lemma evolves_static d d' :
  evolves d d' →
  host d' = host d ∧ mac d' = mac d ∧ type d' = type d ∧ model d' = model d
  ∧ iv d' = iv d ∧ capabilites_RF d' = capabilites_RF d.
Proof.
  induction 1 as [d|d c Hc|d h|d h|d k i Hk Hi|d l|d1 d2 d3 _ IH1 _ IH2];
    try done.
  destruct IH1 as (? & ? & ? & ? & ? & ?), IH2 as (? & ? & ? & ? & ? & ?).
  repeat split; congruence.
Qed.

Lemma sendPacket_evolves command payload d :
  evolves d (sendPacket command payload d).1.
Proof.
  simpl. apply evolves_count. rewrite land_ffff. apply Z.mod_pos_bound. lia.
Qed.

Lemma sender_evolves f d : sender f → evolves d (f d).1.
Proof.
  intros Hf. destruct (Hf d) as [->|(command & payload & [->| [line ->]])].
  - constructor.
  - apply sendPacket_evolves.
  - apply sendPacket_evolves.
Qed.

Lemma sender_sendPacket command payload : sender (sendPacket command payload).
Proof. intros d. right. eauto. Qed.

Lemma sender_authenticate : sender authenticate.
Proof. intros d. right. unfold authenticate. eauto. Qed.

Lemma sender_checkData : sender checkData.
Proof. intros d. right. unfold checkData. eauto. Qed.

Lemma sender_sendData data : sender (sendData data).
Proof. intros d. right. unfold sendData. eauto. Qed.

Lemma sender_enterLearning : sender enterLearning.
Proof. intros d. right. unfold enterLearning. eauto. Qed.

Lemma sender_checkTemperature : sender checkTemperature.
Proof. intros d. right. unfold checkTemperature. eauto. Qed.

Lemma sender_cancelLearn : sender cancelLearn.
Proof. intros d. right. unfold cancelLearn. eauto. Qed.

Lemma sender_enterRFSweep : sender enterRFSweep.
Proof.
  intros d. unfold enterRFSweep. destruct (capabilites_RF d); simpl; [|by left].
  right. eexists _, _. right. eexists. reflexivity.
Qed.

Lemma sender_cancelRFSweep : sender cancelRFSweep.
Proof.
  intros d. unfold cancelRFSweep. destruct (capabilites_RF d); simpl; [|by left].
  right. eauto.
Qed.

Lemma sender_findRFPacket : sender findRFPacket.
Proof.
  intros d. unfold findRFPacket. destruct (capabilites_RF d); simpl; [|by left].
  right. eexists _, _. right. eexists. reflexivity.
Qed.

Lemma sender_checkRFSweep : sender checkRFSweep.
Proof.
  intros d. unfold checkRFSweep. destruct (capabilites_RF d); simpl; [|by left].
  right. eauto.
Qed.

Create HintDb senders.
#[local] Hint Resolve sender_sendPacket sender_authenticate sender_checkData
  sender_sendData sender_enterLearning sender_checkTemperature
  sender_cancelLearn sender_enterRFSweep sender_cancelRFSweep
  sender_findRFPacket sender_checkRFSweep : senders.

(** A sender leaves everything but the counter as it is. *)
Lemma sender_fields f d :
  sender f →
  sweepHandler (f d).1 = sweepHandler d
  ∧ confirmHandler (f d).1 = confirmHandler d
  ∧ listeners (f d).1 = listeners d
  ∧ key (f d).1 = key d ∧ id (f d).1 = id d.
Proof.
  intros Hf. destruct (Hf d) as [->|(command & payload & [->| [line ->]])]; done.
Qed.

Lemma lift_device f w : device (lift f w).1 = (f (device w)).1.
Proof. unfold lift. by destruct (f (device w)). Qed.

Lemma lift_world f w :
  sweepPromises (lift f w).1 = sweepPromises w
  ∧ confirmPromises (lift f w).1 = confirmPromises w
  ∧ timers (lift f w).1 = timers w
  ∧ next_timer (lift f w).1 = next_timer w.
Proof. unfold lift. by destruct (f (device w)). Qed.

Lemma lift_sender_evolves f w :
  sender f → evolves (device w) (device (lift f w).1).
Proof. intros Hf. rewrite lift_device. by apply sender_evolves. Qed.

Lemma run_listener_evolves n w l :
  evolves (device w) (device (run_listener n w l).1).
Proof.
  destruct l as [t p|t p|], n; simpl; try constructor.
Qed.

Lemma emit_fold_evolves n ls w fx :
  evolves (device w)
    (device (call_listeners n ls (w, fx)).1).
Proof.
  unfold call_listeners.
  revert w fx. induction ls as [|l ls IH]; intros w fx; simpl; [constructor|].
  pose proof (run_listener_evolves n w l) as Hl.
  destruct (run_listener n w l) as [w' fx']. simpl in Hl.
  eapply evolves_trans; [exact Hl | apply IH].
Qed.

Lemma emit_evolves n w : evolves (device w) (device (emit n w).1).
Proof. apply emit_fold_evolves. Qed.

Lemma run_callback_evolves cb w :
  evolves (device w) (device (run_callback cb w).1).
Proof.
  destruct cb as [p| |p|]; unfold run_callback.
  - pose proof (lift_device cancelRFSweep w) as Hd.
    pose proof (sender_evolves cancelRFSweep (device w) sender_cancelRFSweep) as He.
    destruct (lift cancelRFSweep w) as [w' fx]. simpl in *. rewrite <- Hd in He.
    eapply evolves_trans; [exact He | constructor].
  - rewrite lift_device. apply sender_evolves; auto with senders.
  - constructor.
  - rewrite lift_device. apply sender_evolves; auto with senders.
Qed.

Lemma timer_fires_evolves t w : evolves (device w) (device (timer_fires t w).1).
Proof.
  unfold timer_fires. destruct (timers w !! t) as [[cb ms]|]; [|constructor].
  apply (run_callback_evolves cb (clearTimeout t w)).
Qed.

Lemma sweepFrequency_evolves w : evolves (device w) (device (sweepFrequency w).1.2).
Proof.
  unfold sweepFrequency. destruct (sweepHandler (device w)); [constructor|].
  simpl.
  match goal with |- context [lift enterRFSweep ?w1] =>
    pose proof (lift_device enterRFSweep w1) as Hd;
    pose proof (sender_evolves enterRFSweep (device w1) sender_enterRFSweep) as He;
    destruct (lift enterRFSweep w1) as [w2 fx] end.
  simpl in *. rewrite <- Hd in He.
  eapply evolves_trans; [apply evolves_on|].
  eapply evolves_trans; [exact He | constructor].
Qed.

Lemma confirmFrequency_evolves w :
  evolves (device w) (device (confirmFrequency w).1.2).
Proof.
  unfold confirmFrequency. destruct (confirmHandler (device w)); [constructor|].
  simpl.
  match goal with |- context [lift findRFPacket ?w1] =>
    pose proof (lift_device findRFPacket w1) as Hd;
    pose proof (sender_evolves findRFPacket (device w1) sender_findRFPacket) as He;
    destruct (lift findRFPacket w1) as [w2 fx] end.
  simpl in *. rewrite <- Hd in He.
  eapply evolves_trans; [apply evolves_on|].
  eapply evolves_trans; [exact He | constructor].
Qed.

(** ** Buffer copies *)

Lemma length_Buffer_copy source target tS sS sE result :
  Buffer_copy source target tS sS sE = Ok result → length result = length target.
Proof.
  unfold Buffer_copy. repeat case_decide; intros [= <-]; [done|].
  rewrite !length_app, !length_take, !length_drop. lia.
Qed.

Lemma Buffer_copy_prefix (source : Buffer) (n sS : nat) :
  (sS + n ≤ length source)%nat → (0 < n)%nat →
  Buffer_copy source (Buffer_alloc (Z.of_nat n)) 0 sS (sS + n)
  = Ok (take n (drop sS source)).
Proof.
  intros Hlen Hn. unfold Buffer_copy.
  rewrite length_Buffer_alloc, Nat2Z.id.
  case_decide; [lia|]. case_decide; [lia|].
  replace ((sS + n - sS) `min` (n - 0))%nat with n by lia.
  rewrite take_0, app_nil_l. f_equal.
  rewrite (drop_ge (Buffer_alloc _)); [by rewrite app_nil_r|].
  rewrite length_Buffer_alloc, length_take, length_drop. lia.
Qed.

Ltac res_simpl := cbn [mbind result_mbind result_bind].

(** Reading back the world of a result that did not throw. *)
Lemma Ok_pair_inv {A B} (r : A * B) a b : Ok r = Ok (a, b) → r.1 = a ∧ r.2 = b.
Proof. by intros [= ->]. Qed.

Ltac ok_world :=
  let Hw := fresh "Hworld" in
  let Hfx := fresh "Heffects" in
  intros [Hw Hfx]%Ok_pair_inv; cbn [fst snd] in Hw, Hfx;
  try rewrite <- Hw; try rewrite <- Hfx.

Lemma onPayloadReceived_evolves err payload w w' fx :
  onPayloadReceived err payload w = Ok (w', fx) → evolves (device w) (device w').
Proof.
  unfold onPayloadReceived, onPayloadReceived_by. simpl.
  destruct (Buffer_alloc_size _) as [data|]; [simpl|done].
  destruct (Buffer_copy_from payload data 0 4) as [data'|]; [simpl|done].
  repeat case_match; simpl;
    repeat (match goal with
            | |- context [Buffer_alloc_size ?x] => destruct (Buffer_alloc_size x); simpl
            | |- context [Buffer_copy_from ?a ?b ?c ?e] =>
                destruct (Buffer_copy_from a b c e); simpl
            end);
    try done; ok_world; try apply emit_evolves; constructor.
Qed.

Lemma onResponse_evolves response w w' fx :
  onResponse response w = Ok (w', fx) → evolves (device w) (device w').
Proof.
  unfold onResponse, onResponse_by. res_simpl.
  destruct (Buffer_alloc_size _) as [e0|]; [res_simpl|done].
  destruct (Buffer_copy_from response e0 0 56) as [e1|]; [res_simpl|done].
  case_match; res_simpl.
  { ok_world. apply emit_evolves. }
  destruct (decipher_update_final _ _ e1) as [payload|]; [res_simpl|done].
  case_match; res_simpl.
  - destruct (Buffer_copy payload (Buffer_alloc 16) 0 4 20) as [k|] eqn:Hk; [res_simpl|done].
    destruct (Buffer_copy payload (Buffer_alloc 4) 0 0 4) as [i|] eqn:Hi; [res_simpl|done].
    ok_world.
    eapply evolves_trans; [|apply emit_evolves]. cbn [device with_device].
    apply evolves_key_id.
    + by rewrite (length_Buffer_copy _ _ _ _ _ _ Hk).
    + by rewrite (length_Buffer_copy _ _ _ _ _ _ Hi).
  - case_match.
    + apply onPayloadReceived_evolves.
    + intros [= <- <-]. constructor.
Qed.

(** *** Deliveries with outside listeners *)

Lemma lift_sender_listeners f w :
  sender f → listeners (device (lift f w).1) = listeners (device w).
Proof.
  intros Hf. rewrite lift_device.
  by destruct (sender_fields f (device w) Hf) as (_ & _ & -> & _).
Qed.

Lemma run_listener_listeners n w l :
  listeners (device (run_listener n w l).1) = listeners (device w).
Proof. by destruct l, n. Qed.

Lemma call_listeners_listeners n ls w fx :
  listeners (device (call_listeners n ls (w, fx)).1) = listeners (device w).
Proof.
  unfold call_listeners.
  revert w fx. induction ls as [|l ls IH]; intros w fx; simpl; [done|].
  pose proof (run_listener_listeners n w l) as Hl.
  destruct (run_listener n w l) as [w' fx']. simpl in Hl.
  by rewrite IH.
Qed.

Lemma emit_listeners n w : listeners (device (emit n w).1) = listeners (device w).
Proof. apply call_listeners_listeners. Qed.

Lemma invoke_listeners m w :
  ∃ new, listeners (device (invoke m w).1) = listeners (device w) ++ new.
Proof.
  destruct m; cbn [invoke];
    try (exists []; rewrite app_nil_r; apply lift_sender_listeners;
         auto with senders).
  - exists []. rewrite app_nil_r. apply emit_listeners.
  - unfold sweepFrequency. destruct (sweepHandler (device w)).
    { exists []. by rewrite app_nil_r. }
    cbn [setTimeout].
    match goal with |- context [lift enterRFSweep ?w1] =>
      pose proof (lift_sender_listeners enterRFSweep w1 sender_enterRFSweep) as Hl;
      destruct (lift enterRFSweep w1) as [w2 fx] end.
    cbn in *. eexists. rewrite Hl. reflexivity.
  - unfold confirmFrequency. destruct (confirmHandler (device w)).
    { exists []. by rewrite app_nil_r. }
    cbn [setTimeout].
    match goal with |- context [lift findRFPacket ?w1] =>
      pose proof (lift_sender_listeners findRFPacket w1 sender_findRFPacket) as Hl;
      destruct (lift findRFPacket w1) as [w2 fx] end.
    cbn in *. eexists. rewrite Hl. reflexivity.
Qed.

Lemma micro_listeners w w' :
  micro w w' → ∃ new, listeners (device w') = listeners (device w) ++ new.
Proof.
  intros [m w0|n l w0 _].
  - apply invoke_listeners.
  - exists []. by rewrite app_nil_r, run_listener_listeners.
Qed.

Lemma rtc_micro_listeners w w' :
  rtc micro w w' → ∃ new, listeners (device w') = listeners (device w) ++ new.
Proof.
  induction 1 as [w|w1 w2 w3 H12 _ [new3 IH]].
  - exists []. by rewrite app_nil_r.
  - destruct (micro_listeners _ _ H12) as [new2 H2].
    exists (new2 ++ new3). by rewrite IH, H2, app_assoc.
Qed.

Lemma invoke_all_micro calls w fx : rtc micro w (invoke_all calls (w, fx)).1.
Proof.
  unfold invoke_all. revert w fx.
  induction calls as [|m calls IH]; intros w fx; [done|].
  cbn [foldl fst snd].
  pose proof (micro_invoke m w) as Hm.
  destruct (invoke m w) as [w1 fx1]. cbn [fst] in Hm.
  eapply rtc_l; [exact Hm|apply IH].
Qed.

Lemma call_listeners_with_micro n ls calls w fx :
  ls ⊆ listeners (device w) →
  rtc micro w (call_listeners_with n ls calls (w, fx)).1.
Proof.
  revert calls w fx. induction ls as [|l ls IH]; intros calls w fx Hsub.
  { apply invoke_all_micro. }
  cbn [call_listeners_with].
  pose proof (invoke_all_micro (hd [] calls) w fx) as Hcalls.
  destruct (invoke_all (hd [] calls) (w, fx)) as [w1 fx1]. cbn [fst snd] in *.
  destruct (rtc_micro_listeners _ _ Hcalls) as [new1 Hl1].
  assert (l ∈ listeners (device w1)) as Hl.
  { rewrite Hl1. apply elem_of_app. left. apply Hsub. by left. }
  pose proof (micro_run n l w1 Hl) as Hrun.
  pose proof (run_listener_listeners n w1 l) as Hl2.
  destruct (run_listener n w1 l) as [w2 fx2]. cbn [fst] in *.
  etrans; [exact Hcalls|]. eapply rtc_l; [exact Hrun|].
  apply IH. intros l' Hin. rewrite Hl2, Hl1. apply elem_of_app. left.
  apply Hsub. by right.
Qed.

Lemma emit_with_micro calls n w : rtc micro w (emit_with calls n w).1.
Proof. unfold emit_with. by apply call_listeners_with_micro. Qed.

(** The listeners of the module alone: [emit] is the delivery during which
    no outside listener calls. *)
Lemma emit_with_nil n w : emit_with [] n w = emit n w.
Proof.
  unfold emit_with, emit, call_listeners.
  generalize (w, [Emitted n]). induction (listeners (device w)) as [|l ls IH];
    intros acc; [done|].
  cbn [call_listeners_with foldl hd tl invoke_all]. destruct acc as [w0 fx0].
  cbn [fst snd]. destruct (run_listener n w0 l) as [w1 fx1]. apply IH.
Qed.

(** What the handler does, whatever delivers the notification. *)
Lemma onPayloadReceived_by_cases deliver err payload w w' fx :
  onPayloadReceived_by deliver err payload w = Ok (w', fx) →
  (w' = w ∧ fx = []) ∨ ∃ n, (w', fx) = deliver n w.
Proof.
  unfold onPayloadReceived_by. simpl.
  destruct (Buffer_alloc_size _) as [data|]; [simpl|done].
  destruct (Buffer_copy_from payload data 0 4) as [data'|]; [simpl|done].
  repeat case_match; simpl;
    repeat (match goal with
            | |- context [Buffer_alloc_size ?x] => destruct (Buffer_alloc_size x); simpl
            | |- context [Buffer_copy_from ?a ?b ?c ?e] =>
                destruct (Buffer_copy_from a b c e); simpl
            end);
    try done; intros [= <-]; eauto.
Qed.

Lemma onResponse_by_cases deliver response w w' fx :
  onResponse_by deliver response w = Ok (w', fx) →
  (w' = w ∧ (fx = [] ∨ ∃ command, fx = [Log (UnknownCommand command)]))
  ∨ (∃ n, (w', fx) = deliver n w)
  ∨ (∃ k i,
       length k = 16%nat ∧ length i = 4%nat
       ∧ byteAt response 0x26 = 0xe9
       ∧ (w', fx) = deliver (EvDeviceReady (set_key_id k i (device w)))
                      (with_device (set_key_id k i (device w)) w)).
Proof.
  unfold onResponse_by. res_simpl.
  destruct (Buffer_alloc_size _) as [e0|]; [res_simpl|done].
  destruct (Buffer_copy_from response e0 0 56) as [e1|]; [res_simpl|done].
  case_match; res_simpl.
  { intros [= <-]. right. left. eauto. }
  destruct (decipher_update_final _ _ e1) as [payload|]; [res_simpl|done].
  destruct (Z.eqb_spec (byteAt response 0x26) 0xe9) as [Hcmd|Hcmd]; res_simpl.
  - destruct (Buffer_copy payload (Buffer_alloc 16) 0 4 20) as [k|] eqn:Hk; [res_simpl|done].
    destruct (Buffer_copy payload (Buffer_alloc 4) 0 0 4) as [i|] eqn:Hi; [res_simpl|done].
    intros [= <-]. right. right. exists k, i.
    split; [by rewrite (length_Buffer_copy _ _ _ _ _ _ Hk)|].
    split; [by rewrite (length_Buffer_copy _ _ _ _ _ _ Hi)|]. done.
  - case_match.
    + intros [[-> ->]|Hn]%onPayloadReceived_by_cases; eauto.
    + intros [= <- <-]. left. eauto.
Qed.

(** A relation between worlds that holds of every call of a public method,
    of every run of a registered listener and of the installation of a key
    holds of every delivery with outside listeners. *)
Lemma emit_with_preserves (R : World → World → Prop) :
  (∀ w, R w w) → (∀ w1 w2 w3, R w1 w2 → R w2 w3 → R w1 w3) →
  (∀ w w', micro w w' → R w w') →
  ∀ calls n w, R w (emit_with calls n w).1.
Proof.
  intros Hrefl Htrans Hmicro calls n w.
  induction (emit_with_micro calls n w) as [w0|w1 w2 w3 H12 _ IH]; eauto.
Qed.

Lemma onResponse_with_preserves (R : World → World → Prop) :
  (∀ w, R w w) → (∀ w1 w2 w3, R w1 w2 → R w2 w3 → R w1 w3) →
  (∀ w w', micro w w' → R w w') →
  (∀ w k i, length k = 16%nat → length i = 4%nat →
            R w (with_device (set_key_id k i (device w)) w)) →
  ∀ calls response w w' fx,
    onResponse_by (emit_with calls) response w = Ok (w', fx) → R w w'.
Proof.
  intros Hrefl Htrans Hmicro Hkey calls response w w' fx
    [[-> _]|[[n Hn]|(k & i & Hk & Hi & _ & Hn)]]%onResponse_by_cases.
  - apply Hrefl.
  - replace w' with (emit_with calls n w).1 by (by rewrite <- Hn).
    by apply emit_with_preserves.
  - match type of Hn with _ = emit_with _ ?n0 ?w0 =>
      replace w' with (emit_with calls n0 w0).1 by (by rewrite <- Hn) end.
    eapply Htrans; [by apply Hkey|]. by apply emit_with_preserves.
Qed.

Lemma step_input_of m w : step (input_of m) w = Ok (invoke m w).
Proof.
  destruct m; cbn [input_of step invoke]; try done.
  - by destruct (sweepFrequency w) as [[p w1] fx1].
  - by destruct (confirmFrequency w) as [[p w1] fx1].
Qed.

Lemma atomic_input_of m : atomic (input_of m).
Proof. by destruct m. Qed.

Lemma micro_evolves w w' : micro w w' → evolves (device w) (device w').
Proof.
  intros [m w0|n l w0 _]; [|apply run_listener_evolves].
  destruct m; cbn [invoke];
    try (apply lift_sender_evolves; auto with senders).
  - apply emit_evolves.
  - pose proof (sweepFrequency_evolves w0) as H.
    by destruct (sweepFrequency w0) as [[p w1] fx1].
  - pose proof (confirmFrequency_evolves w0) as H.
    by destruct (confirmFrequency w0) as [[p w1] fx1].
Qed.

Lemma step_evolves i w w' fx :
  step i w = Ok (w', fx) → evolves (device w) (device w').
Proof.
  destruct i; cbn [step];
    try (ok_world; apply lift_sender_evolves; auto with senders).
  - apply onResponse_evolves.
  - ok_world. apply timer_fires_evolves.
  - ok_world. apply emit_evolves.
  - pose proof (sweepFrequency_evolves w) as H.
    destruct (sweepFrequency w) as [[p w1] fx1]. by intros [= <- <-].
  - pose proof (confirmFrequency_evolves w) as H.
    destruct (confirmFrequency w) as [[p w1] fx1]. by intros [= <- <-].
  - apply (onResponse_with_preserves (fun w w' => evolves (device w) (device w')));
      eauto using evolves_refl, evolves_trans, micro_evolves.
    intros w0 k i Hk Hi. by apply evolves_key_id.
  - ok_world.
    apply (emit_with_preserves (fun w w' => evolves (device w) (device w')));
      eauto using evolves_refl, evolves_trans, micro_evolves.
Qed.

Lemma initial_count_range random : 0 ≤ initial_count random < 0x10000.
Proof. unfold initial_count. rewrite land_ffff. apply Z.mod_pos_bound. lia. Qed.

Lemma new_BroadlinkDevice_wf host mac type random :
  session_wf (new_BroadlinkDevice host mac type random).
Proof.
  unfold session_wf. simpl. split; [apply initial_count_range|done].
Qed.

Lemma reachable_wf w : reachable w → session_wf (device w).
Proof.
  induction 1 as [host mac type random|w _ IH|w i w' fx _ IH Hstep].
  - apply new_BroadlinkDevice_wf.
  - eapply evolves_wf; [|exact IH]. simpl. constructor.
  - eapply evolves_wf; [|exact IH]. by eapply step_evolves.
Qed.
(** ** The sequence counter over the life of a session *)

(** C9: [sendPacket] stores the counter plus one modulo 65536 before it
    builds the packet, which carries the new value at offsets 0x28 and 0x29;
    after n sends the counter is the starting value plus n modulo 65536, so
    after 65536 sends it is the starting value modulo 65536; and in every
    world a session reaches the counter lies in [0, 65535]. *)
Theorem sequence_counter_increments_and_wraps :
  (∀ command payload d,
     ∃ d' packet,
       sendPacket command payload d
         = (d', [Send packet (port (host d)) (address (host d))])
       ∧ count d' = (count d + 1) mod 65536
       ∧ 0 ≤ count d' < 65536
       ∧ packet = command_packet command payload d'
       ∧ byteAt packet 0x28 = Z.land (count d') 0xff
       ∧ byteAt packet 0x29 = Z.shiftr (count d') 8)
  ∧ (∀ sends d,
       sends ≠ [] →
       count (send_all sends d) = (count d + Z.of_nat (length sends)) mod 65536
       ∧ 0 ≤ count (send_all sends d) < 65536)
  ∧ (∀ sends d,
       Z.of_nat (length sends) = 65536 →
       count (send_all sends d) = count d mod 65536)
  ∧ (∀ w, reachable w → 0 ≤ count (device w) < 65536).
Proof.
  split; [|split; [|split]].
  - intros command payload d. eexists _, _. split; [reflexivity|].
    set (d' := set_count _ d).
    assert (Hc : count d' = (count d + 1) mod 65536) by apply land_ffff.
    assert (Hr : 0 ≤ count d' < 65536) by (rewrite Hc; apply Z.mod_pos_bound; lia).
    split; [done|]. split; [done|]. split; [done|].
    destruct (command_packet_split command payload d') as (h & -> & Hh & Hlook).
    destruct (packet_header_counter command d') as [H28 H29].
    split.
    + apply byteAt_lookup; [lia|]. rewrite lookup_app_l by (rewrite Hh; simpl; lia).
      rewrite Hlook by reflexivity. change (Z.to_nat 40) with 40%nat.
      rewrite H28, ToUint8_small; [done|].
      rewrite land_ff. apply Z.mod_pos_bound. lia.
    + apply byteAt_lookup; [lia|]. rewrite lookup_app_l by (rewrite Hh; simpl; lia).
      rewrite Hlook by reflexivity. change (Z.to_nat 41) with 41%nat.
      rewrite H29, ToUint8_small; [done|].
      rewrite Z.shiftr_div_pow2 by lia. change (2 ^ 8) with 256.
      split; [apply Z.div_pos; lia | apply Z.div_lt_upper_bound; lia].
  - intros sends d Hne. rewrite count_send_all. destruct sends; [done|].
    split; [done|]. apply Z.mod_pos_bound. lia.
  - intros sends d Hlen. rewrite count_send_all. destruct sends; [simpl in Hlen; lia|].
    rewrite Hlen. rewrite <- (Z.mul_1_l 65536) at 1. apply Z_mod_plus_full.
  - intros w Hreach. by destruct (reachable_wf w Hreach) as [Hcount _].
Qed.

(** ** The initial value of the sequence counter *)

Lemma truncate_unit_interval q : (0 <= q)%Q → (q < 1)%Q → truncate q = 0.
Proof.
  unfold Qle, Qlt, truncate. simpl. intros H0 H1. apply Z.quot_small. lia.
Qed.

(** C4: the constructor seeds the counter with [Math.random() & 0xffff]; the
    bitwise operator first converts the draw, a number in [0, 1), to a 32-bit
    integer, so the seed is 0 for every draw and no two draws give different
    initial counters. *)
Theorem initial_counter_is_zero_for_every_draw (random : Q) :
  (0 <= random)%Q → (random < 1)%Q →
  initial_count random = 0
  ∧ ∀ host mac type, count (new_BroadlinkDevice host mac type random) = 0.
Proof.
  intros H0 H1.
  assert (initial_count random = 0) as Hzero.
  { unfold initial_count, ToInt32. by rewrite truncate_unit_interval. }
  split; [exact Hzero|]. intros host mac type. exact Hzero.
Qed.

(** ** Capability check of the RF operations *)

(** C8: on a session whose device type is not in the RF-capable table, each
    of [enterRFSweep], [checkRFSweep], [findRFPacket] and [cancelRFSweep]
    returns after logging one line: nothing is sent, and the session, its
    counter included, and the rest of the world are as before. *)
Theorem rf_operations_refused_without_rf_capability (w : World) :
  reachable w →
  rmPlusDeviceTypes !! type (device w) = None →
  (enterRFSweep (device w) = (device w, [Log NoRFCapabilities])
   ∧ checkRFSweep (device w) = (device w, [Log NoRFCapabilities])
   ∧ findRFPacket (device w) = (device w, [Log NoRFCapabilities])
   ∧ cancelRFSweep (device w) = (device w, [Log NoRFCapabilities]))
  ∧ (step CallEnterRFSweep w = Ok (w, [Log NoRFCapabilities])
     ∧ step CallCheckRFSweep w = Ok (w, [Log NoRFCapabilities])
     ∧ step CallFindRFPacket w = Ok (w, [Log NoRFCapabilities])
     ∧ step CallCancelRFSweep w = Ok (w, [Log NoRFCapabilities])).
Proof.
  intros Hreach Htype.
  destruct (reachable_wf w Hreach) as (_ & _ & _ & _ & Hrf & _).
  rewrite Htype in Hrf. rewrite bool_decide_eq_false_2 in Hrf by (by intros []).
  assert (Hops : enterRFSweep (device w) = (device w, [Log NoRFCapabilities])
   ∧ checkRFSweep (device w) = (device w, [Log NoRFCapabilities])
   ∧ findRFPacket (device w) = (device w, [Log NoRFCapabilities])
   ∧ cancelRFSweep (device w) = (device w, [Log NoRFCapabilities])).
  { unfold enterRFSweep, checkRFSweep, findRFPacket, cancelRFSweep.
    by rewrite Hrf. }
  split; [exact Hops|].
  destruct Hops as (H1 & H2 & H3 & H4).
  cbn [step]. unfold lift. rewrite H1, H2, H3, H4, with_device_same. done.
Qed.

(** ** Classification of device types *)

Lemma supported_types_pass_the_filters deviceType :
  is_Some (rmDeviceTypes !! deviceType) ∨ is_Some (rmPlusDeviceTypes !! deviceType) →
  unsupportedDeviceTypes !! deviceType = None
  ∧ ((0x7530 <=? deviceType) && (deviceType <=? 0x7918) = false).
Proof.
  intros [[name H]|[name H]];
    apply elem_of_list_to_map_2 in H;
    repeat (apply elem_of_cons in H as [H|H]; [injection H as -> _; by vm_compute|]);
    by apply elem_of_nil in H.
Qed.

Lemma tables_disjoint deviceType :
  rmDeviceTypes !! deviceType = None ∨ rmPlusDeviceTypes !! deviceType = None.
Proof.
  destruct (rmDeviceTypes !! deviceType) as [name|] eqn:H; [|by left].
  right. apply elem_of_list_to_map_2 in H.
  repeat (apply elem_of_cons in H as [H|H]; [injection H as -> _; by vm_compute|]).
  by apply elem_of_nil in H.
Qed.

Lemma authenticate_sends d :
  ∃ packet,
    authenticate d
    = (set_count (Z.land (count d + 1) 0xffff) d,
       [Send packet (port (host d)) (address (host d))])
    ∧ byteAt packet 0x26 = 0x65
    ∧ (block_sized aes_encrypt_block →
       length (key d) = 16%nat → length (iv d) = 16%nat →
       length packet = 136%nat).
Proof.
  eexists. split; [reflexivity|].
  set (d' := set_count _ d).
  match goal with |- context [command_packet _ ?p _] => set (payload := p) end.
  assert (Hlen : length payload = 80%nat) by (vm_compute; reflexivity).
  destruct (command_packet_split 0x65 payload d') as (h & -> & Hh & Hlook).
  split.
  - apply byteAt_lookup; [lia|].
    rewrite lookup_app_l by (rewrite Hh; simpl; lia).
    by rewrite Hlook by reflexivity.
  - intros Hsized Hkey Hiv.
    rewrite length_app, Hh, length_cipher_update, Hlen by done. done.
Qed.

(** X16: [addDevice] of the session-building variant, for an identity that
    is not registered yet.  A type id of the unsupported table or of the
    range 0x7530 to 0x7918 leaves the registry as it is and reports no device
    found; a type id of one of the two supported tables registers a new
    session under the hex string of the identity, with the RF capability set
    exactly for the types of the RF table and the relay of the ready
    notification as its only listener, and puts out exactly two things: the
    line that reports it found, then the one datagram of its handshake, which
    is what [authenticate] sends on the new session, with command byte 0x65,
    to the port and address of the host, 136 bytes long; the counter of the
    registered session has moved on by that one packet.  Every other type id
    is logged as unknown and ignored. *)
Lemma addDevice_classification host mac deviceType random b :
  devices b !! toString_hex mac = None →
  (is_Some (unsupportedDeviceTypes !! deviceType) ∨ 0x7530 ≤ deviceType ≤ 0x7918 →
     (addDevice host mac deviceType random b).1 = b
     ∧ ∀ model, Log (Found model host) ∉ (addDevice host mac deviceType random b).2)
  ∧ (is_Some (rmDeviceTypes !! deviceType) ∨ is_Some (rmPlusDeviceTypes !! deviceType) →
     ∃ session packet,
       addDevice host mac deviceType random b
         = ({| devices := <[toString_hex mac := session]> (devices b) |},
            [Log (Found (model_of deviceType) host);
             Send packet (port host) (address host)])
       ∧ authenticate (on ReadyRelay (new_BroadlinkDevice host mac deviceType random))
         = (device session, [Send packet (port host) (address host)])
       ∧ byteAt packet 0x26 = 0x65
       ∧ (block_sized aes_encrypt_block → length packet = 136%nat)
       ∧ count (device session) = Z.land (initial_count random + 1) 0xffff
       ∧ listeners (device session) = [ReadyRelay]
       ∧ type (device session) = deviceType
       ∧ capabilites_RF (device session)
         = bool_decide (is_Some (rmPlusDeviceTypes !! deviceType))
       ∧ session
         = (lift authenticate
              (with_device
                 (on ReadyRelay (new_BroadlinkDevice host mac deviceType random))
                 (new_World host mac deviceType random))).1)
  ∧ (rmDeviceTypes !! deviceType = None → rmPlusDeviceTypes !! deviceType = None →
     unsupportedDeviceTypes !! deviceType = None →
     ¬ 0x7530 ≤ deviceType ≤ 0x7918 →
     addDevice host mac deviceType random b
       = (b, [Log (IgnoringUnknown deviceType host)])).
Proof.
  intros Hnew. unfold addDevice. rewrite Hnew. split; [|split].
  - intros [[name ->]|Hrange].
    + split; [done|]. intros model. apply not_elem_of_nil.
    + destruct (unsupportedDeviceTypes !! deviceType).
      { split; [done|]. intros model. apply not_elem_of_nil. }
      replace ((0x7530 <=? deviceType) && (deviceType <=? 0x7918)) with true
        by (symmetry; apply andb_true_intro; split; apply Z.leb_le; lia).
      split; [done|]. intros model [=]%list_elem_of_singleton.
  - intros Hsup. destruct (supported_types_pass_the_filters _ Hsup) as [-> ->].
    rewrite bool_decide_eq_false_2.
    2:{ intros [H1 H2]. rewrite H1, H2 in Hsup. destruct Hsup as [[? [=]]|[? [=]]]. }
    set (d0 := on ReadyRelay (new_BroadlinkDevice host mac deviceType random)).
    set (w0 := with_device d0 (new_World host mac deviceType random)).
    destruct (authenticate_sends d0) as (packet & Hauth & Hbyte & Hlen).
    assert (lift authenticate w0
            = (with_device (set_count (Z.land (count d0 + 1) 0xffff) d0) w0,
               [Send packet (port host) (address host)])) as Hlift.
    { unfold lift. change (device w0) with d0. by rewrite Hauth. }
    change (with_device (on ReadyRelay (device (new_World host mac deviceType random)))
              (new_World host mac deviceType random)) with w0.
    rewrite Hlift.
    exists (with_device (set_count (Z.land (count d0 + 1) 0xffff) d0) w0), packet.
    split; [done|]. split; [done|]. split; [done|].
    split; [intros Hsized; by apply Hlen|].
    split; [done|]. split; [done|]. split; [done|]. split; [|done].
    cbn. apply bool_decide_ext, not_eq_None_Some.
  - intros H1 H2 -> Hrange.
    replace ((0x7530 <=? deviceType) && (deviceType <=? 0x7918)) with false.
    2:{ symmetry. apply andb_false_iff.
        destruct (Z.leb_spec 0x7530 deviceType); [right|by left].
        apply Z.leb_gt. lia. }
    by rewrite bool_decide_eq_true_2.
Qed.

Lemma hex_digit_is_digit n :
  hex_digit n
  ∈ (["0"; "1"; "2"; "3"; "4"; "5"; "6"; "7"; "8"; "9"; "a"; "b"; "c"; "d"; "e"; "f"]%char
       : list ascii).
Proof. unfold hex_digit. repeat case_match; repeat constructor. Qed.

(** No identity written in hexadecimal is a name a plain object inherits. *)
Lemma hex_identity_not_inherited (mac : Buffer) :
  toString_hex mac ∉ IndexTs.Object_prototype.
Proof.
  intros H. unfold IndexTs.Object_prototype in H.
  destruct mac as [|x mac].
  { repeat (apply elem_of_cons in H as [H|H]; [discriminate H|]).
    by apply elem_of_nil in H. }
  cbn [toString_hex foldr] in H.
  repeat (apply elem_of_cons in H as [H|H];
    [injection H as H1 H2 _;
     first
       [ pose proof (hex_digit_is_digit (x / 16)) as Hd; rewrite H1 in Hd;
         repeat (apply elem_of_cons in Hd as [Hd|Hd]; [discriminate Hd|]);
         by apply elem_of_nil in Hd
       | pose proof (hex_digit_is_digit (x mod 16)) as Hd; rewrite H2 in Hd;
         repeat (apply elem_of_cons in Hd as [Hd|Hd]; [discriminate Hd|]);
         by apply elem_of_nil in Hd ]|]).
  by apply elem_of_nil in H.
Qed.

Lemma hex_identity_not_registered (mac : Buffer) :
  IndexTs.registered ∅ (toString_hex mac) = false.
Proof.
  unfold IndexTs.registered.
  rewrite bool_decide_eq_false_2 by apply hex_identity_not_inherited.
  rewrite lookup_empty. by rewrite bool_decide_eq_false_2 by (by intros [? [=]]).
Qed.

(** C1: [addDevice] of [src/index.ts] ignores every type id.  Its last test
    is a disjunction ("absent from either supported table"), and no id is in
    both tables: called with the identity of a reply (a hex string) and the
    supported ids 0x2737 and 0x272a it logs "unknown device type", and for no
    string and no id does it reach the line that accepts a device; for a
    name the registry object inherits it returns without a line. *)
Theorem index_ts_addDevice_ignores_supported_types :
  (∀ host (mac : Buffer),
     IndexTs.addDevice ∅ host (toString_hex mac) 0x2737
     = [Log (IgnoringUnknown 0x2737 host)])
  ∧ (∀ host (mac : Buffer),
       IndexTs.addDevice ∅ host (toString_hex mac) 0x272a
       = [Log (IgnoringUnknown 0x272a host)])
  ∧ (∀ devices host macAddress deviceType,
       IndexTs.addDevice devices host macAddress deviceType = []
       ∨ (∃ name, IndexTs.addDevice devices host macAddress deviceType
                  = [Log (IgnoringUnsupportedNamed name host)])
       ∨ IndexTs.addDevice devices host macAddress deviceType
         = [Log (IgnoringUnsupported deviceType host)]
       ∨ IndexTs.addDevice devices host macAddress deviceType
         = [Log (IgnoringUnknown deviceType host)])
  ∧ (∀ devices host macAddress deviceType,
       macAddress ∈ IndexTs.Object_prototype →
       IndexTs.addDevice devices host macAddress deviceType = []).
Proof.
  split; [|split; [|split]].
  - intros host mac. unfold IndexTs.addDevice.
    by rewrite hex_identity_not_registered.
  - intros host mac. unfold IndexTs.addDevice.
    by rewrite hex_identity_not_registered.
  - intros devices host macAddress deviceType. unfold IndexTs.addDevice.
    destruct (IndexTs.registered devices macAddress); [by left|].
    destruct (unsupportedDeviceTypes !! deviceType) as [name|]; [right; left; eauto|].
    destruct ((0x7530 <=? deviceType) && (deviceType <=? 0x7918)); [by right; right; left|].
    rewrite bool_decide_eq_true_2 by apply tables_disjoint. by right; right; right.
  - intros devices host macAddress deviceType Hin.
    unfold IndexTs.addDevice, IndexTs.registered.
    by rewrite bool_decide_eq_true_2.
Qed.

(** ** Handshake reply *)

Lemma Buffer_copy_from_tail (source : Buffer) (n : nat) :
  (n ≤ length source)%nat →
  Buffer_copy_from source (Buffer_alloc (Z.of_nat (length source) - Z.of_nat n)) 0 n
  = Ok (drop n source).
Proof.
  intros Hn. unfold Buffer_copy_from, Buffer_copy.
  rewrite length_Buffer_alloc.
  case_decide; [lia|]. case_decide as Hempty.
  - f_equal. rewrite drop_ge by lia.
    replace (Z.of_nat (length source) - Z.of_nat n) with 0 by lia. done.
  - replace ((length source - n) `min` (Z.to_nat (Z.of_nat (length source) - Z.of_nat n) - 0))%nat
      with (length source - n)%nat by lia.
    rewrite take_0, app_nil_l. f_equal.
    rewrite take_ge by (rewrite length_drop; lia).
    rewrite (drop_ge (Buffer_alloc _)); [by rewrite app_nil_r|].
    rewrite length_Buffer_alloc, length_drop. lia.
Qed.

Lemma emit_fold_passive n ls w fx0 :
  passive n →
  ∃ fx, call_listeners n ls (w, fx0) = (w, fx0 ++ fx).
Proof.
  intros Hn. unfold call_listeners.
  revert fx0. induction ls as [|l ls IH]; intros fx0.
  - exists []. by rewrite app_nil_r.
  - cbn [foldl fst snd].
    assert (∃ fx, run_listener n w l = (w, fx)) as [fx ->].
    { destruct l, n; simpl in *; try done; eauto. }
    destruct (IH (fx0 ++ fx)) as [fx' ->]. exists (fx ++ fx').
    by rewrite app_assoc.
Qed.

Lemma emit_passive n w :
  passive n → ∃ fx, emit n w = (w, Emitted n :: fx).
Proof.
  intros Hn. unfold emit.
  destruct (emit_fold_passive n (listeners (device w)) w [Emitted n] Hn) as [fx ->].
  by exists fx.
Qed.

Lemma emit_fold_ready d ls w fx0 :
  call_listeners (EvDeviceReady d) ls (w, fx0)
  = (w, fx0 ++ omap (fun l => if l is ReadyRelay
                              then Some (EngineDeviceReady (device w)) else None) ls).
Proof.
  unfold call_listeners. revert fx0.
  induction ls as [|l ls IH]; intros fx0; [by rewrite app_nil_r|].
  cbn [foldl fst snd]. destruct l as [t p|t p|]; cbn [run_listener omap list_omap].
  - rewrite app_nil_r. apply IH.
  - rewrite app_nil_r. apply IH.
  - rewrite IH. by rewrite <- app_assoc.
Qed.

Lemma emit_ready d w :
  emit (EvDeviceReady d) w = (w, Emitted (EvDeviceReady d) :: ready_relays w).
Proof. unfold emit. by rewrite emit_fold_ready. Qed.

Lemma handshake_reply_by (deliver : notification → World → World * list effect)
    (w : World) (response payload : Buffer) :
  (0x38 ≤ length response)%nat →
  Z.lor (byteAt response 0x22) (Z.shiftl (byteAt response 0x23) 8) = 0 →
  byteAt response 0x26 = 0xe9 →
  decipher_update_final (key (device w)) (iv (device w)) (drop 0x38 response)
    = Ok payload →
  (0x14 ≤ length payload)%nat →
  onResponse_by deliver response w
  = Ok (deliver
          (EvDeviceReady
             (set_key_id (take 16 (drop 4 payload)) (take 4 payload) (device w)))
          (with_device
             (set_key_id (take 16 (drop 4 payload)) (take 4 payload) (device w)) w)).
Proof.
  intros Hlen Herr Hcommand Hpayload Hlong.
  unfold onResponse_by.
  assert (Buffer_alloc_size (Z.of_nat (length response) - 0x38)
          = Ok (Buffer_alloc (Z.of_nat (length response) - Z.of_nat 0x38))) as ->.
  { unfold Buffer_alloc_size. destruct (Z.ltb_spec (Z.of_nat (length response) - 56) 0); [lia|done]. }
  res_simpl. rewrite Buffer_copy_from_tail by done. res_simpl.
  rewrite Herr. cbn [Z.eqb negb]. rewrite Hpayload. res_simpl.
  rewrite Hcommand. cbn [Z.eqb Pos.eqb].
  assert (Buffer_copy payload (Buffer_alloc 0x10) 0 0x04 0x14
          = Ok (take 16 (drop 4 payload))) as ->
    by (apply (Buffer_copy_prefix payload 16 4); lia).
  assert (Buffer_copy payload (Buffer_alloc 0x04) 0 0x00 0x04
          = Ok (take 4 (drop 0 payload))) as ->
    by (apply (Buffer_copy_prefix payload 4 0); lia).
  res_simpl. by rewrite drop_0.
Qed.

(** C2, amended: a reply with error code 0 and command byte 0xe9 whose
    decrypted payload has at least 20 bytes replaces the key by the 16
    contiguous payload bytes at offsets 4 to 19 (not 14 of them) and the
    session id by the 4 payload bytes at offset 0, and then emits the ready
    notification: however the notification is delivered, it is delivered in
    the world in which the session already has the new key and session id,
    and it passes that session to the listeners, as does every relay of the
    engine; the key field is 16 bytes long. *)
Theorem handshake_reply_installs_key_and_session_id
    (w : World) (response payload : Buffer) :
  (0x38 ≤ length response)%nat →
  Z.lor (byteAt response 0x22) (Z.shiftl (byteAt response 0x23) 8) = 0 →
  byteAt response 0x26 = 0xe9 →
  decipher_update_final (key (device w)) (iv (device w)) (drop 0x38 response)
    = Ok payload →
  (0x14 ≤ length payload)%nat →
  ∃ w',
    onResponse response w
    = Ok (w', Emitted (EvDeviceReady (device w')) :: ready_relays w')
    ∧ (∀ deliver : notification → World → World * list effect,
         onResponse_by deliver response w
         = Ok (deliver (EvDeviceReady (device w')) w'))
    ∧ w' = with_device
             (set_key_id (take 16 (drop 4 payload)) (take 4 payload) (device w)) w
    ∧ key (device w') = take 16 (drop 4 payload)
    ∧ length (key (device w')) = 16%nat
    ∧ id (device w') = take 4 payload
    ∧ Forall (fun e => e = EngineDeviceReady (device w')) (ready_relays w').
Proof.
  intros Hlen Herr Hcommand Hpayload Hlong.
  eexists. split; [|split; [|split; [reflexivity|]]].
  - unfold onResponse. rewrite (handshake_reply_by emit w response payload) by done.
    by rewrite emit_ready.
  - intros deliver. by apply handshake_reply_by.
  - split; [done|]. split; [|split; [done|]].
    + cbn. rewrite length_take, length_drop. lia.
    + unfold ready_relays. apply Forall_forall. intros e Hin.
      apply list_elem_of_omap in Hin as (l & _ & Hl). destruct l; try done.
      by injection Hl as <-.
Qed.
(** ** The registry of sessions *)

Lemma run_app inputs1 inputs2 w w1 fx1 w2 fx2 :
  run inputs1 w = Ok (w1, fx1) → run inputs2 w1 = Ok (w2, fx2) →
  run (inputs1 ++ inputs2) w = Ok (w2, fx1 ++ fx2).
Proof.
  revert w fx1. induction inputs1 as [|i inputs1 IH]; intros w fx1.
  - intros [= -> <-] H2. simpl. by rewrite H2.
  - cbn [run app]. destruct (step i w) as [[wa fxa]|]; [res_simpl|done].
    destruct (run inputs1 wa) as [[wb fxb]|] eqn:Hb; [res_simpl|done].
    intros [= -> <-] H2. rewrite (IH _ _ Hb H2). res_simpl.
    by rewrite app_assoc.
Qed.

(** What [onMessage] does to the registry, by whether the identity of the
    reply is registered. *)
Lemma onMessage_registry message host random b b1 fx mac :
  macAddressBuffer message = Ok mac →
  onMessage message host random b = Ok (b1, fx) →
  (is_Some (devices b !! toString_hex mac) ∧ b1 = b ∧ fx = [])
  ∨ (devices b !! toString_hex mac = None
     ∧ (b1 = b
        ∨ ∃ session, devices b1 = <[toString_hex mac := session]> (devices b))).
Proof.
  intros Hmac. unfold onMessage. rewrite Hmac. res_simpl.
  destruct (devices b !! toString_hex mac) as [session|] eqn:Hknown.
  - intros [= <- <-]. left. eauto.
  - destruct (addDevice _ _ _ _ b) as [b2 fx2] eqn:Hadd. intros [= <- <-].
    right. split; [done|].
    revert Hadd. unfold addDevice. rewrite Hknown.
    repeat case_match; intros [= <- <-]; try (by left).
    right. eauto.
Qed.

Lemma engine_step_keeps_sessions e b b1 fx k session :
  engine_step e b = Ok (b1, fx) →
  devices b !! k = Some session →
  ∃ session' inputs fx',
    devices b1 !! k = Some session' ∧ run inputs session = Ok (session', fx').
Proof.
  destruct e as [message host random|k' i]; cbn [engine_step]; intros Hstep Hk.
  - destruct (macAddressBuffer message) as [mac|] eqn:Hmac.
    2:{ unfold onMessage in Hstep. by rewrite Hmac in Hstep. }
    exists session, [], [].
    destruct (onMessage_registry _ _ _ _ _ _ _ Hmac Hstep)
      as [(_ & -> & _)|(Hnew & [->|[new Hnewmap]])]; try done.
    rewrite Hnewmap. split; [|done].
    rewrite lookup_insert_ne; [done|]. intros <-. by rewrite Hk in Hnew.
  - destruct (devices b !! k') as [w|] eqn:Hk'.
    2:{ injection Hstep as <- <-. by exists session, [], []. }
    destruct (step i w) as [[w' fx']|] eqn:Hi; [|done].
    revert Hstep. res_simpl. intros [= <- <-]. cbn [devices].
    destruct (decide (k' = k)) as [->|Hne].
    + rewrite Hk in Hk'. injection Hk' as <-.
      exists w', [i], (fx' ++ []). rewrite lookup_insert_eq. split; [done|].
      cbn [run]. rewrite Hi. by res_simpl.
    + exists session, [], []. by rewrite lookup_insert_ne.
Qed.

Lemma engine_run_keeps_sessions es b b' fx k session :
  engine_run es b = Ok (b', fx) →
  devices b !! k = Some session →
  ∃ session' inputs fx',
    devices b' !! k = Some session' ∧ run inputs session = Ok (session', fx').
Proof.
  revert b fx session. induction es as [|e es IH]; intros b fx session.
  - intros [= <- <-] Hk. by exists session, [], [].
  - cbn [engine_run]. destruct (engine_step e b) as [[b1 fx1]|] eqn:He; [res_simpl|done].
    destruct (engine_run es b1) as [[b2 fx2]|] eqn:Hes; [res_simpl|done].
    intros [= <- <-] Hk.
    destruct (engine_step_keeps_sessions _ _ _ _ _ _ He Hk)
      as (s1 & in1 & f1 & Hk1 & Hrun1).
    destruct (IH _ _ _ Hes Hk1) as (s2 & in2 & f2 & Hk2 & Hrun2).
    exists s2, (in1 ++ in2), (f1 ++ f2). split; [done|].
    by apply (run_app _ _ _ _ _ _ _ Hrun1 Hrun2).
Qed.

(** C6: when a discovery reply is accepted, a later reply with the same
    identity bytes is dropped before its type is read: the registry is left
    as it is and nothing is logged or sent, so the two replies create exactly
    one session.  Along any run of the engine a registered identity keeps its
    session: the entry is never replaced by a new session, it only evolves by
    the inputs that session receives. *)
Theorem same_identity_creates_one_session :
  (∀ b message1 host1 random1 message2 host2 random2 b1 fx1 mac,
     macAddressBuffer message1 = Ok mac →
     macAddressBuffer message2 = Ok mac →
     devices b !! toString_hex mac = None →
     onMessage message1 host1 random1 b = Ok (b1, fx1) →
     is_Some (devices b1 !! toString_hex mac) →
     onMessage message2 host2 random2 b1 = Ok (b1, [])
     ∧ engine_run [Reply message1 host1 random1; Reply message2 host2 random2] b
       = Ok (b1, fx1)
     ∧ dom (devices b1) = {[toString_hex mac]} ∪ dom (devices b)
     ∧ size (devices b1) = S (size (devices b)))
  ∧ (∀ es b b' fx k session,
       engine_run es b = Ok (b', fx) →
       devices b !! k = Some session →
       ∃ session' inputs fx',
         devices b' !! k = Some session'
         ∧ run inputs session = Ok (session', fx')).
Proof.
  split; [|apply engine_run_keeps_sessions].
  intros b message1 host1 random1 message2 host2 random2 b1 fx1 mac
    Hmac1 Hmac2 Hnew Hfirst [session Haccepted].
  assert (onMessage message2 host2 random2 b1 = Ok (b1, [])) as Hsecond.
  { unfold onMessage. rewrite Hmac2. res_simpl. by rewrite Haccepted. }
  split; [exact Hsecond|]. split.
  { cbn [engine_run engine_step]. rewrite Hfirst. res_simpl.
    rewrite Hsecond. res_simpl. by rewrite !app_nil_r. }
  destruct (onMessage_registry _ _ _ _ _ _ _ Hmac1 Hfirst)
    as [([? Hk] & _)|(_ & [->|[new Hmap]])].
  - by rewrite Hnew in Hk.
  - by rewrite Hnew in Haccepted.
  - rewrite Hmap. split; [apply dom_insert_L|]. by apply map_size_insert_None.
Qed.
(** ** One learning sequence *)

Section machine.
Context {A : Type}.
Implicit Types (v : view A) (ps : list (settlement A)) (outcome : settlement A).

Lemma length_settle p outcome ps : length (settle p outcome ps) = length ps.
Proof.
  unfold settle. destruct (ps !! p) as [[| |]|]; [|done..]. apply length_insert.
Qed.

Lemma settle_pending p outcome ps :
  ps !! p = Some Pending → settle p outcome ps !! p = Some outcome.
Proof.
  intros Hp. unfold settle. rewrite Hp. apply list_lookup_insert_eq.
  by eapply lookup_lt_Some.
Qed.

Lemma settle_other p q outcome ps : q ≠ p → settle p outcome ps !! q = ps !! q.
Proof.
  intros Hq. unfold settle. destruct (ps !! p) as [[| |]|]; [|done..].
  by apply list_lookup_insert_ne.
Qed.

Lemma settle_settled p outcome ps :
  ps !! p ≠ Some Pending → settle p outcome ps = ps.
Proof. unfold settle. by destruct (ps !! p) as [[| |]|]. Qed.

(** A settled promise keeps its outcome. *)
Lemma settle_stable p q outcome ps s :
  ps !! q = Some s → s ≠ Pending → settle p outcome ps !! q = Some s.
Proof.
  intros Hq Hs. destruct (decide (q = p)) as [->|Hne].
  - rewrite settle_settled; [done|]. rewrite Hq. by intros [= ->].
  - by rewrite settle_other.
Qed.

Lemma settle_pending_inv p q outcome ps :
  outcome ≠ Pending →
  settle p outcome ps !! q = Some Pending → ps !! q = Some Pending ∧ q ≠ p.
Proof.
  intros Hout Hq. destruct (decide (q = p)) as [->|Hne].
  - destruct (ps !! p) as [[| |]|] eqn:Hp.
    + rewrite settle_pending in Hq by done. by injection Hq as ->.
    + rewrite settle_settled in Hq by (by rewrite Hp). congruence.
    + rewrite settle_settled in Hq by (by rewrite Hp). congruence.
    + rewrite settle_settled in Hq by (by rewrite Hp). congruence.
  - by rewrite settle_other in Hq.
Qed.

Lemma length_settle_all outcome targets ps :
  length (settle_all outcome targets ps) = length ps.
Proof.
  unfold settle_all. revert ps.
  induction targets as [|[t p] targets IH]; intros ps; [done|].
  cbn [foldl]. by rewrite IH, length_settle.
Qed.

Lemma settle_all_stable outcome targets ps q s :
  ps !! q = Some s → s ≠ Pending → settle_all outcome targets ps !! q = Some s.
Proof.
  unfold settle_all. revert ps.
  induction targets as [|[t p] targets IH]; intros ps Hq Hs; [done|].
  cbn [foldl]. apply IH; [|done]. by apply settle_stable.
Qed.

Lemma settle_all_settles outcome targets ps q :
  outcome ≠ Pending →
  ps !! q = Some Pending → q ∈ targets.*2 →
  settle_all outcome targets ps !! q = Some outcome.
Proof.
  intros Hout. unfold settle_all. revert ps.
  induction targets as [|[t p] targets IH]; intros ps Hq Hin.
  { by apply elem_of_nil in Hin. }
  cbn [foldl]. destruct (decide (q = p)) as [->|Hne].
  - apply (settle_all_stable outcome targets); [|done]. by apply settle_pending.
  - apply IH; [by rewrite settle_other|].
    cbn in Hin. apply elem_of_cons in Hin as [?|?]; done.
Qed.

Lemma settle_all_pending_inv outcome targets ps q :
  outcome ≠ Pending →
  settle_all outcome targets ps !! q = Some Pending →
  ps !! q = Some Pending ∧ q ∉ targets.*2.
Proof.
  intros Hout. unfold settle_all. revert ps.
  induction targets as [|[t p] targets IH]; intros ps Hq.
  { split; [done|]. apply not_elem_of_nil. }
  cbn [foldl] in Hq. apply IH in Hq as [Hq Hnotin].
  apply settle_pending_inv in Hq as [Hq Hne]; [|done].
  split; [done|]. cbn. by apply not_elem_of_cons.
Qed.

Lemma target_promise (t p : nat) (targets : list (nat * nat)) :
  (t, p) ∈ targets → p ∈ targets.*2.
Proof. intros Hin. apply list_elem_of_fmap. by exists (t, p). Qed.

Lemma target_timer (t p : nat) (targets : list (nat * nat)) :
  (t, p) ∈ targets → t ∈ targets.*1.
Proof. intros Hin. apply list_elem_of_fmap. by exists (t, p). Qed.

Lemma inv_frame v v' : machine_inv v → v_frame v v' → machine_inv v'.
Proof.
  intros [I1 I3 I4 I5 I6] (Hh & Hp & Ht & Hto).
  split; rewrite ?Hh, ?Hp, ?Ht; eauto.
Qed.

Lemma inv_notified outcome v v' :
  outcome ≠ Pending → machine_inv v → v_notified outcome v v' → machine_inv v'.
Proof.
  intros Hout [I1 I3 I4 I5 I6] (Ht & Hh & Hp & Hto).
  split.
  - intros p Hhp. rewrite Hh in Hhp. destruct (v_targets v) eqn:Htargets; [|done].
    rewrite Hp. by apply I1.
  - intros t p Hto'. apply Hto in Hto' as [Hto' Hnotin].
    destruct (I5 p (I3 t p Hto')) as [t0 Hin].
    rewrite (I4 t0 t p Hin Hto') in Hnotin. by destruct Hnotin; apply (target_timer _ p).
  - intros t t' p Hin Hto'. rewrite Ht in Hin. apply Hto in Hto' as [Hto' _]. eauto.
  - intros p Hpend. rewrite Hp in Hpend.
    apply settle_all_pending_inv in Hpend as [Hpend _]; [|done].
    rewrite Ht. eauto.
  - intros t p Hin. rewrite Ht in Hin. rewrite Hp, length_settle_all. eauto.
Qed.

Lemma inv_timed_out t p outcome v v' :
  outcome ≠ Pending → machine_inv v → v_timed_out t p outcome v v' → machine_inv v'.
Proof.
  intros Hout [I1 I3 I4 I5 I6] (Hset & Ht & Hh & Hp & Hto).
  split.
  - intros q Hq. congruence.
  - intros t' q Hto'. apply Hto in Hto' as [Hto' Hne].
    rewrite Hp. destruct (decide (q = p)) as [->|Hqp].
    + destruct (I5 p (I3 t p Hset)) as [t0 Hin].
      rewrite (I4 t0 t' p Hin Hto'), (I4 t0 t p Hin Hset) in Hne. done.
    + rewrite settle_other by done. eauto.
  - intros t0 t' q Hin Hto'. rewrite Ht in Hin. apply Hto in Hto' as [Hto' _]. eauto.
  - intros q Hpend. rewrite Hp in Hpend.
    apply settle_pending_inv in Hpend as [Hpend _]; [|done]. rewrite Ht. eauto.
  - intros t0 q Hin. rewrite Ht in Hin. rewrite Hp, length_settle. eauto.
Qed.

Lemma inv_run t p outcome v v' :
  outcome ≠ Pending → machine_inv v → v_run t p outcome v v' → machine_inv v'.
Proof.
  intros Hout [I1 I3 I4 I5 I6] (Htarget & Ht & Hh & Hp & Hto).
  split.
  - intros q Hq. congruence.
  - intros t' q Hto'. apply Hto in Hto' as [Hto' Hne].
    rewrite Hp. destruct (decide (q = p)) as [->|Hqp].
    + by destruct Hne; apply (I4 t t' p).
    + rewrite settle_other by done. eauto.
  - intros t0 t' q Hin Hto'. rewrite Ht in Hin. apply Hto in Hto' as [Hto' _]. eauto.
  - intros q Hpend. rewrite Hp in Hpend.
    apply settle_pending_inv in Hpend as [Hpend _]; [|done]. rewrite Ht. eauto.
  - intros t0 q Hin. rewrite Ht in Hin. rewrite Hp, length_settle. eauto.
Qed.

Lemma inv_invoked t v v' : machine_inv v → v_invoked t v v' → machine_inv v'.
Proof.
  intros [I1 I3 I4 I5 I6] (Hidle & Hh & Hp & Ht & Hto).
  assert (Hlast : v_promises v' !! length (v_promises v) = Some Pending).
  { rewrite Hp. apply list_lookup_middle. done. }
  assert (Hold : ∀ q, v_promises v !! q = Some Pending →
                      v_promises v' !! q = Some Pending).
  { intros q Hq. rewrite Hp. by apply lookup_app_l_Some. }
  split.
  - intros q Hq. rewrite Hh in Hq. by injection Hq as <-.
  - intros t' q Hto'. destruct (Hto t' q Hto') as [[_ ->]|Hthere]; eauto.
  - intros t0 t' q Hin Hto'. rewrite Ht in Hin.
    apply elem_of_app in Hin as [Hin|Hin].
    + destruct (Hto t' q Hto') as [[_ ->]|Hthere]; [|eauto].
      apply I6 in Hin. lia.
    + apply list_elem_of_singleton in Hin. injection Hin as -> ->.
      destruct (Hto t' _ Hto') as [[-> _]|Hthere]; [done|].
      apply I3, lookup_lt_Some in Hthere. lia.
  - intros q Hpend. rewrite Hp in Hpend. rewrite Ht.
    destruct (decide (q < length (v_promises v))%nat) as [Hlt|Hge].
    + rewrite lookup_app_l in Hpend by done. destruct (I5 q Hpend) as [t0 Hin].
      exists t0. apply elem_of_app. by left.
    + apply lookup_lt_Some in Hpend as Hlen. rewrite length_app in Hlen.
      simpl in Hlen. replace q with (length (v_promises v)) by lia.
      exists t. apply elem_of_app. right. by apply list_elem_of_singleton.
  - intros t0 q Hin. rewrite Ht in Hin. rewrite Hp, length_app. simpl.
    apply elem_of_app in Hin as [Hin|Hin].
    + apply I6 in Hin. lia.
    + apply list_elem_of_singleton in Hin. injection Hin as -> ->. lia.
Qed.

Lemma inv_step v v' : machine_inv v → v_step v v' → machine_inv v'.
Proof.
  intros Hinv [Hf|outcome Hout Hn|t p outcome Hout Ht|t Hi].
  - by eapply inv_frame.
  - by eapply inv_notified.
  - by eapply inv_timed_out.
  - by eapply inv_invoked.
Qed.

Lemma inv_steps v v' : v_steps v v' → machine_inv v → machine_inv v'.
Proof.
  induction 1 as [v v' Hstep|t p outcome v v' Hout Hrun|v1 v2 v3 _ IH1 _ IH2];
    intros Hinv.
  - by eapply inv_step.
  - by eapply inv_run.
  - eauto.
Qed.


(** A settled promise keeps its outcome through every step, and the
    promises created so far stay. *)
Lemma v_step_stable v v' q s :
  v_step v v' → v_promises v !! q = Some s → s ≠ Pending →
  v_promises v' !! q = Some s.
Proof.
  intros [(_ & Hp & _)|outcome _ (_ & _ & Hp & _)|t p outcome _ (_ & _ & _ & Hp & _)
         |t (_ & _ & Hp & _)] Hq Hs; rewrite Hp.
  - done.
  - by apply settle_all_stable.
  - by apply settle_stable.
  - apply lookup_app_l_Some. done.
Qed.

Lemma v_step_targets v v' tp :
  v_step v v' → tp ∈ v_targets v → tp ∈ v_targets v'.
Proof.
  intros [(_ & _ & Ht & _)|outcome _ (Ht & _)|t p outcome _ (_ & Ht & _)
         |t (_ & _ & _ & Ht & _)] Hin; rewrite Ht; [done..|].
  apply elem_of_app. by left.
Qed.

Lemma v_steps_stable v v' q s :
  v_steps v v' → v_promises v !! q = Some s → s ≠ Pending →
  v_promises v' !! q = Some s.
Proof.
  induction 1 as [v v' Hstep|t p outcome v v' Hout (_ & _ & _ & Hp & _)
                 |v1 v2 v3 _ IH1 _ IH2]; intros Hq Hs.
  - by eapply v_step_stable.
  - rewrite Hp. by apply settle_stable.
  - eauto.
Qed.

Lemma v_steps_targets v v' tp :
  v_steps v v' → tp ∈ v_targets v → tp ∈ v_targets v'.
Proof.
  induction 1 as [v v' Hstep|t p outcome v v' Hout (_ & Ht & _)
                 |v1 v2 v3 _ IH1 _ IH2]; intros Hin.
  - by eapply v_step_targets.
  - by rewrite Ht.
  - eauto.
Qed.

Lemma v_steps_refl v : v_steps v v.
Proof. apply vs_step, vs_frame. by repeat split. Qed.

End machine.
(** ** The two sequences of a session *)

Lemma rf_frame_refl w : rf_frame w w.
Proof. by repeat split. Qed.

Lemma rf_frame_views w w' :
  rf_frame w w' →
  v_frame (sweep_view w) (sweep_view w') ∧ v_frame (confirm_view w) (confirm_view w').
Proof.
  intros (Hs & Hc & Hl & Hsp & Hcp & Ht).
  split; (split; [done|split; [done|split; [cbn; by rewrite Hl|]]]);
    intros t p; cbn;
    destruct (timers w' !! t) as [[[] ms]|] eqn:Hlook; try done;
    by rewrite (Ht _ _ Hlook).
Qed.

Lemma rf_frame_step w w' :
  rf_frame w w' →
  v_step (sweep_view w) (sweep_view w') ∧ v_step (confirm_view w) (confirm_view w').
Proof. intros [H1 H2]%rf_frame_views. split; by apply vs_frame. Qed.

Lemma rf_frame_lift f w : sender f → rf_frame w (lift f w).1.
Proof.
  intros Hf. destruct (sender_fields f (device w) Hf) as (Hs & Hc & Hl & _).
  destruct (lift_world f w) as (Hsp & Hcp & Ht & _).
  unfold rf_frame. rewrite lift_device, Hs, Hc, Hl, Hsp, Hcp, Ht. by repeat split.
Qed.

Lemma rf_frame_clear t w w' : rf_frame (clearTimeout t w) w' → rf_frame w w'.
Proof.
  intros (Hs & Hc & Hl & Hsp & Hcp & Ht). repeat split; try done.
  intros t' x Hlook. apply Ht in Hlook. cbn in Hlook.
  by apply lookup_delete_Some in Hlook as [_ ?].
Qed.

(** *** Notifications *)

Lemma call_listeners_sweep success ls w fx0 :
  let outcome : settlement () :=
    if negb success then Rejected "The RF sweep was not successful"
    else Fulfilled () in
  let w' := (call_listeners (EvSweep success) ls (w, fx0)).1 in
  listeners (device w') = listeners (device w)
  ∧ confirmHandler (device w') = confirmHandler (device w)
  ∧ confirmPromises w' = confirmPromises w
  ∧ sweepHandler (device w')
    = (if omap sweep_target ls is [] then sweepHandler (device w) else None)
  ∧ sweepPromises w' = settle_all outcome (omap sweep_target ls) (sweepPromises w)
  ∧ (∀ t, t ∈ (omap sweep_target ls).*1 → timers w' !! t = None)
  ∧ (∀ t, t ∉ (omap sweep_target ls).*1 → timers w' !! t = timers w !! t)
  ∧ next_timer w' = next_timer w.
Proof.
  intros outcome. unfold call_listeners. revert w fx0.
  induction ls as [|l ls IH]; intros w fx0.
  { cbn. repeat split; try done. intros t Hin. by apply elem_of_nil in Hin. }
  destruct l as [t p|t p|]; cbn [foldl run_listener fst snd]; try apply IH.
  match goal with |- context [foldl _ (?w1, ?fx1) ls] =>
    destruct (IH w1 fx1) as (Hl & Hc & Hcp & Hs & Hsp & Hin & Hout & Hnext);
    set (w0 := w1) in * end.
  cbn [omap list_omap sweep_target].
  split; [by rewrite Hl|]. split; [by rewrite Hc|]. split; [by rewrite Hcp|]. split.
  { rewrite Hs. by destruct (omap sweep_target ls). }
  split; [by rewrite Hsp|]. split.
  - intros t' Ht'. cbn in Ht'.
    destruct (decide (t' ∈ (omap sweep_target ls).*1)) as [?|Hnot]; [by apply Hin|].
    apply elem_of_cons in Ht' as [->|?]; [|done].
    rewrite Hout by done. apply (lookup_delete_eq (timers w)).
  - split; [|by rewrite Hnext].
    intros t' Ht'. cbn in Ht'. apply not_elem_of_cons in Ht' as [Hne Hnot].
    rewrite Hout by done. by apply (lookup_delete_ne (timers w)).
Qed.

Lemma call_listeners_data buf ls w fx0 :
  let w' := (call_listeners (EvData buf) ls (w, fx0)).1 in
  listeners (device w') = listeners (device w)
  ∧ sweepHandler (device w') = sweepHandler (device w)
  ∧ sweepPromises w' = sweepPromises w
  ∧ confirmHandler (device w')
    = (if omap confirm_target ls is [] then confirmHandler (device w) else None)
  ∧ confirmPromises w'
    = settle_all (Fulfilled buf) (omap confirm_target ls) (confirmPromises w)
  ∧ (∀ t, t ∈ (omap confirm_target ls).*1 → timers w' !! t = None)
  ∧ (∀ t, t ∉ (omap confirm_target ls).*1 → timers w' !! t = timers w !! t)
  ∧ next_timer w' = next_timer w.
Proof.
  unfold call_listeners. revert w fx0.
  induction ls as [|l ls IH]; intros w fx0.
  { cbn. repeat split; try done. intros t Hin. by apply elem_of_nil in Hin. }
  destruct l as [t p|t p|]; cbn [foldl run_listener fst snd]; try apply IH.
  match goal with |- context [foldl _ (?w1, ?fx1) ls] =>
    destruct (IH w1 fx1) as (Hl & Hc & Hcp & Hs & Hsp & Hin & Hout & Hnext);
    set (w0 := w1) in * end.
  cbn [omap list_omap confirm_target].
  split; [by rewrite Hl|]. split; [by rewrite Hc|]. split; [by rewrite Hcp|]. split.
  { rewrite Hs. by destruct (omap confirm_target ls). }
  split; [by rewrite Hsp|]. split.
  - intros t' Ht'. cbn in Ht'.
    destruct (decide (t' ∈ (omap confirm_target ls).*1)) as [?|Hnot]; [by apply Hin|].
    apply elem_of_cons in Ht' as [->|?]; [|done].
    rewrite Hout by done. apply (lookup_delete_eq (timers w)).
  - split; [|by rewrite Hnext].
    intros t' Ht'. cbn in Ht'. apply not_elem_of_cons in Ht' as [Hne Hnot].
    rewrite Hout by done. by apply (lookup_delete_ne (timers w)).
Qed.

Lemma emit_sweep_views success w :
  let outcome : settlement () :=
    if negb success then Rejected "The RF sweep was not successful"
    else Fulfilled () in
  v_notified outcome (sweep_view w) (sweep_view (emit (EvSweep success) w).1)
  ∧ v_frame (confirm_view w) (confirm_view (emit (EvSweep success) w).1).
Proof.
  intros outcome. unfold emit.
  destruct (call_listeners_sweep success (listeners (device w)) w
              [Emitted (EvSweep success)]) as (Hl & Hc & Hcp & Hs & Hsp & Hin & Hout & _).
  set (w' := (call_listeners _ _ _).1) in *. split.
  - split; [cbn; by rewrite Hl|]. split; [done|]. split; [done|].
    intros t p. cbn. destruct (timers w' !! t) as [[[] ms]|] eqn:Hlook; try done.
    intros [= ->].
    destruct (decide (t ∈ (omap sweep_target (listeners (device w))).*1)) as [Hi|Hn].
    + rewrite (Hin t Hi) in Hlook. done.
    + rewrite (Hout t Hn) in Hlook. by rewrite Hlook.
  - split; [done|]. split; [done|]. split; [cbn; by rewrite Hl|].
    intros t p. cbn. destruct (timers w' !! t) as [[[] ms]|] eqn:Hlook; try done.
    intros [= ->].
    destruct (decide (t ∈ (omap sweep_target (listeners (device w))).*1)) as [Hi|Hn].
    + rewrite (Hin t Hi) in Hlook. done.
    + rewrite (Hout t Hn) in Hlook. by rewrite Hlook.
Qed.

Lemma emit_data_views buf w :
  v_frame (sweep_view w) (sweep_view (emit (EvData buf) w).1)
  ∧ v_notified (Fulfilled buf) (confirm_view w) (confirm_view (emit (EvData buf) w).1).
Proof.
  unfold emit.
  destruct (call_listeners_data buf (listeners (device w)) w
              [Emitted (EvData buf)]) as (Hl & Hc & Hcp & Hs & Hsp & Hin & Hout & _).
  set (w' := (call_listeners _ _ _).1) in *. split.
  - split; [done|]. split; [done|]. split; [cbn; by rewrite Hl|].
    intros t p. cbn. destruct (timers w' !! t) as [[[] ms]|] eqn:Hlook; try done.
    intros [= ->].
    destruct (decide (t ∈ (omap confirm_target (listeners (device w))).*1)) as [Hi|Hn].
    + rewrite (Hin t Hi) in Hlook. done.
    + rewrite (Hout t Hn) in Hlook. by rewrite Hlook.
  - split; [cbn; by rewrite Hl|]. split; [done|]. split; [done|].
    intros t p. cbn. destruct (timers w' !! t) as [[[] ms]|] eqn:Hlook; try done.
    intros [= ->].
    destruct (decide (t ∈ (omap confirm_target (listeners (device w))).*1)) as [Hi|Hn].
    + rewrite (Hin t Hi) in Hlook. done.
    + rewrite (Hout t Hn) in Hlook. by rewrite Hlook.
Qed.

Lemma emit_views n w :
  v_step (sweep_view w) (sweep_view (emit n w).1)
  ∧ v_step (confirm_view w) (confirm_view (emit n w).1).
Proof.
  destruct n as [session|temp|buf|success|rf|err];
    try (match goal with |- context [emit ?n w] =>
           destruct (emit_passive n w I) as [fx ->] end;
         apply rf_frame_step, rf_frame_refl).
  - destruct (emit_data_views buf w) as [Hs Hc]. split; [by apply vs_frame|].
    by apply (vs_notified _ _ (Fulfilled buf)).
  - destruct (emit_sweep_views success w) as [Hs Hc]. split; [|by apply vs_frame].
    eapply vs_notified; [|exact Hs]. by destruct success.
Qed.

(** *** Timers and invocations *)

Lemma lift_sender_fields f w :
  sender f →
  sweepHandler (device (lift f w).1) = sweepHandler (device w)
  ∧ confirmHandler (device (lift f w).1) = confirmHandler (device w)
  ∧ listeners (device (lift f w).1) = listeners (device w)
  ∧ sweepPromises (lift f w).1 = sweepPromises w
  ∧ confirmPromises (lift f w).1 = confirmPromises w
  ∧ timers (lift f w).1 = timers w
  ∧ next_timer (lift f w).1 = next_timer w.
Proof.
  intros Hf. destruct (sender_fields f (device w) Hf) as (Hs & Hc & Hl & _).
  destruct (lift_world f w) as (Hsp & Hcp & Ht & Hn).
  by rewrite lift_device, Hs, Hc, Hl, Hsp, Hcp, Ht, Hn.
Qed.

Lemma run_callback_views t cb ms w :
  timers w !! t = Some (cb, ms) →
  v_step (sweep_view w) (sweep_view (run_callback cb (clearTimeout t w)).1)
  ∧ v_step (confirm_view w) (confirm_view (run_callback cb (clearTimeout t w)).1).
Proof.
  intros Hset. destruct cb as [p| |p|]; cbn [run_callback].
  - pose proof (lift_sender_fields cancelRFSweep (clearTimeout t w)
                  sender_cancelRFSweep) as (Hs & Hc & Hl & Hsp & Hcp & Ht & _).
    destruct (lift cancelRFSweep (clearTimeout t w)) as [w1 fx1].
    cbn [fst] in *. cbn in Hs, Hc, Hl, Hsp, Hcp, Ht. split.
    + apply (vs_timed_out _ _ t p (Rejected "RF sweep did not return any result"));
        [done|].
      split; [cbn; by rewrite Hset|]. split; [cbn; by rewrite Hl|].
      split; [done|]. split; [cbn; by rewrite Hsp|].
      intros t' q. cbn. rewrite Ht.
      destruct (delete t (timers w) !! t') as [[[] ms']|] eqn:Hlook; try done.
      intros [= ->]. apply lookup_delete_Some in Hlook as [Hne Hlook].
      by rewrite Hlook.
    + apply vs_frame. split; [done|]. split; [done|]. split; [cbn; by rewrite Hl|].
      intros t' q. cbn. rewrite Ht.
      destruct (delete t (timers w) !! t') as [[[] ms']|] eqn:Hlook; try done.
      intros [= ->]. apply lookup_delete_Some in Hlook as [Hne Hlook].
      by rewrite Hlook.
  - apply rf_frame_step, (rf_frame_clear t), rf_frame_lift, sender_checkRFSweep.
  - split.
    + apply vs_frame. split; [done|]. split; [done|]. split; [done|].
      intros t' q. cbn.
      destruct (delete t (timers w) !! t') as [[[] ms']|] eqn:Hlook; try done.
      intros [= ->]. apply lookup_delete_Some in Hlook as [Hne Hlook].
      by rewrite Hlook.
    + apply (vs_timed_out _ _ t p (Rejected "Did not get RF data from device"));
        [done|].
      split; [cbn; by rewrite Hset|]. split; [done|].
      split; [done|]. split; [done|].
      intros t' q. cbn.
      destruct (delete t (timers w) !! t') as [[[] ms']|] eqn:Hlook; try done.
      intros [= ->]. apply lookup_delete_Some in Hlook as [Hne Hlook].
      by rewrite Hlook.
  - apply rf_frame_step, (rf_frame_clear t), rf_frame_lift, sender_checkData.
Qed.

Lemma timer_fires_views t w :
  v_step (sweep_view w) (sweep_view (timer_fires t w).1)
  ∧ v_step (confirm_view w) (confirm_view (timer_fires t w).1).
Proof.
  unfold timer_fires. destruct (timers w !! t) as [[cb ms]|] eqn:Hset.
  - by eapply run_callback_views.
  - apply rf_frame_step, rf_frame_refl.
Qed.

Lemma enterRFSweep_effects l d : (enterRFSweep (on l d)).2 = (enterRFSweep d).2.
Proof. unfold enterRFSweep. cbn. by destruct (capabilites_RF d). Qed.

Lemma findRFPacket_effects l d : (findRFPacket (on l d)).2 = (findRFPacket d).2.
Proof. unfold findRFPacket. cbn. by destruct (capabilites_RF d). Qed.

(** What a new invocation of [sweepFrequency] sets up. *)
Lemma sweepFrequency_new w :
  sweepHandler (device w) = None →
  ∃ w',
    sweepFrequency w = (length (sweepPromises w), w', (enterRFSweep (device w)).2)
    ∧ sweepHandler (device w') = Some (length (sweepPromises w))
    ∧ confirmHandler (device w') = confirmHandler (device w)
    ∧ listeners (device w')
      = listeners (device w)
        ++ [SweepListener (next_timer w) (length (sweepPromises w))]
    ∧ sweepPromises w' = sweepPromises w ++ [Pending]
    ∧ confirmPromises w' = confirmPromises w
    ∧ timers w'
      = <[S (next_timer w) := (SweepCheckCb, 10000)]>
          (<[next_timer w := (SweepTimeoutCb (length (sweepPromises w)), 30000)]>
             (timers w))
    ∧ next_timer w' = S (S (next_timer w)).
Proof.
  intros Hidle. unfold sweepFrequency. rewrite Hidle. cbn [setTimeout].
  match goal with |- context [lift enterRFSweep ?w1] =>
    pose proof (lift_sender_fields enterRFSweep w1 sender_enterRFSweep)
      as (Hs & Hc & Hl & Hsp & Hcp & Ht & Hn);
    assert ((lift enterRFSweep w1).2 = (enterRFSweep (device w)).2) as Hfx
      by (unfold lift; cbn [device with_device];
          rewrite <- (enterRFSweep_effects
                        (SweepListener (next_timer w) (length (sweepPromises w)))
                        (device w));
          by destruct (enterRFSweep _));
    destruct (lift enterRFSweep w1) as [w2 fx2] end.
  cbn [fst snd] in *. subst fx2. eexists. split; [reflexivity|].
  cbn in Hs, Hc, Hl, Hsp, Hcp, Ht, Hn. by cbn.
Qed.

Lemma confirmFrequency_new w :
  confirmHandler (device w) = None →
  ∃ w',
    confirmFrequency w
    = (length (confirmPromises w), w', (findRFPacket (device w)).2)
    ∧ confirmHandler (device w') = Some (length (confirmPromises w))
    ∧ sweepHandler (device w') = sweepHandler (device w)
    ∧ listeners (device w')
      = listeners (device w)
        ++ [DataListener (next_timer w) (length (confirmPromises w))]
    ∧ confirmPromises w' = confirmPromises w ++ [Pending]
    ∧ sweepPromises w' = sweepPromises w
    ∧ timers w'
      = <[S (next_timer w) := (ConfirmCheckCb, 5000)]>
          (<[next_timer w := (ConfirmTimeoutCb (length (confirmPromises w)), 10000)]>
             (timers w))
    ∧ next_timer w' = S (S (next_timer w)).
Proof.
  intros Hidle. unfold confirmFrequency. rewrite Hidle. cbn [setTimeout].
  match goal with |- context [lift findRFPacket ?w1] =>
    pose proof (lift_sender_fields findRFPacket w1 sender_findRFPacket)
      as (Hs & Hc & Hl & Hsp & Hcp & Ht & Hn);
    assert ((lift findRFPacket w1).2 = (findRFPacket (device w)).2) as Hfx
      by (unfold lift; cbn [device with_device];
          rewrite <- (findRFPacket_effects
                        (DataListener (next_timer w) (length (confirmPromises w)))
                        (device w));
          by destruct (findRFPacket _));
    destruct (lift findRFPacket w1) as [w2 fx2] end.
  cbn [fst snd] in *. subst fx2. eexists. split; [reflexivity|].
  cbn in Hs, Hc, Hl, Hsp, Hcp, Ht, Hn. by cbn.
Qed.

Lemma sweepFrequency_views w :
  v_step (sweep_view w) (sweep_view (sweepFrequency w).1.2)
  ∧ v_step (confirm_view w) (confirm_view (sweepFrequency w).1.2).
Proof.
  destruct (sweepHandler (device w)) as [p|] eqn:Hh.
  { unfold sweepFrequency. rewrite Hh. apply rf_frame_step, rf_frame_refl. }
  destruct (sweepFrequency_new w Hh) as (w' & -> & Hs & Hc & Hl & Hsp & Hcp & Ht & _).
  cbn [fst snd]. split.
  - apply (vs_invoked _ _ (next_timer w)).
    split; [done|]. split; [done|]. split; [done|].
    split; [cbn; by rewrite Hl, omap_app|].
    intros t q. cbn. rewrite Ht.
    destruct (decide (t = S (next_timer w))) as [->|Hne1].
    { by rewrite lookup_insert_eq. }
    rewrite lookup_insert_ne by done.
    destruct (decide (t = next_timer w)) as [->|Hne2].
    { rewrite lookup_insert_eq. intros [= <-]. by left. }
    rewrite lookup_insert_ne by done. by right.
  - apply vs_frame. split; [done|]. split; [done|].
    split; [cbn; by rewrite Hl, omap_app, app_nil_r|].
    intros t q. cbn. rewrite Ht.
    destruct (decide (t = S (next_timer w))) as [->|Hne1].
    { by rewrite lookup_insert_eq. }
    rewrite lookup_insert_ne by done.
    destruct (decide (t = next_timer w)) as [->|Hne2].
    { by rewrite lookup_insert_eq. }
    by rewrite lookup_insert_ne by done.
Qed.

Lemma confirmFrequency_views w :
  v_step (sweep_view w) (sweep_view (confirmFrequency w).1.2)
  ∧ v_step (confirm_view w) (confirm_view (confirmFrequency w).1.2).
Proof.
  destruct (confirmHandler (device w)) as [p|] eqn:Hh.
  { unfold confirmFrequency. rewrite Hh. apply rf_frame_step, rf_frame_refl. }
  destruct (confirmFrequency_new w Hh) as (w' & -> & Hc & Hs & Hl & Hcp & Hsp & Ht & _).
  cbn [fst snd]. split.
  - apply vs_frame. split; [done|]. split; [done|].
    split; [cbn; by rewrite Hl, omap_app, app_nil_r|].
    intros t q. cbn. rewrite Ht.
    destruct (decide (t = S (next_timer w))) as [->|Hne1].
    { by rewrite lookup_insert_eq. }
    rewrite lookup_insert_ne by done.
    destruct (decide (t = next_timer w)) as [->|Hne2].
    { by rewrite lookup_insert_eq. }
    by rewrite lookup_insert_ne by done.
  - apply (vs_invoked _ _ (next_timer w)).
    split; [done|]. split; [done|]. split; [done|].
    split; [cbn; by rewrite Hl, omap_app|].
    intros t q. cbn. rewrite Ht.
    destruct (decide (t = S (next_timer w))) as [->|Hne1].
    { by rewrite lookup_insert_eq. }
    rewrite lookup_insert_ne by done.
    destruct (decide (t = next_timer w)) as [->|Hne2].
    { rewrite lookup_insert_eq. intros [= <-]. by left. }
    rewrite lookup_insert_ne by done. by right.
Qed.

(** *** Every step *)

Lemma onPayloadReceived_views err payload w w' fx :
  onPayloadReceived err payload w = Ok (w', fx) →
  v_step (sweep_view w) (sweep_view w') ∧ v_step (confirm_view w) (confirm_view w').
Proof.
  unfold onPayloadReceived, onPayloadReceived_by. simpl.
  destruct (Buffer_alloc_size _) as [data|]; [simpl|done].
  destruct (Buffer_copy_from payload data 0 4) as [data'|]; [simpl|done].
  repeat case_match; simpl;
    repeat (match goal with
            | |- context [Buffer_alloc_size ?x] => destruct (Buffer_alloc_size x); simpl
            | |- context [Buffer_copy_from ?a ?b ?c ?e] =>
                destruct (Buffer_copy_from a b c e); simpl
            end);
    try done; ok_world; try apply emit_views; apply rf_frame_step, rf_frame_refl.
Qed.

Lemma onResponse_views response w w' fx :
  onResponse response w = Ok (w', fx) →
  v_step (sweep_view w) (sweep_view w') ∧ v_step (confirm_view w) (confirm_view w').
Proof.
  unfold onResponse, onResponse_by. res_simpl.
  destruct (Buffer_alloc_size _) as [e0|]; [res_simpl|done].
  destruct (Buffer_copy_from response e0 0 56) as [e1|]; [res_simpl|done].
  case_match; res_simpl.
  { ok_world. apply emit_views. }
  destruct (decipher_update_final _ _ e1) as [payload|]; [res_simpl|done].
  case_match; res_simpl.
  - destruct (Buffer_copy payload (Buffer_alloc 16) 0 4 20) as [k|]; [res_simpl|done].
    destruct (Buffer_copy payload (Buffer_alloc 4) 0 0 4) as [i|]; [res_simpl|done].
    ok_world.
    exact (emit_views _ (with_device (set_key_id k i (device w)) w)).
  - case_match.
    + apply onPayloadReceived_views.
    + ok_world. apply rf_frame_step, rf_frame_refl.
Qed.

Lemma atomic_step_views i w w' fx :
  atomic i → step i w = Ok (w', fx) →
  v_step (sweep_view w) (sweep_view w') ∧ v_step (confirm_view w) (confirm_view w').
Proof.
  intros Hatomic. destruct i; try done; cbn [step];
    try (ok_world; apply rf_frame_step, rf_frame_lift; auto with senders).
  - apply onResponse_views.
  - ok_world. apply timer_fires_views.
  - ok_world. apply emit_views.
  - pose proof (sweepFrequency_views w) as H.
    destruct (sweepFrequency w) as [[p w1] fx1]. by intros [= <- <-].
  - pose proof (confirmFrequency_views w) as H.
    destruct (confirmFrequency w) as [[p w1] fx1]. by intros [= <- <-].
Qed.

(** *** Single listeners and calls in between *)

Lemma elem_of_sweep_targets t p (ls : list listener) :
  (t, p) ∈ omap sweep_target ls ↔ SweepListener t p ∈ ls.
Proof.
  rewrite list_elem_of_omap. split.
  - intros ([] & Hin & [= <- <-]). done.
  - intros Hin. by exists (SweepListener t p).
Qed.

Lemma elem_of_confirm_targets t p (ls : list listener) :
  (t, p) ∈ omap confirm_target ls ↔ DataListener t p ∈ ls.
Proof.
  rewrite list_elem_of_omap. split.
  - intros ([] & Hin & [= <- <-]). done.
  - intros Hin. by exists (DataListener t p).
Qed.

Lemma both_views_refl w : both_views w w.
Proof. split; apply v_steps_refl. Qed.

Lemma both_views_trans w1 w2 w3 :
  both_views w1 w2 → both_views w2 w3 → both_views w1 w3.
Proof. intros [H1 H2] [H3 H4]. split; by eapply vs_trans. Qed.

Lemma both_views_frame w w' : rf_frame w w' → both_views w w'.
Proof. intros [H1 H2]%rf_frame_step. split; by apply vs_step. Qed.

Lemma run_listener_views n w l :
  l ∈ listeners (device w) → both_views w (run_listener n w l).1.
Proof.
  intros Hl.
  destruct l as [t p|t p|], n as [session|temp|buf|success|rf|err];
    try apply both_views_refl; cbn [run_listener fst].
  - split.
    + apply (vs_run t p (if negb success
                          then Rejected "The RF sweep was not successful"
                          else Fulfilled ())); [by destruct success|].
      split; [by apply elem_of_sweep_targets|]. split; [done|]. split; [done|].
      split; [done|].
      intros t' q. cbn.
      destruct (delete t (timers w) !! t') as [[[] ms']|] eqn:Hlook; try done.
      intros [= ->]. apply lookup_delete_Some in Hlook as [Hne Hlook].
      by rewrite Hlook.
    + apply vs_step, vs_frame. split; [done|]. split; [done|]. split; [done|].
      intros t' q. cbn.
      destruct (delete t (timers w) !! t') as [[[] ms']|] eqn:Hlook; try done.
      intros [= ->]. apply lookup_delete_Some in Hlook as [Hne Hlook].
      by rewrite Hlook.
  - split.
    + apply vs_step, vs_frame. split; [done|]. split; [done|]. split; [done|].
      intros t' q. cbn.
      destruct (delete t (timers w) !! t') as [[[] ms']|] eqn:Hlook; try done.
      intros [= ->]. apply lookup_delete_Some in Hlook as [Hne Hlook].
      by rewrite Hlook.
    + apply (vs_run t p (Fulfilled buf)); [done|].
      split; [by apply elem_of_confirm_targets|]. split; [done|]. split; [done|].
      split; [done|].
      intros t' q. cbn.
      destruct (delete t (timers w) !! t') as [[[] ms']|] eqn:Hlook; try done.
      intros [= ->]. apply lookup_delete_Some in Hlook as [Hne Hlook].
      by rewrite Hlook.
Qed.

Lemma micro_views w w' : micro w w' → both_views w w'.
Proof.
  intros [m w0|n l w0 Hl]; [|by apply run_listener_views].
  destruct (atomic_step_views (input_of m) w0 (invoke m w0).1 (invoke m w0).2
              (atomic_input_of m)) as [Hs Hc].
  { rewrite step_input_of. by destruct (invoke m w0). }
  split; by apply vs_step.
Qed.

Lemma key_frame w k i : rf_frame w (with_device (set_key_id k i (device w)) w).
Proof. by repeat split. Qed.

Lemma step_views i w w' fx : step i w = Ok (w', fx) → both_views w w'.
Proof.
  destruct i;
    try (match goal with
         | |- step ?i0 _ = _ → _ =>
             intros Hstep;
             destruct (atomic_step_views i0 w w' fx I Hstep) as [Hs Hc];
             split; by apply vs_step
         end);
    cbn [step].
  - apply (onResponse_with_preserves both_views);
      auto using both_views_refl, micro_views.
    + apply both_views_trans.
    + intros w0 k i _ _. apply both_views_frame, key_frame.
  - ok_world. apply (emit_with_preserves both_views);
      auto using both_views_refl, micro_views.
    apply both_views_trans.
Qed.

Lemma step_rf_inv i w w' fx : step i w = Ok (w', fx) → rf_inv w → rf_inv w'.
Proof.
  intros [Hs Hc]%step_views [Is Ic]. split; by eapply inv_steps.
Qed.

Lemma reachable_rf_inv w : reachable w → rf_inv w.
Proof.
  induction 1 as [host mac type random|w _ [Is Ic]|w i w' fx _ IH Hstep].
  - split; split; cbn; intros; try done; by apply elem_of_nil in H.
  - split; (eapply inv_frame; [eassumption|]);
      (split; [done|split; [done|split; [cbn; by rewrite omap_app, app_nil_r|done]]]).
  - by eapply step_rf_inv.
Qed.




Lemma run_views inputs w w' fx :
  run inputs w = Ok (w', fx) → both_views w w'.
Proof.
  revert w fx. induction inputs as [|i inputs IH]; intros w fx.
  - intros [= <- <-]. apply both_views_refl.
  - cbn [run]. destruct (step i w) as [[w1 fx1]|] eqn:Hi; [res_simpl|done].
    destruct (run inputs w1) as [[w2 fx2]|] eqn:Hrun; [res_simpl|done].
    intros [= <- <-]. eapply both_views_trans; [by eapply step_views|by eapply IH].
Qed.
(** ** The shape of every step *)

Lemma rf_step_refl w : rf_step w w.
Proof. by apply rs_same. Qed.

Lemma rf_step_lift f w : sender f → rf_step w (lift f w).1.
Proof.
  intros Hf.
  destruct (lift_sender_fields f w Hf) as (_ & _ & Hl & Hsp & Hcp & Ht & Hn).
  by apply rs_same.
Qed.

Lemma emit_rf_step n w : rf_step w (emit n w).1.
Proof.
  destruct n as [session|temp|buf|success|rf|err];
    try (match goal with |- context [emit ?n w] =>
           destruct (emit_passive n w I) as [fx ->] end;
         apply rf_step_refl).
  - unfold emit.
    destruct (call_listeners_data buf (listeners (device w)) w
                [Emitted (EvData buf)]) as (Hl & _ & Hsp & _ & Hcp & Hin & Hout & Hn).
    by apply (rs_data_notified _ _ (Fulfilled buf)).
  - unfold emit.
    destruct (call_listeners_sweep success (listeners (device w)) w
                [Emitted (EvSweep success)]) as (Hl & _ & Hcp & _ & Hsp & Hin & Hout & Hn).
    eapply rs_sweep_notified; [|done..]. by destruct success.
Qed.

Lemma timer_fires_set t cb ms w :
  timers w !! t = Some (cb, ms) →
  listeners (device (timer_fires t w).1) = listeners (device w)
  ∧ next_timer (timer_fires t w).1 = next_timer w
  ∧ timers (timer_fires t w).1 = delete t (timers w)
  ∧ sweepPromises (timer_fires t w).1
    = (if cb is SweepTimeoutCb p
       then settle p (Rejected "RF sweep did not return any result") (sweepPromises w)
       else sweepPromises w)
  ∧ confirmPromises (timer_fires t w).1
    = (if cb is ConfirmTimeoutCb p
       then settle p (Rejected "Did not get RF data from device") (confirmPromises w)
       else confirmPromises w).
Proof.
  intros Hset. unfold timer_fires. rewrite Hset.
  destruct cb as [p| |p|]; cbn [run_callback];
    try done;
    try (match goal with |- context [lift ?f ?w1] =>
           let H := fresh in
           assert (sender f) as H by auto with senders;
           destruct (lift_sender_fields f w1 H) as (_ & _ & Hl & Hsp & Hcp & Ht & Hn);
           destruct (lift f w1) as [w2 fx2]
         end; cbn [fst] in *; cbn in *; repeat split; congruence).
Qed.

Lemma timer_fires_rf_step t w : rf_step w (timer_fires t w).1.
Proof.
  destruct (timers w !! t) as [[cb ms]|] eqn:Hset.
  - destruct (timer_fires_set t cb ms w Hset) as (Hl & Hn & Ht & Hsp & Hcp).
    by apply (rs_timer _ _ t cb ms).
  - unfold timer_fires. rewrite Hset. apply rf_step_refl.
Qed.

Lemma sweepFrequency_rf_step w : rf_step w (sweepFrequency w).1.2.
Proof.
  destruct (sweepHandler (device w)) as [p|] eqn:Hh.
  { unfold sweepFrequency. rewrite Hh. apply rf_step_refl. }
  destruct (sweepFrequency_new w Hh) as (w' & -> & _ & _ & Hl & Hsp & Hcp & Ht & Hn).
  by apply rs_sweep_invoked.
Qed.

Lemma confirmFrequency_rf_step w : rf_step w (confirmFrequency w).1.2.
Proof.
  destruct (confirmHandler (device w)) as [p|] eqn:Hh.
  { unfold confirmFrequency. rewrite Hh. apply rf_step_refl. }
  destruct (confirmFrequency_new w Hh) as (w' & -> & _ & _ & Hl & Hcp & Hsp & Ht & Hn).
  by apply rs_confirm_invoked.
Qed.

Lemma onPayloadReceived_rf_step err payload w w' fx :
  onPayloadReceived err payload w = Ok (w', fx) → rf_step w w'.
Proof.
  unfold onPayloadReceived, onPayloadReceived_by. simpl.
  destruct (Buffer_alloc_size _) as [data|]; [simpl|done].
  destruct (Buffer_copy_from payload data 0 4) as [data'|]; [simpl|done].
  repeat case_match; simpl;
    repeat (match goal with
            | |- context [Buffer_alloc_size ?x] => destruct (Buffer_alloc_size x); simpl
            | |- context [Buffer_copy_from ?a ?b ?c ?e] =>
                destruct (Buffer_copy_from a b c e); simpl
            end);
    try done; ok_world; try apply emit_rf_step; apply rf_step_refl.
Qed.

Lemma onResponse_rf_step response w w' fx :
  onResponse response w = Ok (w', fx) → rf_step w w'.
Proof.
  unfold onResponse, onResponse_by. res_simpl.
  destruct (Buffer_alloc_size _) as [e0|]; [res_simpl|done].
  destruct (Buffer_copy_from response e0 0 56) as [e1|]; [res_simpl|done].
  case_match; res_simpl.
  { ok_world. apply emit_rf_step. }
  destruct (decipher_update_final _ _ e1) as [payload|]; [res_simpl|done].
  case_match; res_simpl.
  - destruct (Buffer_copy payload (Buffer_alloc 16) 0 4 20) as [k|]; [res_simpl|done].
    destruct (Buffer_copy payload (Buffer_alloc 4) 0 0 4) as [i|]; [res_simpl|done].
    ok_world.
    match goal with |- context [emit ?n0 ?w0] =>
      destruct (emit_passive n0 w0 I) as [fx' ->] end.
    by apply rs_same.
  - case_match.
    + apply onPayloadReceived_rf_step.
    + ok_world. apply rf_step_refl.
Qed.

Lemma atomic_step_rf_step i w w' fx :
  atomic i → step i w = Ok (w', fx) → rf_step w w'.
Proof.
  intros Hatomic. destruct i; try done; cbn [step];
    try (ok_world; apply rf_step_lift; auto with senders).
  - apply onResponse_rf_step.
  - ok_world. apply timer_fires_rf_step.
  - ok_world. apply emit_rf_step.
  - pose proof (sweepFrequency_rf_step w) as H.
    destruct (sweepFrequency w) as [[p w1] fx1]. by intros [= <- <-].
  - pose proof (confirmFrequency_rf_step w) as H.
    destruct (confirmFrequency w) as [[p w1] fx1]. by intros [= <- <-].
Qed.

Lemma run_listener_rf_step n w l :
  l ∈ listeners (device w) → rf_step w (run_listener n w l).1.
Proof.
  intros Hl.
  destruct l as [t p|t p|], n as [session|temp|buf|success|rf|err];
    try apply rf_step_refl; cbn [run_listener fst].
  - apply (rs_sweep_run _ _ t p (if negb success
                                 then Rejected "The RF sweep was not successful"
                                 else Fulfilled ())); try done.
    by destruct success.
  - by apply (rs_data_run _ _ t p (Fulfilled buf)).
Qed.

Lemma micro_rf_step w w' : micro w w' → rf_step w w'.
Proof.
  intros [m w0|n l w0 Hl]; [|by apply run_listener_rf_step].
  apply (atomic_step_rf_step (input_of m) w0 _ (invoke m w0).2 (atomic_input_of m)).
  rewrite step_input_of. by destruct (invoke m w0).
Qed.

Lemma step_linked i w w' fx : step i w = Ok (w', fx) → rtc linked w w'.
Proof.
  destruct i;
    try (match goal with
         | |- step ?i0 _ = _ → _ =>
             intros Hstep; apply rtc_once; split;
             [by eapply step_views
             |exact (atomic_step_rf_step i0 w w' fx I Hstep)]
         end);
    cbn [step].
  - apply (onResponse_with_preserves (rtc linked)); try done.
    + intros w1 w2 w3 H12 H23. by etrans.
    + intros w1 w2 Hm. apply rtc_once. split; [by apply micro_views|by apply micro_rf_step].
    + intros w0 k i _ _. apply rtc_once. split.
      * apply both_views_frame, key_frame.
      * by apply rs_same.
  - ok_world. apply (emit_with_preserves (rtc linked)); try done.
    + intros w1 w2 w3 H12 H23. by etrans.
    + intros w1 w2 Hm. apply rtc_once. split; [by apply micro_views|by apply micro_rf_step].
Qed.

Lemma run_linked inputs w w' fx : run inputs w = Ok (w', fx) → rtc linked w w'.
Proof.
  revert w fx. induction inputs as [|i inputs IH]; intros w fx.
  - by intros [= <- <-].
  - cbn [run]. destruct (step i w) as [[w1 fx1]|] eqn:Hi; [res_simpl|done].
    destruct (run inputs w1) as [[w2 fx2]|] eqn:Hrun; [res_simpl|done].
    intros [= <- <-]. etrans; [by eapply step_linked|by eapply IH].
Qed.

(** ** The timeout timer of a pending result *)

Lemma rf_step_armed w w' : rf_inv w → armed_inv w → rf_step w w' → armed_inv w'.
Proof.
  intros [Is Ic] (Fs & Fc & D & Ps & Pc & Us & Uc) Hstep.
  destruct Hstep as
    [Hl Hsp Hcp Ht Hn
    |outcome Hout Hl Hn Hcp Hsp Hin Hnotin
    |outcome Hout Hl Hn Hsp Hcp Hin Hnotin
    |t cb ms Hset Hl Hn Ht Hsp Hcp
    |Hl Hsp Hcp Ht Hn
    |Hl Hcp Hsp Ht Hn
    |t0 p0 outcome Hout Hlis Hl Hn Hcp Hsp Ht
    |t0 p0 outcome Hout Hlis Hl Hn Hsp Hcp Ht].
  - unfold armed_inv. rewrite Hl, Hsp, Hcp, Ht, Hn. done.
  - unfold armed_inv. rewrite Hl, Hcp, Hn. repeat split; try done.
    + intros t p Hlis Hpend. rewrite Hsp in Hpend.
      apply settle_all_pending_inv in Hpend as [_ Hnot]; [|done].
      destruct Hnot. apply (target_promise t). by apply elem_of_sweep_targets.
    + intros t p Hlis Hpend. rewrite Hnotin; [by apply Pc|].
      intros ((t' & q) & Heq & Hq%elem_of_sweep_targets)%list_elem_of_fmap.
      cbn in Heq. subst t'. by apply (D t q p).
  - unfold armed_inv. rewrite Hl, Hsp, Hn. repeat split; try done.
    + intros t p Hlis Hpend. rewrite Hnotin; [by apply Ps|].
      intros ((t' & q) & Heq & Hq%elem_of_confirm_targets)%list_elem_of_fmap.
      cbn in Heq. subst t'. by apply (D t p q).
    + intros t p Hlis Hpend. rewrite Hcp in Hpend.
      apply settle_all_pending_inv in Hpend as [_ Hnot]; [|done].
      destruct Hnot. apply (target_promise t). by apply elem_of_confirm_targets.
  - unfold armed_inv. rewrite Hl, Hn, Ht. repeat split; try done.
    + intros t0 p Hlis Hpend.
      assert (sweepPromises w !! p = Some Pending
              ∧ (∀ q, cb = SweepTimeoutCb q → p ≠ q)) as [Hold Hne].
      { rewrite Hsp in Hpend. destruct cb as [q| |q|]; try done.
        apply settle_pending_inv in Hpend as [? ?]; [|done].
        split; [done|]. by intros ? [= <-]. }
      pose proof (Ps t0 p Hlis Hold) as Hthere.
      rewrite lookup_delete_ne; [done|]. intros <-.
      rewrite Hset in Hthere. injection Hthere as -> _. by eapply Hne.
    + intros t0 p Hlis Hpend.
      assert (confirmPromises w !! p = Some Pending
              ∧ (∀ q, cb = ConfirmTimeoutCb q → p ≠ q)) as [Hold Hne].
      { rewrite Hcp in Hpend. destruct cb as [q| |q|]; try done.
        apply settle_pending_inv in Hpend as [? ?]; [|done].
        split; [done|]. by intros ? [= <-]. }
      pose proof (Pc t0 p Hlis Hold) as Hthere.
      rewrite lookup_delete_ne; [done|]. intros <-.
      rewrite Hset in Hthere. injection Hthere as -> _. by eapply Hne.
  - unfold armed_inv. rewrite Hl, Hsp, Hcp, Ht, Hn.
    assert (Hdata : ∀ t p,
              DataListener t p
              ∈ listeners (device w)
                ++ [SweepListener (next_timer w) (length (sweepPromises w))] →
              DataListener t p ∈ listeners (device w)).
    { intros t p [?|[=]%list_elem_of_singleton]%elem_of_app. done. }
    repeat split.
    + intros t p [Hold|[= -> ->]%list_elem_of_singleton]%elem_of_app; [|lia].
      apply Fs in Hold. lia.
    + intros t p Hin%Hdata. apply Fc in Hin. lia.
    + intros t p q [Hold|[= -> ->]%list_elem_of_singleton]%elem_of_app Hq%Hdata.
      * by apply (D t p q).
      * apply Fc in Hq. lia.
    + intros t p [Hold|[= -> ->]%list_elem_of_singleton]%elem_of_app Hpend.
      * pose proof (Fs t p Hold) as Hlt.
        pose proof (mi_listener_bound _ Is t p) as Hbound. cbn in Hbound.
        rewrite lookup_app_l in Hpend
          by (apply Hbound; by apply elem_of_sweep_targets).
        rewrite !lookup_insert_ne by lia. by apply Ps.
      * rewrite lookup_insert_ne by lia. by rewrite lookup_insert_eq.
    + intros t p Hin%Hdata Hpend. pose proof (Fc t p Hin) as Hlt.
      rewrite !lookup_insert_ne by lia. by apply Pc.
    + intros t p q [Hp|Hp%list_elem_of_singleton]%elem_of_app
        [Hq|Hq%list_elem_of_singleton]%elem_of_app.
      * by apply (Us t).
      * injection Hq as -> ->. apply Fs in Hp. lia.
      * injection Hp as -> ->. apply Fs in Hq. lia.
      * congruence.
    + intros t p q Hp%Hdata Hq%Hdata. by apply (Uc t).
  - unfold armed_inv. rewrite Hl, Hsp, Hcp, Ht, Hn.
    assert (Hsweep : ∀ t p,
              SweepListener t p
              ∈ listeners (device w)
                ++ [DataListener (next_timer w) (length (confirmPromises w))] →
              SweepListener t p ∈ listeners (device w)).
    { intros t p [?|[=]%list_elem_of_singleton]%elem_of_app. done. }
    repeat split.
    + intros t p Hin%Hsweep. apply Fs in Hin. lia.
    + intros t p [Hold|[= -> ->]%list_elem_of_singleton]%elem_of_app; [|lia].
      apply Fc in Hold. lia.
    + intros t p q Hp%Hsweep [Hold|[= -> ->]%list_elem_of_singleton]%elem_of_app.
      * by apply (D t p q).
      * apply Fs in Hp. lia.
    + intros t p Hin%Hsweep Hpend. pose proof (Fs t p Hin) as Hlt.
      rewrite !lookup_insert_ne by lia. by apply Ps.
    + intros t p [Hold|[= -> ->]%list_elem_of_singleton]%elem_of_app Hpend.
      * pose proof (Fc t p Hold) as Hlt.
        pose proof (mi_listener_bound _ Ic t p) as Hbound. cbn in Hbound.
        rewrite lookup_app_l in Hpend
          by (apply Hbound; by apply elem_of_confirm_targets).
        rewrite !lookup_insert_ne by lia. by apply Pc.
      * rewrite lookup_insert_ne by lia. by rewrite lookup_insert_eq.
    + intros t p q Hp%Hsweep Hq%Hsweep. by apply (Us t).
    + intros t p q [Hp|Hp%list_elem_of_singleton]%elem_of_app
        [Hq|Hq%list_elem_of_singleton]%elem_of_app.
      * by apply (Uc t).
      * injection Hq as -> ->. apply Fc in Hp. lia.
      * injection Hp as -> ->. apply Fc in Hq. lia.
      * congruence.
  - unfold armed_inv. rewrite Hl, Hn, Hcp, Ht. repeat split; try done.
    + intros t p Hlis' Hpend. rewrite Hsp in Hpend.
      apply settle_pending_inv in Hpend as [Hpend Hne]; [|done].
      rewrite lookup_delete_ne; [by apply Ps|].
      intros <-. apply Hne. by apply (Us t0).
    + intros t p Hlis' Hpend. rewrite lookup_delete_ne; [by apply Pc|].
      intros <-. by apply (D t0 p0 p).
  - unfold armed_inv. rewrite Hl, Hn, Hsp, Ht. repeat split; try done.
    + intros t p Hlis' Hpend. rewrite lookup_delete_ne; [by apply Ps|].
      intros <-. by apply (D t0 p p0).
    + intros t p Hlis' Hpend. rewrite Hcp in Hpend.
      apply settle_pending_inv in Hpend as [Hpend Hne]; [|done].
      rewrite lookup_delete_ne; [by apply Pc|].
      intros <-. apply Hne. by apply (Uc t0).
Qed.

Lemma linked_inv w w' :
  linked w w' → rf_inv w ∧ armed_inv w → rf_inv w' ∧ armed_inv w'.
Proof.
  intros [[Vs Vc] Hstep] [[Is Ic] Harmed]. split.
  - split; by eapply inv_steps.
  - by apply (rf_step_armed w w').
Qed.

Lemma rtc_linked_inv w w' :
  rtc linked w w' → rf_inv w ∧ armed_inv w → rf_inv w' ∧ armed_inv w'.
Proof. induction 1; eauto using linked_inv. Qed.

Lemma reachable_armed w : reachable w → armed_inv w.
Proof.
  induction 1 as [host mac type random|w Hreach IH|w i w' fx Hreach IH Hstep].
  - repeat split; cbn; intros; by apply elem_of_nil in H.
  - destruct IH as (Fs & Fc & D & Ps & Pc & Us & Uc).
    assert (Hs : ∀ t p, SweepListener t p ∈ listeners (device w) ++ [ReadyRelay] →
                        SweepListener t p ∈ listeners (device w))
      by (by intros t p [?|[=]%list_elem_of_singleton]%elem_of_app).
    assert (Hd : ∀ t p, DataListener t p ∈ listeners (device w) ++ [ReadyRelay] →
                        DataListener t p ∈ listeners (device w))
      by (by intros t p [?|[=]%list_elem_of_singleton]%elem_of_app).
    repeat split; cbn; eauto.
  - apply (rtc_linked_inv w w'); [by eapply step_linked|].
    split; [by apply reachable_rf_inv|done].
Qed.
(** ** Reuse of a pending invocation *)

Lemma run_sweep_stable inputs w w' fx p s :
  run inputs w = Ok (w', fx) → sweepPromises w !! p = Some s → s ≠ Pending →
  sweepPromises w' !! p = Some s.
Proof.
  intros [Hs _]%run_views. apply (v_steps_stable _ _ p s Hs).
Qed.

Lemma run_confirm_stable inputs w w' fx p s :
  run inputs w = Ok (w', fx) → confirmPromises w !! p = Some s → s ≠ Pending →
  confirmPromises w' !! p = Some s.
Proof.
  intros [_ Hc]%run_views. apply (v_steps_stable _ _ p s Hc).
Qed.

Lemma run_sweep_listener inputs w w' fx t p :
  run inputs w = Ok (w', fx) → SweepListener t p ∈ listeners (device w) →
  SweepListener t p ∈ listeners (device w').
Proof.
  intros [Hs _]%run_views Hin. apply elem_of_sweep_targets.
  apply (v_steps_targets _ _ _ Hs). by apply elem_of_sweep_targets.
Qed.

Lemma run_confirm_listener inputs w w' fx t p :
  run inputs w = Ok (w', fx) → DataListener t p ∈ listeners (device w) →
  DataListener t p ∈ listeners (device w').
Proof.
  intros [_ Hc]%run_views Hin. apply elem_of_confirm_targets.
  apply (v_steps_targets _ _ _ Hc). by apply elem_of_confirm_targets.
Qed.








(** ** Settlement of a learning result *)

(** C3, amended: in every world a session reaches, for the invocation that
    registered a listener with timeout timer [t] and promise [p], of
    [sweepFrequency] and of [confirmFrequency] alike:
    - while the result is pending its timeout timer is set, so both sources
      can still fire; the notification settles the result and clears the
      timeout timer; the timeout, if it fires instead, rejects the result;
    - a timeout timer that is set belongs to a pending result, so no timeout
      fires after a notification settled the result;
    - a settled result keeps its outcome whatever happens later (it is
      settled once), and the listener stays registered: a timeout does not
      remove it, later notifications run it without effect on the result. *)
Theorem learning_result_settles_once (w : World) :
  reachable w →
  (∀ t p, SweepListener t p ∈ listeners (device w) →
     (sweepPromises w !! p = Some Pending →
      timers w !! t = Some (SweepTimeoutCb p, 30000)
      ∧ (∀ success,
           sweepPromises (emit (EvSweep success) w).1 !! p
           = Some (if success then Fulfilled ()
                   else Rejected "The RF sweep was not successful")
           ∧ timers (emit (EvSweep success) w).1 !! t = None)
      ∧ sweepPromises (timer_fires t w).1 !! p
        = Some (Rejected "RF sweep did not return any result")
      ∧ timers (timer_fires t w).1 !! t = None)
     ∧ (∀ t' ms, timers w !! t' = Some (SweepTimeoutCb p, ms) →
                 t' = t ∧ sweepPromises w !! p = Some Pending)
     ∧ (∀ s inputs w' fx,
          sweepPromises w !! p = Some s → s ≠ Pending →
          run inputs w = Ok (w', fx) →
          sweepPromises w' !! p = Some s
          ∧ SweepListener t p ∈ listeners (device w')))
  ∧ (∀ t p, DataListener t p ∈ listeners (device w) →
       (confirmPromises w !! p = Some Pending →
        timers w !! t = Some (ConfirmTimeoutCb p, 10000)
        ∧ (∀ buf,
             confirmPromises (emit (EvData buf) w).1 !! p = Some (Fulfilled buf)
             ∧ timers (emit (EvData buf) w).1 !! t = None)
        ∧ confirmPromises (timer_fires t w).1 !! p
          = Some (Rejected "Did not get RF data from device")
        ∧ timers (timer_fires t w).1 !! t = None)
       ∧ (∀ t' ms, timers w !! t' = Some (ConfirmTimeoutCb p, ms) →
                   t' = t ∧ confirmPromises w !! p = Some Pending)
       ∧ (∀ s inputs w' fx,
            confirmPromises w !! p = Some s → s ≠ Pending →
            run inputs w = Ok (w', fx) →
            confirmPromises w' !! p = Some s
            ∧ DataListener t p ∈ listeners (device w'))).
Proof.
  intros Hreach.
  destruct (reachable_rf_inv w Hreach) as [Is Ic].
  destruct (reachable_armed w Hreach) as (_ & _ & _ & Ps & Pc & _).
  split.
  - intros t p Hlis. split; [|split].
    + intros Hpend. pose proof (Ps t p Hlis Hpend) as Hset.
      split; [done|]. split; [|split].
      * intros success. unfold emit.
        destruct (call_listeners_sweep success (listeners (device w)) w
                    [Emitted (EvSweep success)])
          as (_ & _ & _ & _ & -> & Hin & _).
        assert ((t, p) ∈ omap sweep_target (listeners (device w))) as Htarget
          by (by apply elem_of_sweep_targets).
        split; [|by apply Hin, (target_timer t p)].
        replace (if success then Fulfilled ()
                 else Rejected "The RF sweep was not successful")
          with (if negb success then Rejected "The RF sweep was not successful"
                else Fulfilled () : settlement ()) by (by destruct success).
        apply settle_all_settles; [by destruct success|done|].
        by apply (target_promise t).
      * destruct (timer_fires_set t _ _ w Hset) as (_ & _ & _ & -> & _).
        by apply settle_pending.
      * destruct (timer_fires_set t _ _ w Hset) as (_ & _ & -> & _).
        apply lookup_delete_eq.
    + intros t' ms Hset.
      assert (v_timeout (sweep_view w) t' = Some p) as Hv by (cbn; by rewrite Hset).
      split.
      * apply (mi_listener_timer _ Is t t' p); [|done].
        by apply elem_of_sweep_targets.
      * by apply (mi_timer_pending _ Is t' p).
    + intros s inputs w' fx Hs Hne Hrun. split.
      * by eapply run_sweep_stable.
      * by eapply run_sweep_listener.
  - intros t p Hlis. split; [|split].
    + intros Hpend. pose proof (Pc t p Hlis Hpend) as Hset.
      split; [done|]. split; [|split].
      * intros buf. unfold emit.
        destruct (call_listeners_data buf (listeners (device w)) w
                    [Emitted (EvData buf)])
          as (_ & _ & _ & _ & -> & Hin & _).
        assert ((t, p) ∈ omap confirm_target (listeners (device w))) as Htarget
          by (by apply elem_of_confirm_targets).
        split; [|by apply Hin, (target_timer t p)].
        apply settle_all_settles; [done|done|]. by apply (target_promise t).
      * destruct (timer_fires_set t _ _ w Hset) as (_ & _ & _ & _ & ->).
        by apply settle_pending.
      * destruct (timer_fires_set t _ _ w Hset) as (_ & _ & -> & _).
        apply lookup_delete_eq.
    + intros t' ms Hset.
      assert (v_timeout (confirm_view w) t' = Some p) as Hv by (cbn; by rewrite Hset).
      split.
      * apply (mi_listener_timer _ Ic t t' p); [|done].
        by apply elem_of_confirm_targets.
      * by apply (mi_timer_pending _ Ic t' p).
    + intros s inputs w' fx Hs Hne Hrun. split.
      * by eapply run_confirm_stable.
      * by eapply run_confirm_listener.
Qed.

(** * The rest of the code *)

(** ** Encryption and decryption of a payload *)

Lemma xor_bytes_cancel (a b : Buffer) :
  (length a ≤ length b)%nat → xor_bytes (xor_bytes a b) b = a.
Proof.
  unfold xor_bytes. revert b. induction a as [|x a IH]; intros [|y b] Hlen;
    simpl in *; try done; try lia.
  rewrite IH by lia. f_equal.
  by rewrite Z.lxor_assoc, Z.lxor_nilpotent, Z.lxor_0_r.
Qed.

Lemma cbc_roundtrip key previous blocks :
  block_sized aes_encrypt_block →
  inverse_blocks aes_encrypt_block aes_decrypt_block →
  length key = 16%nat → length previous = 16%nat →
  Forall (fun block => length block = 16%nat) blocks →
  cbc_decrypt key previous (cbc_encrypt key previous blocks) = blocks.
Proof.
  intros Hsized Hinv Hkey. revert previous.
  induction blocks as [|block blocks IH]; intros previous Hprev Hblocks; [done|].
  apply Forall_cons in Hblocks as [Hblock Hblocks]. simpl.
  assert (length (xor_bytes block previous) = 16%nat) as Hx
    by (unfold xor_bytes; rewrite length_zip_with; lia).
  rewrite Hinv, xor_bytes_cancel by (done || lia).
  rewrite IH; [done| |done]. by apply Hsized.
Qed.

Lemma complete_blocks_cons (block rest : Buffer) :
  length block = 16%nat →
  complete_blocks (block ++ rest) = block :: complete_blocks rest.
Proof.
  intros Hblock. unfold complete_blocks.
  rewrite length_app, Hblock.
  replace ((16 + length rest) / 16)%nat with (S (length rest / 16))
    by (change 16%nat with (1 * 16)%nat at 2; by rewrite Nat.div_add_l).
  cbn [seq fmap list_fmap]. f_equal.
  - by rewrite drop_0, take_app_length'.
  - rewrite <- fmap_S_seq, <- list_fmap_compose. apply list_fmap_ext.
    intros _ i _. unfold compose. cbv beta. f_equal.
    replace (16 * S i)%nat with (16 + 16 * i)%nat by lia.
    by rewrite drop_app_add'.
Qed.

Lemma complete_blocks_concat (blocks : list Buffer) :
  Forall (fun block => length block = 16%nat) blocks →
  complete_blocks (concat blocks) = blocks.
Proof.
  induction 1 as [|block blocks Hblock _ IH]; [done|].
  simpl. by rewrite complete_blocks_cons, IH.
Qed.

Lemma concat_complete_blocks (data : Buffer) :
  concat (complete_blocks data) = take (16 * (length data / 16)) data.
Proof.
  remember (length data / 16)%nat as n eqn:Hn. revert data Hn.
  induction n as [|n IH]; intros data Hn.
  - unfold complete_blocks. by rewrite <- Hn.
  - pose proof (Nat.div_mod_eq (length data) 16) as Hdiv.
    rewrite <- (take_drop 16 data) at 1.
    rewrite complete_blocks_cons by (rewrite length_take; lia).
    cbn [concat]. rewrite IH.
    + rewrite <- (take_drop 16 data) at 3.
      replace (16 * S n)%nat with (length (take 16 data) + 16 * n)%nat
        by (rewrite length_take; lia).
      by rewrite take_app_add.
    + rewrite length_drop.
      replace (length data - 16)%nat with (length data `mod` 16 + n * 16)%nat by lia.
      rewrite Nat.div_add by done. rewrite Nat.div_small; [done|].
      by apply Nat.mod_upper_bound.
Qed.

Lemma decipher_cipher key iv data :
  block_sized aes_encrypt_block →
  inverse_blocks aes_encrypt_block aes_decrypt_block →
  length key = 16%nat → length iv = 16%nat →
  decipher_update_final key iv (cipher_update key iv data)
  = Ok (take (16 * (length data / 16)) data).
Proof.
  intros Hsized Hinv Hkey Hiv. unfold decipher_update_final.
  rewrite length_cipher_update by done.
  rewrite decide_True by (by rewrite Nat.mul_comm, Nat.Div0.mod_mul).
  f_equal. unfold cipher_update.
  destruct (cbc_encrypt_sized key iv (complete_blocks data) Hsized Hkey Hiv
              (complete_blocks_sized data)) as [Hblocks _].
  rewrite complete_blocks_concat by done.
  rewrite cbc_roundtrip by (done || apply complete_blocks_sized).
  apply concat_complete_blocks.
Qed.

(** X1: with a block cipher whose decryption undoes its encryption, what
    [sendPacket] appends to the header decrypts, under the key and iv of the
    session, to the payload cut to its complete 16-byte blocks: to the whole
    payload when its length is a multiple of 16. *)
Theorem sent_payload_decrypts_to_itself :
  block_sized aes_encrypt_block →
  inverse_blocks aes_encrypt_block aes_decrypt_block →
  ∀ command payload d,
    length (key d) = 16%nat → length (iv d) = 16%nat →
    ∃ d' packet,
      sendPacket command payload d
      = (d', [Send packet (port (host d)) (address (host d))])
      ∧ decipher_update_final (key d') (iv d') (ciphertext_of packet)
        = Ok (take (16 * (length payload / 16)) payload)
      ∧ ((length payload `mod` 16 = 0)%nat →
         decipher_update_final (key d') (iv d') (ciphertext_of packet) = Ok payload).
Proof.
  intros Hsized Hinv command payload d Hkey Hiv.
  eexists _, _. split; [reflexivity|].
  destruct (command_packet_split command payload
              (set_count (Z.land (count d + 1) 0xffff) d)) as (h & -> & Hh & _).
  cbn [key iv set_count]. unfold ciphertext_of.
  rewrite drop_app_length' by done.
  rewrite decipher_cipher by done. split; [done|].
  intros Haligned. f_equal. apply take_ge.
  pose proof (Nat.div_mod_eq (length payload) 16). lia.
Qed.

(** ** Layout of a command packet *)

Lemma le16_encoded c :
  0 ≤ c < 0x10000 →
  Z.lor (ToUint8 (Z.land c 0xff)) (Z.shiftl (ToUint8 (Z.shiftr c 8)) 8) = c.
Proof.
  intros Hc. rewrite !ToUint8_small.
  - change 0xff with (Z.ones 8). rewrite <- Z.ldiff_ones_r by lia.
    rewrite Z.lor_comm. apply Z.lor_ldiff_and.
  - rewrite Z.shiftr_div_pow2 by lia. change (2 ^ 8) with 256.
    split; [apply Z.div_pos; lia | apply Z.div_lt_upper_bound; lia].
  - rewrite land_ff. apply Z.mod_pos_bound. lia.
Qed.

Lemma command_packet_header command payload d :
  ∃ c : Z,
    take 0x38 (command_packet command payload d)
    = stores [(0x20, Z.land c 0xff); (0x21, Z.shiftr c 8)]
        (stores [(0x34, Z.land (checksum_masked payload) 0xff);
                 (0x35, Z.shiftr (checksum_masked payload) 8)]
           (packet_header command d)).
Proof.
  unfold command_packet. cbv zeta.
  set (h := stores _ (packet_header command d)).
  assert (Hh : length h = 0x38%nat)
    by (unfold h; by rewrite length_stores, length_packet_header).
  set (c := checksum_masked _). exists c. clearbody c.
  unfold stores at 1. cbn [foldl fst snd].
  rewrite !store_app_l.
  - rewrite take_app_length'; [done|]. by rewrite !length_store.
  - rewrite length_store, Hh. change (Z.to_nat 33) with 33%nat. lia.
  - rewrite Hh. change (Z.to_nat 32) with 32%nat. lia.
Qed.

Lemma byteAt_take (b : Buffer) (n : nat) (i : Z) :
  0 ≤ i → (Z.to_nat i < n)%nat → byteAt b i = byteAt (take n b) i.
Proof.
  intros Hi Hlt. unfold byteAt. by rewrite lookup_take_lt.
Qed.

(** X2: the header of every packet of [sendPacket]: the eight magic bytes,
    a zero error field, the device-type marker 0x2a 0x27, the command byte,
    the six identity bytes in reverse order, the four bytes of the session
    id, and at offsets 0x34 and 0x35 the little-endian wraparound checksum of
    the payload before encryption. *)
Theorem command_packet_layout command payload d :
  ∃ d' packet,
    sendPacket command payload d
    = (d', [Send packet (port (host d)) (address (host d))])
    ∧ take 8 packet = [0x5a; 0xa5; 0xaa; 0x55; 0x5a; 0xa5; 0xaa; 0x55]
    ∧ le16 packet 0x22 = 0
    ∧ byteAt packet 0x24 = 0x2a ∧ byteAt packet 0x25 = 0x27
    ∧ byteAt packet 0x26 = command mod 256
    ∧ byteAt packet <$> [0x2a; 0x2b; 0x2c; 0x2d; 0x2e; 0x2f]
      = (fun i => byteAt (mac d) i mod 256) <$> [5; 4; 3; 2; 1; 0]
    ∧ byteAt packet <$> [0x30; 0x31; 0x32; 0x33]
      = (fun i => byteAt (id d) i mod 256) <$> [0; 1; 2; 3]
    ∧ le16 packet 0x34 = wraparound_checksum payload.
Proof.
  eexists _, _. split; [reflexivity|].
  set (d' := set_count _ d).
  destruct (command_packet_header command payload d') as [c Hhead].
  assert (Hbyte : ∀ i, 0 ≤ i → (Z.to_nat i < 0x38)%nat →
            byteAt (command_packet command payload d') i
            = byteAt (stores [(0x20, Z.land c 0xff); (0x21, Z.shiftr c 8)]
                        (stores [(0x34, Z.land (checksum_masked payload) 0xff);
                                 (0x35, Z.shiftr (checksum_masked payload) 8)]
                           (packet_header command d'))) i).
  { intros i Hi Hlt. rewrite <- Hhead. by apply byteAt_take. }
  assert (Hc : 0 ≤ checksum_masked payload < 0x10000)
    by (rewrite checksum_masked_reference; apply wraparound_checksum_range).
  set (c1 := checksum_masked payload) in *.
  assert (Hc1 : c1 = wraparound_checksum payload) by apply checksum_masked_reference.
  clearbody c1.
  split.
  { rewrite <- (take_take _ 8 0x38), Hhead. reflexivity. }
  unfold le16. cbn [fmap list_fmap].
  rewrite !Hbyte by lia.
  split; [reflexivity|]. split; [reflexivity|]. split; [reflexivity|].
  split; [reflexivity|]. split; [reflexivity|]. split; [reflexivity|].
  rewrite <- Hc1. etrans; [|apply (le16_encoded c1 Hc)]. reflexivity.
Qed.

(** ** The packets of the command dispatcher *)

Lemma sendPacket_template opcode prompt d :
  block_sized aes_encrypt_block →
  inverse_blocks aes_encrypt_block aes_decrypt_block →
  length (key d) = 16%nat → length (iv d) = 16%nat →
  is_byte opcode →
  sends_command opcode prompt d
    ((sendPacket 0x6a (store 0 opcode (Buffer_alloc 16)) d).1,
     prompt ++ (sendPacket 0x6a (store 0 opcode (Buffer_alloc 16)) d).2).
Proof.
  intros Hsized Hinv Hkey Hiv Hop. eexists. split; [reflexivity|].
  set (d' := set_count _ d). set (payload := store 0 opcode (Buffer_alloc 16)).
  assert (Hpayload : payload = opcode :: replicate 15 0).
  { unfold payload, store. cbn. by rewrite ToUint8_small. }
  assert (Hlen : length payload = 16%nat) by (by rewrite Hpayload).
  destruct (command_packet_split 0x6a payload d') as (h & -> & Hh & Hlook).
  split; [|split].
  - rewrite length_app, Hh, length_cipher_update, Hlen by done. done.
  - apply byteAt_lookup; [lia|].
    rewrite lookup_app_l by (rewrite Hh; simpl; lia).
    by rewrite Hlook by reflexivity.
  - unfold ciphertext_of. rewrite drop_app_length' by done.
    change (key d') with (key d). change (iv d') with (iv d).
    rewrite decipher_cipher by done. rewrite Hlen.
    by rewrite <- Hpayload, take_ge by (rewrite Hlen; done).
Qed.

(** X3: every method of the command dispatcher that sends, sends one
    datagram of 72 bytes to the host of the session, with outer command byte
    0x6a, and its ciphertext decrypts to the operation code followed by 15
    zero bytes: 4, 3, 1 and 0x1e for [checkData], [enterLearning],
    [checkTemperature] and [cancelLearn]; on an RF-capable session 0x19,
    0x1a, 0x1b and 0x1e for [enterRFSweep], [checkRFSweep], [findRFPacket]
    and [cancelRFSweep], the first and third after their prompt line.
    Cancelling a learning and cancelling an RF sweep put the same packet on
    the wire. *)
Theorem dispatcher_commands :
  block_sized aes_encrypt_block →
  inverse_blocks aes_encrypt_block aes_decrypt_block →
  ∀ d,
    length (key d) = 16%nat → length (iv d) = 16%nat →
    (sends_command 4 [] d (checkData d)
     ∧ sends_command 3 [] d (enterLearning d)
     ∧ sends_command 1 [] d (checkTemperature d)
     ∧ sends_command 0x1e [] d (cancelLearn d))
    ∧ (capabilites_RF d = true →
       sends_command 0x19 [Log LongPressPrompt] d (enterRFSweep d)
       ∧ sends_command 0x1a [] d (checkRFSweep d)
       ∧ sends_command 0x1b [Log ShortPressPrompt] d (findRFPacket d)
       ∧ sends_command 0x1e [] d (cancelRFSweep d)
       ∧ cancelRFSweep d = cancelLearn d).
Proof.
  intros Hsized Hinv d Hkey Hiv.
  assert (Htemplate : ∀ opcode prompt, is_byte opcode →
            sends_command opcode prompt d
              ((sendPacket 0x6a (store 0 opcode (Buffer_alloc 16)) d).1,
               prompt ++ (sendPacket 0x6a (store 0 opcode (Buffer_alloc 16)) d).2))
    by (intros; by apply sendPacket_template).
  split.
  - repeat split; apply (Htemplate _ []); unfold is_byte; lia.
  - intros Hrf. unfold enterRFSweep, checkRFSweep, findRFPacket, cancelRFSweep.
    rewrite Hrf. cbn [negb].
    split; [apply (Htemplate _ [Log LongPressPrompt]); unfold is_byte; lia|].
    split; [apply (Htemplate _ []); unfold is_byte; lia|].
    split; [apply (Htemplate _ [Log ShortPressPrompt]); unfold is_byte; lia|].
    split; [apply (Htemplate _ []); unfold is_byte; lia|done].
Qed.

(** ** What the checksum detects *)

Lemma sum_insert (b : Buffer) (i : nat) x y :
  b !! i = Some x → foldr Z.add 0 (<[i := y]> b) = foldr Z.add 0 b - x + y.
Proof.
  revert i. induction b as [|z b IH]; intros [|i] Hi; simpl in *; try done.
  - injection Hi as ->. lia.
  - rewrite (IH i Hi). lia.
Qed.

Lemma sum_permutation (b b' : Buffer) :
  b ≡ₚ b' → foldr Z.add 0 b = foldr Z.add 0 b'.
Proof. induction 1; simpl; lia. Qed.

(** X4: the wraparound checksum, as both loops of the source compute it,
    changes whenever one byte of the buffer is replaced by a different byte,
    and does not change when the bytes are reordered. *)
Theorem checksum_detection :
  (∀ (b : Buffer) (i : nat) x y,
     b !! i = Some x → is_byte x → is_byte y → x ≠ y →
     checksum_masked (<[i := y]> b) ≠ checksum_masked b
     ∧ checksum_summed (<[i := y]> b) ≠ checksum_summed b)
  ∧ (∀ b b' : Buffer,
       b ≡ₚ b' →
       checksum_masked b = checksum_masked b'
       ∧ checksum_summed b = checksum_summed b').
Proof.
  split.
  - intros b i x y Hi Hx Hy Hne.
    rewrite !checksum_masked_reference, !checksum_summed_reference.
    assert (wraparound_checksum (<[i := y]> b) ≠ wraparound_checksum b); [|done].
    unfold wraparound_checksum. rewrite (sum_insert b i x y Hi).
    unfold is_byte in *. intros Heq.
    set (s := foldr Z.add 0 b) in *. clearbody s.
    assert ((y - x) mod 0x10000 = 0) as Hmod.
    { replace (y - x) with ((48815 + (s - x + y)) - (48815 + s)) by lia.
      rewrite Zminus_mod, Heq, Z.sub_diag. done. }
    apply Z.mod_divide in Hmod; [|lia]. destruct Hmod as [k Hk]. lia.
  - intros b b' Hperm.
    rewrite !checksum_masked_reference, !checksum_summed_reference.
    unfold wraparound_checksum. by rewrite (sum_permutation b b' Hperm).
Qed.

(** ** Identities and registry keys *)

Lemma hex_value_digit n : 0 ≤ n < 16 → hex_value (hex_digit n) = n.
Proof.
  intros Hn.
  assert (n = 0 ∨ n = 1 ∨ n = 2 ∨ n = 3 ∨ n = 4 ∨ n = 5 ∨ n = 6 ∨ n = 7
          ∨ n = 8 ∨ n = 9 ∨ n = 10 ∨ n = 11 ∨ n = 12 ∨ n = 13 ∨ n = 14 ∨ n = 15)
    as H by lia.
  repeat destruct H as [->|H]; try reflexivity. by subst.
Qed.

Lemma from_hex_toString (b : Buffer) :
  Forall is_byte b → from_hex (toString_hex b) = b.
Proof.
  induction 1 as [|x b Hx _ IH]; [done|].
  cbn [toString_hex foldr from_hex]. fold (toString_hex b). rewrite IH.
  unfold is_byte in Hx.
  rewrite !hex_value_digit.
  - f_equal. pose proof (Z.div_mod x 16). lia.
  - apply Z.mod_pos_bound. lia.
  - split; [apply Z.div_pos; lia | apply Z.div_lt_upper_bound; lia].
Qed.

Lemma length_toString_hex (b : Buffer) :
  String.length (toString_hex b) = (2 * length b)%nat.
Proof.
  induction b as [|x b IH]; [done|].
  cbn [toString_hex foldr String.length]. fold (toString_hex b). rewrite IH.
  simpl. lia.
Qed.

Lemma Buffer_copy_bytes source target tS sS sE result :
  Forall is_byte source → Forall is_byte target →
  Buffer_copy source target tS sS sE = Ok result → Forall is_byte result.
Proof.
  intros Hs Ht. unfold Buffer_copy. repeat case_decide; intros [= <-]; [done|].
  repeat apply Forall_app_2; auto using Forall_take, Forall_drop.
Qed.

Lemma macAddressBuffer_bytes message mac :
  Forall is_byte message → macAddressBuffer message = Ok mac →
  Forall is_byte mac ∧ length mac = 6%nat.
Proof.
  intros Hm. unfold macAddressBuffer, Buffer_copy_from. res_simpl.
  assert (Forall is_byte (Buffer_alloc 6)) as H0
    by (apply Forall_replicate; unfold is_byte; lia).
  destruct (Buffer_copy message (Buffer_alloc 6) _ _ _) as [m1|] eqn:H1; [res_simpl|done].
  destruct (Buffer_copy message m1 _ _ _) as [m2|] eqn:H2; [res_simpl|done].
  destruct (Buffer_copy message m2 _ _ _) as [m3|] eqn:H3; [res_simpl|done].
  destruct (Buffer_copy message m3 _ _ _) as [m4|] eqn:H4; [res_simpl|done].
  destruct (Buffer_copy message m4 _ _ _) as [m5|] eqn:H5; [res_simpl|done].
  intros H6. split.
  - pose proof (Buffer_copy_bytes _ _ _ _ _ _ Hm H0 H1) as B1.
    pose proof (Buffer_copy_bytes _ _ _ _ _ _ Hm B1 H2) as B2.
    pose proof (Buffer_copy_bytes _ _ _ _ _ _ Hm B2 H3) as B3.
    pose proof (Buffer_copy_bytes _ _ _ _ _ _ Hm B3 H4) as B4.
    pose proof (Buffer_copy_bytes _ _ _ _ _ _ Hm B4 H5) as B5.
    exact (Buffer_copy_bytes _ _ _ _ _ _ Hm B5 H6).
  - rewrite (length_Buffer_copy _ _ _ _ _ _ H6), (length_Buffer_copy _ _ _ _ _ _ H5),
      (length_Buffer_copy _ _ _ _ _ _ H4), (length_Buffer_copy _ _ _ _ _ _ H3),
      (length_Buffer_copy _ _ _ _ _ _ H2), (length_Buffer_copy _ _ _ _ _ _ H1).
    done.
Qed.

(** X5: the hex string used as registry key has two characters per byte
    and reads back to the identity bytes, so different identities have
    different keys; a reply whose identity differs from every registered one
    is therefore never dropped as a duplicate: it goes on to the
    classification of its type id. *)
Theorem identities_have_their_own_keys :
  (∀ b : Buffer,
     Forall is_byte b →
     from_hex (toString_hex b) = b
     ∧ String.length (toString_hex b) = (2 * length b)%nat)
  ∧ (∀ b1 b2 : Buffer,
       Forall is_byte b1 → Forall is_byte b2 →
       toString_hex b1 = toString_hex b2 → b1 = b2)
  ∧ (∀ message host random b mac,
       Forall is_byte message →
       macAddressBuffer message = Ok mac →
       (∀ k session, devices b !! k = Some session →
                     ∃ known, Forall is_byte known ∧ k = toString_hex known
                              ∧ known ≠ mac) →
       onMessage message host random b
       = Ok ((addDevice host mac (le16 message 0x34) random b).1,
             Log (Discovered (toString_hex mac) (le16 message 0x34))
               :: (addDevice host mac (le16 message 0x34) random b).2)).
Proof.
  assert (Hinj : ∀ b1 b2 : Buffer,
            Forall is_byte b1 → Forall is_byte b2 →
            toString_hex b1 = toString_hex b2 → b1 = b2).
  { intros b1 b2 H1 H2 Heq.
    rewrite <- (from_hex_toString b1 H1), <- (from_hex_toString b2 H2).
    by rewrite Heq. }
  split; [|split; [exact Hinj|]].
  - intros b Hb. split; [by apply from_hex_toString | apply length_toString_hex].
  - intros message host random b mac Hbytes Hmac Hothers.
    destruct (macAddressBuffer_bytes message mac Hbytes Hmac) as [Hmacb _].
    unfold onMessage. rewrite Hmac. res_simpl.
    destruct (devices b !! toString_hex mac) as [session|] eqn:Hknown.
    + destruct (Hothers _ _ Hknown) as (known & Hk & Heq & Hne).
      destruct Hne. symmetry. by apply Hinj.
    + unfold le16. cbn [Z.add Pos.add Pos.succ].
      by destruct (addDevice host mac _ random b).
Qed.

(** ** The identity of a reply *)

Lemma Buffer_copy_from_throws source target tS sS :
  (length source < sS)%nat → Buffer_copy_from source target tS sS = Throws.
Proof. intros H. unfold Buffer_copy_from, Buffer_copy. by rewrite decide_True. Qed.

(** [copy] without a source end, byte by byte. *)
Lemma Buffer_copy_from_lookup source target tS sS :
  (sS ≤ length source)%nat →
  ∃ r, Buffer_copy_from source target tS sS = Ok r
       ∧ length r = length target
       ∧ ∀ i, r !! i
              = if decide (tS ≤ i < length target ∧ sS + (i - tS) < length source)%nat
                then source !! (sS + (i - tS))%nat else target !! i.
Proof.
  intros Hs. unfold Buffer_copy_from, Buffer_copy. rewrite decide_False by lia.
  case_decide as Hskip.
  { exists target. split; [done|]. split; [done|].
    intros i. rewrite decide_False; [done|lia]. }
  eexists. split; [reflexivity|].
  set (n := ((length source - sS) `min` (length target - tS))%nat).
  assert (length (take n (drop sS source)) = n) as Hrun
    by (rewrite length_take, length_drop; lia).
  rewrite Hrun. split.
  { rewrite !length_app, length_take, length_drop, Hrun. lia. }
  intros i. case_decide as Hi.
  - rewrite lookup_app_r by (rewrite length_take; lia).
    rewrite length_take, lookup_app_l by (rewrite ?Hrun, ?length_take; lia).
    rewrite lookup_take_lt by lia. rewrite lookup_drop. f_equal. lia.
  - destruct (decide (i < tS)%nat) as [Hlt|Hge].
    { rewrite lookup_app_l by (rewrite length_take; lia). by rewrite lookup_take_lt. }
    rewrite lookup_app_r by (rewrite length_take; lia).
    rewrite length_take.
    destruct (decide (i < length target)%nat) as [Hin|Hout].
    + rewrite lookup_app_r by (rewrite Hrun; lia).
      rewrite Hrun, lookup_drop. f_equal. lia.
    + rewrite (lookup_ge_None_2 target i) by lia.
      apply lookup_ge_None_2.
      rewrite length_app, Hrun, length_drop. lia.
Qed.

Lemma lookup_byteAt (b : Buffer) (i : nat) z :
  z = Z.of_nat i → (i < length b)%nat → b !! i = Some (byteAt b z).
Proof.
  intros -> Hi. destruct (lookup_lt_is_Some_2 b i Hi) as [x Hx].
  rewrite Hx. f_equal. symmetry. apply byteAt_lookup; [lia|]. by rewrite Nat2Z.id.
Qed.

Lemma byteAt_beyond (b : Buffer) z : Z.of_nat (length b) ≤ z → byteAt b z = 0.
Proof.
  intros Hz. unfold byteAt. destruct (Z.ltb_spec z 0); [done|].
  by rewrite lookup_ge_None_2 by lia.
Qed.

(** X6: the identity of a discovery reply.  A reply shorter than 63 bytes
    makes one of the six [copy] calls throw, so the handler throws before it
    looks at the registry; for every longer reply the six overlapping copies
    leave exactly the bytes at offsets 0x3D, 0x3E, 0x3F, 0x3C, 0x3B and 0x3A,
    in this order, where a reply of exactly 63 bytes has 0 in the third
    place. *)
Theorem reply_identity (message : Buffer) :
  ((length message < 0x3F)%nat →
     macAddressBuffer message = Throws
     ∧ ∀ host random b, onMessage message host random b = Throws)
  ∧ ((0x3F ≤ length message)%nat →
       macAddressBuffer message
       = Ok (byteAt message <$> [0x3D; 0x3E; 0x3F; 0x3C; 0x3B; 0x3A])).
Proof.
  split.
  - intros Hshort.
    assert (macAddressBuffer message = Throws) as Hthrows.
    { unfold macAddressBuffer.
      destruct (decide (length message < 0x3D)%nat) as [H1|H1].
      { by rewrite Buffer_copy_from_throws. }
      destruct (Buffer_copy_from_lookup message (Buffer_alloc 6) 0 0x3D)
        as (m1 & -> & _); [lia|res_simpl].
      destruct (decide (length message < 0x3E)%nat) as [H2|H2].
      { by rewrite Buffer_copy_from_throws. }
      destruct (Buffer_copy_from_lookup message m1 1 0x3E)
        as (m2 & -> & _); [lia|res_simpl].
      by rewrite Buffer_copy_from_throws. }
    split; [done|]. intros host random b. unfold onMessage. by rewrite Hthrows.
  - intros Hlong. unfold macAddressBuffer.
    destruct (Buffer_copy_from_lookup message (Buffer_alloc 6) 0 0x3D)
      as (m1 & -> & L1 & K1); [lia|res_simpl].
    destruct (Buffer_copy_from_lookup message m1 1 0x3E)
      as (m2 & -> & L2 & K2); [lia|res_simpl].
    destruct (Buffer_copy_from_lookup message m2 2 0x3F)
      as (m3 & -> & L3 & K3); [lia|res_simpl].
    destruct (Buffer_copy_from_lookup message m3 3 0x3C)
      as (m4 & -> & L4 & K4); [lia|res_simpl].
    destruct (Buffer_copy_from_lookup message m4 4 0x3B)
      as (m5 & -> & L5 & K5); [lia|res_simpl].
    destruct (Buffer_copy_from_lookup message m5 5 0x3A)
      as (m6 & -> & L6 & K6); [lia|].
    change (length (Buffer_alloc 6)) with 6%nat in *.
    rewrite L1 in L2, K2. rewrite L2 in L3, K3. rewrite L3 in L4, K4.
    rewrite L4 in L5, K5. rewrite L5 in K6. clear L1 L2 L3 L4 L5 L6.
    f_equal. apply list_eq. intros i. cbn [fmap list_fmap].
    assert (Hzero : ∀ j, (j < 6)%nat → Buffer_alloc 6 !! j = Some 0).
    { intros j Hj. by apply lookup_replicate_2. }
    destruct i as [|[|[|[|[|[|i]]]]]];
      lazymatch goal with
      | |- _ = ?r => let r' := eval cbn [lookup list_lookup] in r in change r with r'
      end;
      rewrite K6; case_decide; try lia; try (apply lookup_byteAt; lia);
      rewrite K5; case_decide; try lia; try (apply lookup_byteAt; lia);
      rewrite K4; case_decide; try lia; try (apply lookup_byteAt; lia);
      rewrite K3; case_decide; try lia; try (apply lookup_byteAt; lia);
      rewrite K2; case_decide; try lia; try (apply lookup_byteAt; lia);
      rewrite K1; case_decide; try lia; try (apply lookup_byteAt; lia).
    + rewrite Hzero by lia. f_equal. symmetry. apply byteAt_beyond. lia.
    + transitivity (@None Z); [apply lookup_ge_None_2; change (length (Buffer_alloc 6)) with 6%nat; lia | by destruct i].
Qed.

(** ** Replies of the device *)

Lemma emit_unheard n w : unheard n → emit n w = (w, [Emitted n]).
Proof.
  intros Hn. unfold emit, call_listeners.
  generalize [Emitted n]. induction (listeners (device w)) as [|l ls IH]; intros fx.
  - done.
  - cbn [foldl fst snd].
    replace (run_listener n w l) with (w, [] : list effect)
      by (by destruct l, n).
    rewrite app_nil_r. apply IH.
Qed.

Lemma response_ciphertext (response : Buffer) :
  (0x38 ≤ length response)%nat →
  (encryptedPayload ← Buffer_alloc_size (Z.of_nat (length response) - 0x38);
   Buffer_copy_from response encryptedPayload 0 0x38)
  = Ok (drop 0x38 response).
Proof.
  intros Hlen. unfold Buffer_alloc_size.
  destruct (Z.ltb_spec (Z.of_nat (length response) - 0x38) 0); [lia|]. res_simpl.
  by apply (Buffer_copy_from_tail response 0x38).
Qed.

(** X7: a datagram shorter than the 0x38-byte header makes the message
    handler throw, whatever it holds; a longer one whose error field (offsets
    0x22 and 0x23, little-endian) is not zero is announced as a data error
    and nothing else happens: it is not decrypted, the session and its
    learning sequences stay as they are, nothing is sent. *)
Theorem error_reply_is_only_announced (response : Buffer) (w : World) :
  ((length response < 0x38)%nat → onResponse response w = Throws)
  ∧ ((0x38 ≤ length response)%nat →
     le16 response 0x22 ≠ 0 →
     onResponse response w
     = Ok (w, [Emitted (EvDataError (le16 response 0x22))])).
Proof.
  split.
  - intros Hshort. unfold onResponse, onResponse_by, Buffer_alloc_size.
    by destruct (Z.ltb_spec (Z.of_nat (length response) - 0x38) 0); [|lia].
  - intros Hlen Herr. unfold onResponse, onResponse_by.
    pose proof (response_ciphertext response Hlen) as Hcipher.
    destruct (Buffer_alloc_size _) as [e0|]; [|done]. revert Hcipher. res_simpl.
    intros ->. res_simpl.
    change (Z.lor (byteAt response 0x22) (Z.shiftl (byteAt response 0x23) 8))
      with (le16 response 0x22).
    destruct (Z.eqb_spec (le16 response 0x22) 0) as [|_]; [done|].
    cbn [negb]. by rewrite emit_unheard.
Qed.

(** X8: what the payload handler makes of a decrypted payload.  With fewer
    than 4 bytes the allocation of the data buffer throws.  Otherwise the
    first byte selects: 1 announces the temperature, which is the double
    [(payload[4] * 10 + payload[5]) / 10.0] when the payload has at least 6
    bytes and NaN when it has only 4 or 5, since a byte read past the end is
    undefined; 4 announces the payload without its first 4 bytes as data; 26
    announces whether byte 4 is 1 as the sweep result; 27 announces the
    single byte 4 as RF data; every other value is dropped in silence.  The
    error code passed in is not looked at, and the temperature and RF data
    notifications reach no listener of the module, so they change nothing. *)
Theorem payload_dispatch (err : Z) (payload : Buffer) (w : World) :
  ((length payload < 4)%nat → onPayloadReceived err payload w = Throws)
  ∧ ((4 ≤ length payload)%nat →
     onPayloadReceived err payload w
     = Ok (if byteAt payload 0 =? 1 then
             (w, [Emitted (EvTemperature (temperature_of payload))])
           else if byteAt payload 0 =? 4 then emit (EvData (drop 4 payload)) w
           else if byteAt payload 0 =? 26 then
             emit (EvSweep (bool_decide (byteAt payload 4 = 1))) w
           else if byteAt payload 0 =? 27 then
             (w, [Emitted (EvRfData [byteAt payload 4])])
           else (w, [])))
  ∧ ((length payload < 6)%nat → temperature_of payload = NaN)
  ∧ ((6 ≤ length payload)%nat →
     temperature_of payload
     = Tenths (byteAt payload 4 * 10 + byteAt payload 5)).
Proof.
  split; [|split; [|split]].
  - intros Hshort. unfold onPayloadReceived, onPayloadReceived_by, Buffer_alloc_size.
    by destruct (Z.ltb_spec (Z.of_nat (length payload) - 4) 0); [|lia].
  - intros Hlen. unfold onPayloadReceived, onPayloadReceived_by.
    assert (Buffer_alloc_size (Z.of_nat (length payload) - 4)
            = Ok (Buffer_alloc (Z.of_nat (length payload) - 4))) as ->.
    { unfold Buffer_alloc_size.
      by destruct (Z.ltb_spec (Z.of_nat (length payload) - 4) 0); [lia|]. }
    res_simpl.
    pose proof (Buffer_copy_from_tail payload 4 Hlen) as Htail.
    change (Z.of_nat 4) with 4 in Htail. rewrite Htail. res_simpl.
    assert (Buffer_copy_from payload (Buffer_alloc 1) 0 4 = Ok [byteAt payload 4])
      as Hone.
    { destruct (Buffer_copy_from_lookup payload (Buffer_alloc 1) 0 4 Hlen)
        as (r & -> & Hr & Hi).
      change (length (Buffer_alloc 1)) with 1%nat in Hi.
      f_equal. apply list_eq. intros [|i]; rewrite Hi; case_decide as Hc.
      - cbn [lookup list_lookup]. apply lookup_byteAt; [done|lia].
      - cbn [lookup list_lookup]. change (Buffer_alloc 1) with [0].
        cbn [lookup list_lookup]. f_equal. symmetry. apply byteAt_beyond. lia.
      - lia.
      - done. }
    repeat case_match; res_simpl; rewrite ?Hone; res_simpl;
      rewrite ?emit_unheard by done; try done.
  - intros Hshort. unfold temperature_of.
    assert (payload !! 5%nat = None) as -> by (apply lookup_ge_None_2; lia).
    by destruct (payload !! 4%nat).
  - intros Hlen. unfold temperature_of.
    destruct (lookup_lt_is_Some_2 payload 4 ltac:(lia)) as [tens Ht].
    destruct (lookup_lt_is_Some_2 payload 5 ltac:(lia)) as [units Hu].
    rewrite Ht, Hu. unfold byteAt. cbn [Z.to_nat Pos.to_nat Pos.iter_op Nat.add].
    change (Z.to_nat 4) with 4%nat. change (Z.to_nat 5) with 5%nat.
    by rewrite ?Ht, ?Hu.
Qed.

(** X9: a reply round trip.  When the device encrypts a payload of whole
    blocks under the key and iv of the session and sends it behind a header
    with error code 0, the message handler recovers exactly that payload: a
    reply with command byte 0xee or 0xef is handled as the payload handler
    handles the plaintext, and a reply with any command byte other than 0xe9,
    0xee and 0xef only logs the unknown command. *)
Theorem reply_payload_round_trip (header data : Buffer) (w : World) :
  block_sized aes_encrypt_block →
  inverse_blocks aes_encrypt_block aes_decrypt_block →
  length (key (device w)) = 16%nat → length (iv (device w)) = 16%nat →
  length header = 0x38%nat → le16 header 0x22 = 0 →
  (length data `mod` 16 = 0)%nat →
  let response :=
    header ++ cipher_update (key (device w)) (iv (device w)) data in
  (byteAt header 0x26 = 0xee ∨ byteAt header 0x26 = 0xef →
     onResponse response w = onPayloadReceived 0 data w)
  ∧ (byteAt header 0x26 ≠ 0xe9 → byteAt header 0x26 ≠ 0xee →
     byteAt header 0x26 ≠ 0xef →
     onResponse response w = Ok (w, [Log (UnknownCommand (byteAt header 0x26))])).
Proof.
  intros Hsized Hinv Hkey Hiv Hheader Herr Hblocks response.
  assert (∀ z, 0 ≤ z < 0x38 → byteAt response z = byteAt header z) as Hbyte.
  { intros z Hz. unfold byteAt, response.
    destruct (Z.ltb_spec z 0); [done|].
    by rewrite lookup_app_l by (rewrite Hheader; lia). }
  assert (onResponse response w
          = (payload ← Ok data;
             let command := byteAt header 0x26 in
             if command =? 0xe9 then
               key' ← Buffer_copy payload (Buffer_alloc 0x10) 0 0x04 0x14;
               id' ← Buffer_copy payload (Buffer_alloc 0x04) 0 0x00 0x04;
               Ok (emit (EvDeviceReady (set_key_id key' id' (device w)))
                     (with_device (set_key_id key' id' (device w)) w))
             else if (command =? 0xee) || (command =? 0xef) then
               onPayloadReceived 0 payload w
             else Ok (w, [Log (UnknownCommand command)]))) as ->.
  { unfold onResponse, onResponse_by.
    assert (0x38 ≤ length response)%nat as Hlen
      by (unfold response; rewrite length_app; lia).
    pose proof (response_ciphertext response Hlen) as Hcipher.
    destruct (Buffer_alloc_size _) as [e0|]; [|done]. revert Hcipher. res_simpl.
    intros ->. res_simpl.
    rewrite !Hbyte by lia.
    change (Z.lor (byteAt header 0x22) (Z.shiftl (byteAt header 0x23) 8))
      with (le16 header 0x22).
    rewrite Herr. cbn [Z.eqb negb].
    unfold response. rewrite <- Hheader at 1. rewrite drop_app_length.
    rewrite decipher_cipher by done.
    rewrite take_ge; [done|].
    pose proof (Nat.div_mod_eq (length data) 16). lia. }
  res_simpl. cbv zeta. split.
  - intros [-> | ->]; done.
  - intros H1 H2 H3.
    destruct (Z.eqb_spec (byteAt header 0x26) 0xe9); [done|].
    destruct (Z.eqb_spec (byteAt header 0x26) 0xee); [done|].
    by destruct (Z.eqb_spec (byteAt header 0x26) 0xef).
Qed.

(** ** Layout of the discovery packet *)

Lemma truncate_fraction (n : Z) (d : positive) (k : Z) :
  0 ≤ k → k * Z.pos d ≤ n < (k + 1) * Z.pos d → truncate (n # d) = k.
Proof.
  intros Hk Hn. unfold truncate. cbn [Qnum Qden].
  rewrite Z.quot_div_nonneg by lia.
  symmetry. apply (Z.div_unique n (Z.pos d) k (n - k * Z.pos d)); lia.
Qed.

(** X10: the fields of the discovery packet of [onListening].  The packet
    starts with eight zero bytes and has command byte 6 at offset 0x26; the
    four fields of the local address are at offsets 0x18 to 0x1b and the
    local port, little-endian, at 0x1c and 0x1d; the years since 1900 are at
    0x0c and 0x0d, little-endian.  The time zone field at offsets 0x08 to
    0x0b is computed from [getTimezoneOffset], which counts minutes, divided
    by -3600: for every offset of less than 3600 minutes it holds 0 when the
    offset is not positive, and -3 as a 32-bit little-endian number when it
    is positive, whatever the zone. *)
Theorem discovery_packet_fields (splitIPAddress : list Z) (port : Z) (now : Date) :
  let packet := discovery_packet splitIPAddress port now in
  take 8 packet = replicate 8 0
  ∧ byteAt packet 0x26 = 6
  ∧ byteAt packet <$> [0x18; 0x19; 0x1a; 0x1b]
    = (fun i => byteAt splitIPAddress i mod 256) <$> [0; 1; 2; 3]
  ∧ (0 ≤ port < 0x10000 → le16 packet 0x1c = port)
  ∧ (1900 ≤ getFullYear now < 1900 + 0x10000 →
     le16 packet 0x0c = getFullYear now - 1900)
  ∧ (-3600 < getTimezoneOffset now < 3600 →
     byteAt packet <$> [0x08; 0x09; 0x0a; 0x0b]
     = if 0 <? getTimezoneOffset now then [0xfd; 0xff; 0xff; 0xff] else [0; 0; 0; 0]).
Proof.
  intros packet. subst packet. unfold discovery_packet, storeQ. cbv zeta.
  set (timezone := (inject_Z (getTimezoneOffset now) / inject_Z (-3600))%Q).
  assert (Htz : timezone = Qmake (getTimezoneOffset now * -1) 3600) by reflexivity.
  destruct (Qlt_le_dec timezone 0) as [Hneg|Hpos].
  - split; [reflexivity|]. split; [reflexivity|]. split; [reflexivity|].
    split; [intros Hport; by apply le16_encoded|].
    split; [intros Hyear; apply le16_encoded; lia|].
    intros Hoff. rewrite Htz in Hneg. unfold Qlt in Hneg. cbn in Hneg.
    destruct (Z.ltb_spec 0 (getTimezoneOffset now)); [|lia].
    cbn [fmap list_fmap]. f_equal.
    change (byteAt _ 8 = 253) with
      (ToUint8 (truncate (0xff + timezone - 1)%Q) = 253).
    rewrite Htz.
    assert (truncate (255 + Qmake (getTimezoneOffset now * -1) 3600 - 1) = 253) as ->;
      [|done].
    unfold Qminus, Qplus, Qopp. cbn [Qnum Qden inject_Z].
    apply truncate_fraction; lia.
  - split; [reflexivity|]. split; [reflexivity|]. split; [reflexivity|].
    split; [intros Hport; by apply le16_encoded|].
    split; [intros Hyear; apply le16_encoded; lia|].
    intros Hoff. rewrite Htz in Hpos. unfold Qle in Hpos. cbn in Hpos.
    destruct (Z.ltb_spec 0 (getTimezoneOffset now)); [lia|].
    cbn [fmap list_fmap]. f_equal.
    change (byteAt _ 8 = 0) with (ToUint8 (truncate timezone) = 0).
    rewrite Htz.
    assert (truncate (Qmake (getTimezoneOffset now * -1) 3600) = 0) as ->; [|done].
    apply truncate_fraction; lia.
Qed.

(** ** What receiving never does *)

Lemma run_listener_quiet n w l :
  Forall (fun e => ¬ is_send e) (run_listener n w l).2
  ∧ count (device (run_listener n w l).1) = count (device w)
  ∧ key (device (run_listener n w l).1) = key (device w)
  ∧ id (device (run_listener n w l).1) = id (device w).
Proof.
  destruct l as [t p|t p|], n; cbn; repeat split; repeat constructor; auto.
Qed.

Lemma call_listeners_quiet n ls w fx0 :
  Forall (fun e => ¬ is_send e) fx0 →
  Forall (fun e => ¬ is_send e) (call_listeners n ls (w, fx0)).2
  ∧ count (device (call_listeners n ls (w, fx0)).1) = count (device w)
  ∧ key (device (call_listeners n ls (w, fx0)).1) = key (device w)
  ∧ id (device (call_listeners n ls (w, fx0)).1) = id (device w).
Proof.
  unfold call_listeners. revert w fx0.
  induction ls as [|l ls IH]; intros w fx0 H0; [done|].
  cbn [foldl fst snd].
  destruct (run_listener_quiet n w l) as (Hfx & Hc & Hk & Hi).
  destruct (run_listener n w l) as [w1 fx1]. cbn [fst snd] in *.
  destruct (IH w1 (fx0 ++ fx1)) as (? & ? & ? & ?); [by apply Forall_app|].
  repeat split; congruence.
Qed.

Lemma emit_quiet n w :
  Forall (fun e => ¬ is_send e) (emit n w).2
  ∧ count (device (emit n w).1) = count (device w)
  ∧ key (device (emit n w).1) = key (device w)
  ∧ id (device (emit n w).1) = id (device w).
Proof.
  unfold emit. apply call_listeners_quiet. repeat constructor. auto.
Qed.



(** ** The fields of a session over its life *)

Lemma lift_sender_key f w :
  sender f →
  key (device (lift f w).1) = key (device w)
  ∧ id (device (lift f w).1) = id (device w).
Proof.
  intros Hf. rewrite lift_device.
  by destruct (sender_fields f (device w) Hf) as (_ & _ & _ & -> & ->).
Qed.

Lemma timer_fires_key t w :
  key (device (timer_fires t w).1) = key (device w)
  ∧ id (device (timer_fires t w).1) = id (device w).
Proof.
  unfold timer_fires. destruct (timers w !! t) as [[cb ms]|]; [|done].
  destruct cb as [p| |p|]; cbn [run_callback]; try done;
    try (apply (lift_sender_key _ (clearTimeout t w)); auto with senders).
  pose proof (lift_sender_key cancelRFSweep (clearTimeout t w) sender_cancelRFSweep)
    as H.
  by destruct (lift cancelRFSweep _).
Qed.

Lemma sweepFrequency_key w :
  key (device (sweepFrequency w).1.2) = key (device w)
  ∧ id (device (sweepFrequency w).1.2) = id (device w).
Proof.
  unfold sweepFrequency. destruct (sweepHandler (device w)); [done|].
  cbn [setTimeout].
  match goal with |- context [lift enterRFSweep ?w1] =>
    pose proof (lift_sender_key enterRFSweep w1 sender_enterRFSweep) as H;
    destruct (lift enterRFSweep w1) as [w2 fx] end.
  done.
Qed.

Lemma confirmFrequency_key w :
  key (device (confirmFrequency w).1.2) = key (device w)
  ∧ id (device (confirmFrequency w).1.2) = id (device w).
Proof.
  unfold confirmFrequency. destruct (confirmHandler (device w)); [done|].
  cbn [setTimeout].
  match goal with |- context [lift findRFPacket ?w1] =>
    pose proof (lift_sender_key findRFPacket w1 sender_findRFPacket) as H;
    destruct (lift findRFPacket w1) as [w2 fx] end.
  done.
Qed.

Lemma atomic_step_key i w w' fx :
  atomic i → step i w = Ok (w', fx) → (∀ response, i ≠ Datagram response) →
  key (device w') = key (device w) ∧ id (device w') = id (device w).
Proof.
  destruct i; cbn [step atomic]; intros Hat Hstep Hno; revert Hstep;
    try done;
    try (ok_world; apply lift_sender_key; auto with senders).
  - by destruct (Hno response).
  - ok_world. apply timer_fires_key.
  - ok_world. by destruct (emit_quiet n w) as (_ & _ & ? & ?).
  - pose proof (sweepFrequency_key w) as H.
    destruct (sweepFrequency w) as [[p w1] fx1]. by intros [= <- <-].
  - pose proof (confirmFrequency_key w) as H.
    destruct (confirmFrequency w) as [[p w1] fx1]. by intros [= <- <-].
Qed.

Lemma micro_key w w' :
  micro w w' →
  key (device w') = key (device w) ∧ id (device w') = id (device w).
Proof.
  intros [m w0|n l w0 _].
  - pose proof (step_input_of m w0) as Hstep.
    destruct (invoke m w0) as [w1 fx1] eqn:Hinv. cbn [fst].
    apply (atomic_step_key (input_of m) w0 w1 fx1); [apply atomic_input_of|done|].
    intros response. by destruct m.
  - by destruct (run_listener_quiet n w0 l) as (_ & _ & ? & ?).
Qed.

Lemma step_key i w w' fx :
  step i w = Ok (w', fx) →
  (∀ response, i ≠ Datagram response) →
  (∀ calls response, i ≠ DatagramWith calls response) →
  key (device w') = key (device w) ∧ id (device w') = id (device w).
Proof.
  intros Hstep Hno Hno'.
  destruct i;
    try (match type of Hstep with step ?i0 _ = _ =>
           by apply (atomic_step_key i0 w w' fx I Hstep) end).
  - exfalso. by eapply Hno'.
  - cbn [step] in Hstep. injection Hstep as Hw.
    match type of Hw with emit_with ?c ?n0 _ = _ =>
      replace w' with (emit_with c n0 w).1 by (by rewrite Hw) end.
    apply (emit_with_preserves
             (fun w w' => key (device w') = key (device w)
                          ∧ id (device w') = id (device w))).
    + done.
    + intros w1 w2 w3 [? ?] [? ?]. split; congruence.
    + apply micro_key.
Qed.

(** X12: over any run of a session the host, the identity, the type id,
    the model name, the iv and the RF capability stay what the constructor
    made them; the key and the session id can change only when a datagram
    arrives: no call of a method, no timer and no notification touches
    them, whether or not a listener registered from outside calls the
    session back while a notification is delivered. *)
Theorem session_identity_is_fixed inputs w w' fx :
  run inputs w = Ok (w', fx) →
  (host (device w') = host (device w)
   ∧ mac (device w') = mac (device w)
   ∧ type (device w') = type (device w)
   ∧ model (device w') = model (device w)
   ∧ iv (device w') = iv (device w)
   ∧ capabilites_RF (device w') = capabilites_RF (device w))
  ∧ ((∀ response, Datagram response ∉ inputs) →
     (∀ calls response, DatagramWith calls response ∉ inputs) →
     key (device w') = key (device w) ∧ id (device w') = id (device w)).
Proof.
  revert w fx. induction inputs as [|i inputs IH]; intros w fx.
  - by intros [= <- <-].
  - cbn [run]. destruct (step i w) as [[w1 fx1]|] eqn:Hi; [res_simpl|done].
    destruct (run inputs w1) as [[w2 fx2]|] eqn:Hrun; [res_simpl|done].
    intros [= <- <-]. destruct (IH _ _ Hrun) as [Hstatic Hkey].
    pose proof (evolves_static _ _ (step_evolves _ _ _ _ Hi)) as Hfirst.
    split.
    + destruct Hstatic as (? & ? & ? & ? & ? & ?), Hfirst as (? & ? & ? & ? & ? & ?).
      repeat split; congruence.
    + intros Hno Hno'.
      destruct (step_key _ _ _ _ Hi) as [Hk Hid].
      { intros response ->. apply (Hno response). by left. }
      { intros calls response ->. apply (Hno' calls response). by left. }
      destruct Hkey as [Hk' Hid'].
      { intros response Hin. apply (Hno response). by right. }
      { intros calls response Hin. apply (Hno' calls response). by right. }
      split; congruence.
Qed.

(** ** Listeners and poll timers of the learning sequences *)

Lemma rf_step_listener_count w w' :
  rf_step w w' → listener_count_inv w →
  listener_count_inv w'
  ∧ listeners (device w) `prefix_of` listeners (device w').
Proof.
  intros Hstep [Hs Hc].
  destruct Hstep as
    [Hl Hsp Hcp Ht Hn
    |outcome Hout Hl Hn Hcp Hsp Hin Hnotin
    |outcome Hout Hl Hn Hsp Hcp Hin Hnotin
    |t cb ms Hset Hl Hn Ht Hsp Hcp
    |Hl Hsp Hcp Ht Hn
    |Hl Hcp Hsp Ht Hn
    |t0 p0 outcome Hout Hlis Hl Hn Hcp Hsp Ht
    |t0 p0 outcome Hout Hlis Hl Hn Hsp Hcp Ht];
    unfold listener_count_inv; rewrite Hl, Hsp, Hcp.
  - done.
  - by rewrite length_settle_all.
  - by rewrite length_settle_all.
  - split; [|done]. split.
    + destruct cb; by rewrite ?length_settle.
    + destruct cb; by rewrite ?length_settle.
  - rewrite !omap_app, !length_app. cbn. split; [lia|]. by apply prefix_app_r.
  - rewrite !omap_app, !length_app. cbn. split; [lia|]. by apply prefix_app_r.
  - by rewrite length_settle.
  - by rewrite length_settle.
Qed.

Lemma rtc_linked_listener_count w w' :
  rtc linked w w' → listener_count_inv w →
  listener_count_inv w'
  ∧ listeners (device w) `prefix_of` listeners (device w').
Proof.
  induction 1 as [w|w1 w2 w3 [_ H12] _ IH]; [done|].
  intros H1. destruct (rf_step_listener_count w1 w2 H12 H1) as [H2 Hp].
  destruct (IH H2) as [H3 Hp']. split; [done|by etrans].
Qed.

Lemma reachable_listener_count w : reachable w → listener_count_inv w.
Proof.
  induction 1 as [host mac type random|w _ [Hs Hc]|w i w' fx _ IH Hstep].
  - done.
  - unfold listener_count_inv. cbn. by rewrite !omap_app, !app_nil_r.
  - by apply (rtc_linked_listener_count w w'); [eapply step_linked|].
Qed.

(** X13: listeners are never removed.  In every world a session reaches
    there is exactly one 'sweep' listener for every promise [sweepFrequency]
    has created and one 'data' listener for every promise [confirmFrequency]
    has created, settled or not; and along any run the list of listeners
    only grows at its end. *)
Theorem listeners_accumulate w :
  reachable w →
  length (omap sweep_target (listeners (device w))) = length (sweepPromises w)
  ∧ length (omap confirm_target (listeners (device w))) = length (confirmPromises w)
  ∧ ∀ inputs w' fx,
      run inputs w = Ok (w', fx) →
      listeners (device w) `prefix_of` listeners (device w')
      ∧ (length (sweepPromises w) ≤ length (sweepPromises w'))%nat
      ∧ (length (confirmPromises w) ≤ length (confirmPromises w'))%nat.
Proof.
  intros Hreach. destruct (reachable_listener_count w Hreach) as [Hs Hc].
  split; [done|]. split; [done|].
  intros inputs. revert w Hreach Hs Hc.
  induction inputs as [|i inputs IH]; intros w Hreach Hs Hc w' fx.
  - by intros [= <- <-].
  - cbn [run]. destruct (step i w) as [[w1 fx1]|] eqn:Hi; [res_simpl|done].
    destruct (run inputs w1) as [[w2 fx2]|] eqn:Hrun; [res_simpl|done].
    intros [= <- <-].
    destruct (rtc_linked_listener_count w w1) as [[Hs1 Hc1] Hprefix];
      [by eapply step_linked|done|].
    destruct (IH w1 (reachable_step _ _ _ _ Hreach Hi) Hs1 Hc1 _ _ Hrun)
      as (Hprefix' & Hsl & Hcl).
    split; [by etrans|].
    destruct Hprefix as [k Hk].
    rewrite Hk, !omap_app, !length_app in Hs1, Hc1. lia.
Qed.

Lemma rf_step_timer_inv w w' :
  armed_inv w → timer_inv w → rf_step w w' → timer_inv w'.
Proof.
  intros (Fs & Fc & _) [Hb Hc] Hstep.
  assert (Hts : ∀ t, t ∈ (omap sweep_target (listeners (device w))).*1 →
                     (t < next_timer w)%nat).
  { intros t ([t' p] & -> & Hin)%list_elem_of_fmap.
    apply elem_of_sweep_targets in Hin. by apply (Fs _ p). }
  assert (Htc : ∀ t, t ∈ (omap confirm_target (listeners (device w))).*1 →
                     (t < next_timer w)%nat).
  { intros t ([t' p] & -> & Hin)%list_elem_of_fmap.
    apply elem_of_confirm_targets in Hin. by apply (Fc _ p). }
  destruct Hstep as
    [Hl Hsp Hcp Ht Hn
    |outcome Hout Hl Hn Hcp Hsp Hin Hnotin
    |outcome Hout Hl Hn Hsp Hcp Hin Hnotin
    |t0 cb0 ms0 Hset Hl Hn Ht Hsp Hcp
    |Hl Hsp Hcp Ht Hn
    |Hl Hcp Hsp Ht Hn
    |t0 p0 outcome Hout Hlis Hl Hn Hcp Hsp Ht
    |t0 p0 outcome Hout Hlis Hl Hn Hsp Hcp Ht];
    unfold timer_inv; rewrite Hl, Hn;
    try (rewrite Ht; split;
         [intros t x [_ Hx]%lookup_delete_Some; eauto
         |intros t cb ms [_ Hx]%lookup_delete_Some; eauto]; fail).
  - rewrite Ht. done.
  - assert (∀ t x, timers w' !! t = Some x → timers w !! t = Some x) as Hsub.
    { intros t x Hx.
      destruct (decide (t ∈ (omap sweep_target (listeners (device w))).*1)) as [Hi|Hi].
      - by rewrite (Hin t Hi) in Hx.
      - by rewrite (Hnotin t Hi) in Hx. }
    split; eauto.
  - assert (∀ t x, timers w' !! t = Some x → timers w !! t = Some x) as Hsub.
    { intros t x Hx.
      destruct (decide (t ∈ (omap confirm_target (listeners (device w))).*1)) as [Hi|Hi].
      - by rewrite (Hin t Hi) in Hx.
      - by rewrite (Hnotin t Hi) in Hx. }
    split; eauto.
  - rewrite Ht, !omap_app, !fmap_app. cbn. rewrite app_nil_r. split.
    + intros t x Hx.
      destruct (decide (t = S (next_timer w))) as [->|H1]; [lia|].
      rewrite lookup_insert_ne in Hx by done.
      destruct (decide (t = next_timer w)) as [->|H2]; [lia|].
      rewrite lookup_insert_ne in Hx by done.
      pose proof (Hb t x Hx). lia.
    + intros t cb ms Hx Hcheck.
      destruct (decide (t = S (next_timer w))) as [->|H1].
      { split.
        - intros [Hold|Hnew%list_elem_of_singleton]%elem_of_app; [|lia].
          apply Hts in Hold. lia.
        - intros Hold. apply Htc in Hold. lia. }
      rewrite lookup_insert_ne in Hx by done.
      destruct (decide (t = next_timer w)) as [->|H2].
      { rewrite lookup_insert_eq in Hx. injection Hx as <- <-. done. }
      rewrite lookup_insert_ne in Hx by done.
      destruct (Hc t cb ms Hx Hcheck) as [Hns Hnc]. split; [|done].
      intros [Hold|Hnew%list_elem_of_singleton]%elem_of_app; [done|].
      by subst.
  - rewrite Ht, !omap_app, !fmap_app. cbn. rewrite app_nil_r. split.
    + intros t x Hx.
      destruct (decide (t = S (next_timer w))) as [->|H1]; [lia|].
      rewrite lookup_insert_ne in Hx by done.
      destruct (decide (t = next_timer w)) as [->|H2]; [lia|].
      rewrite lookup_insert_ne in Hx by done.
      pose proof (Hb t x Hx). lia.
    + intros t cb ms Hx Hcheck.
      destruct (decide (t = S (next_timer w))) as [->|H1].
      { split.
        - intros Hold. apply Hts in Hold. lia.
        - intros [Hold|Hnew%list_elem_of_singleton]%elem_of_app; [|lia].
          apply Htc in Hold. lia. }
      rewrite lookup_insert_ne in Hx by done.
      destruct (decide (t = next_timer w)) as [->|H2].
      { rewrite lookup_insert_eq in Hx. injection Hx as <- <-. done. }
      rewrite lookup_insert_ne in Hx by done.
      destruct (Hc t cb ms Hx Hcheck) as [Hns Hnc]. split; [done|].
      intros [Hold|Hnew%list_elem_of_singleton]%elem_of_app; [done|].
      by subst.
Qed.

Lemma rtc_linked_timer_inv w w' :
  rtc linked w w' → rf_inv w ∧ armed_inv w → timer_inv w → timer_inv w'.
Proof.
  induction 1 as [w|w1 w2 w3 H12 _ IH]; [done|].
  intros Hinv Ht. apply IH.
  - by apply (linked_inv w1 w2).
  - apply (rf_step_timer_inv w1 w2); [apply Hinv|done|apply H12].
Qed.

Lemma reachable_timer_inv w : reachable w → timer_inv w.
Proof.
  induction 1 as [host mac type random|w _ [Hb Hc]|w i w' fx Hreach IH Hstep].
  - split; [intros t x Hx|intros t cb ms Hx _]; cbn in Hx; by rewrite lookup_empty in Hx.
  - unfold timer_inv. cbn. by rewrite !omap_app, !app_nil_r.
  - apply (rtc_linked_timer_inv w w'); [by eapply step_linked| |done].
    split; [by apply reachable_rf_inv|by apply reachable_armed].
Qed.

Lemma emit_keeps_timer n w t :
  t ∉ (omap sweep_target (listeners (device w))).*1 →
  t ∉ (omap confirm_target (listeners (device w))).*1 →
  timers (emit n w).1 !! t = timers w !! t.
Proof.
  intros Hs Hc.
  destruct n as [session|temp|buf|success|rf|err];
    try (match goal with |- context [emit ?n w] =>
           destruct (emit_passive n w I) as [fx ->] end; done).
  - unfold emit.
    destruct (call_listeners_data buf (listeners (device w)) w
                [Emitted (EvData buf)]) as (_ & _ & _ & _ & _ & _ & Hout & _).
    by apply Hout.
  - unfold emit.
    destruct (call_listeners_sweep success (listeners (device w)) w
                [Emitted (EvSweep success)]) as (_ & _ & _ & _ & _ & _ & Hout & _).
    by apply Hout.
Qed.

Lemma onPayloadReceived_keeps_timer err payload w w' fx t :
  onPayloadReceived err payload w = Ok (w', fx) →
  t ∉ (omap sweep_target (listeners (device w))).*1 →
  t ∉ (omap confirm_target (listeners (device w))).*1 →
  timers w' !! t = timers w !! t.
Proof.
  intros Hrun Hs Hc. revert Hrun.
  unfold onPayloadReceived, onPayloadReceived_by. simpl.
  destruct (Buffer_alloc_size _) as [data|]; [simpl|done].
  destruct (Buffer_copy_from payload data 0 4) as [data'|]; [simpl|done].
  repeat case_match; simpl;
    repeat (match goal with
            | |- context [Buffer_alloc_size ?x] => destruct (Buffer_alloc_size x); simpl
            | |- context [Buffer_copy_from ?a ?b ?c ?e] =>
                destruct (Buffer_copy_from a b c e); simpl
            end);
    try done; ok_world; try (by apply emit_keeps_timer); done.
Qed.

Lemma onResponse_keeps_timer response w w' fx t :
  onResponse response w = Ok (w', fx) →
  t ∉ (omap sweep_target (listeners (device w))).*1 →
  t ∉ (omap confirm_target (listeners (device w))).*1 →
  timers w' !! t = timers w !! t.
Proof.
  intros Hrun Hs Hc. revert Hrun.
  unfold onResponse, onResponse_by. res_simpl.
  destruct (Buffer_alloc_size _) as [e0|]; [res_simpl|done].
  destruct (Buffer_copy_from response e0 0 56) as [e1|]; [res_simpl|done].
  case_match; res_simpl.
  { ok_world. by apply emit_keeps_timer. }
  destruct (decipher_update_final _ _ e1) as [payload|]; [res_simpl|done].
  case_match; res_simpl.
  - destruct (Buffer_copy payload (Buffer_alloc 16) 0 4 20) as [k|]; [res_simpl|done].
    destruct (Buffer_copy payload (Buffer_alloc 4) 0 0 4) as [i|]; [res_simpl|done].
    ok_world.
    match goal with |- context [emit ?n0 ?w0] =>
      by destruct (emit_passive n0 w0 I) as [fx' ->] end.
  - case_match.
    + intros Hrun. by eapply onPayloadReceived_keeps_timer.
    + by ok_world.
Qed.

Lemma atomic_step_keeps_timer i w w' fx t :
  atomic i → step i w = Ok (w', fx) → i ≠ TimerFires t →
  unheld t w → timers w' !! t = timers w !! t.
Proof.
  intros Hat Hstep Hi (Hlt & Hs & Hc). revert Hstep.
  destruct i; cbn [step]; try done;
    try (ok_world;
         match goal with
         | |- context [lift ?f w] => by destruct (lift_world f w) as (_ & _ & -> & _)
         end).
  - intros Hrun. by eapply onResponse_keeps_timer.
  - ok_world. destruct (timers w !! t0) as [[cb ms]|] eqn:Hset.
    + destruct (timer_fires_set t0 cb ms w Hset) as (_ & _ & -> & _).
      apply lookup_delete_ne. congruence.
    + unfold timer_fires. by rewrite Hset.
  - ok_world. by apply emit_keeps_timer.
  - destruct (sweepHandler (device w)) as [p|] eqn:Hh.
    { unfold sweepFrequency. rewrite Hh. by intros [= <- <-]. }
    destruct (sweepFrequency_new w Hh) as (w1 & -> & _ & _ & _ & _ & _ & Ht & _).
    intros [= <- <-]. rewrite Ht, !lookup_insert_ne by lia. done.
  - destruct (confirmHandler (device w)) as [p|] eqn:Hh.
    { unfold confirmFrequency. rewrite Hh. by intros [= <- <-]. }
    destruct (confirmFrequency_new w Hh) as (w1 & -> & _ & _ & _ & _ & _ & Ht & _).
    intros [= <- <-]. rewrite Ht, !lookup_insert_ne by lia. done.
Qed.

Lemma rf_step_unheld w w' t : rf_step w w' → unheld t w → unheld t w'.
Proof.
  intros Hstep (Hlt & Hs & Hc).
  destruct Hstep as
    [Hl Hsp Hcp Ht Hn
    |outcome Hout Hl Hn Hcp Hsp Hin Hnotin
    |outcome Hout Hl Hn Hsp Hcp Hin Hnotin
    |t0 cb0 ms0 Hset Hl Hn Ht Hsp Hcp
    |Hl Hsp Hcp Ht Hn
    |Hl Hcp Hsp Ht Hn
    |t0 p0 outcome Hout Hlis Hl Hn Hcp Hsp Ht
    |t0 p0 outcome Hout Hlis Hl Hn Hsp Hcp Ht];
    unfold unheld; rewrite Hl, Hn; try done.
  - rewrite !omap_app, !fmap_app. cbn. rewrite app_nil_r.
    split; [lia|]. split; [|done].
    intros [Hold|Hnew%list_elem_of_singleton]%elem_of_app; [done|lia].
  - rewrite !omap_app, !fmap_app. cbn. rewrite app_nil_r.
    split; [lia|]. split; [done|].
    intros [Hold|Hnew%list_elem_of_singleton]%elem_of_app; [done|lia].
Qed.

Lemma run_listener_keeps_timer n w l t :
  l ∈ listeners (device w) → unheld t w →
  timers (run_listener n w l).1 !! t = timers w !! t.
Proof.
  intros Hl (_ & Hs & Hc).
  destruct l as [t0 p|t0 p|], n as [session|temp|buf|success|rf|err];
    try done; cbn.
  - apply lookup_delete_ne. intros ->. apply Hs.
    apply list_elem_of_fmap. exists (t, p). split; [done|].
    by apply elem_of_sweep_targets.
  - apply lookup_delete_ne. intros ->. apply Hc.
    apply list_elem_of_fmap. exists (t, p). split; [done|].
    by apply elem_of_confirm_targets.
Qed.

Lemma micro_keeps_timer w w' t :
  micro w w' → unheld t w →
  unheld t w' ∧ timers w' !! t = timers w !! t.
Proof.
  intros Hm Hun. split; [apply (rf_step_unheld w w'); [by apply micro_rf_step|done]|].
  destruct Hm as [m w0|n l w0 Hl]; [|by apply run_listener_keeps_timer].
  pose proof (step_input_of m w0) as Hstep.
  destruct (invoke m w0) as [w1 fx1]. cbn [fst].
  apply (atomic_step_keeps_timer (input_of m) w0 w1 fx1);
    [apply atomic_input_of|done| |done].
  by destruct m.
Qed.

Lemma step_keeps_timer i w w' fx t :
  step i w = Ok (w', fx) → i ≠ TimerFires t →
  (t < next_timer w)%nat →
  t ∉ (omap sweep_target (listeners (device w))).*1 →
  t ∉ (omap confirm_target (listeners (device w))).*1 →
  timers w' !! t = timers w !! t.
Proof.
  intros Hstep Hi Hlt Hs Hc.
  assert (unheld t w) as Hun by done.
  set (R := fun w w' : World =>
              unheld t w → unheld t w' ∧ timers w' !! t = timers w !! t).
  assert (Hrefl : ∀ w, R w w) by done.
  assert (Htrans : ∀ w1 w2 w3, R w1 w2 → R w2 w3 → R w1 w3).
  { intros w1 w2 w3 H12 H23 H1. destruct (H12 H1) as [H2 E12].
    destruct (H23 H2) as [H3 E23]. split; [done|congruence]. }
  assert (Hmicro : ∀ w w', micro w w' → R w w')
    by (intros w1 w2 Hm H1; by apply micro_keeps_timer).
  destruct i;
    try (match type of Hstep with step ?i0 _ = _ =>
           by apply (atomic_step_keeps_timer i0 w w' fx t I Hstep) end).
  - cbn [step] in Hstep.
    by apply (onResponse_with_preserves R Hrefl Htrans Hmicro) in Hstep as [_ ?].
  - cbn [step] in Hstep. injection Hstep as Hw.
    match type of Hw with emit_with ?c ?n0 _ = _ =>
      pose proof (emit_with_preserves R Hrefl Htrans Hmicro c n0 w) as HR end.
    rewrite Hw in HR. by destruct (HR Hun).
Qed.

(** X14: the poll timer of a learning sequence is never cleared.  In every
    world a session reaches, a timer that holds the poll callback of
    [sweepFrequency] or of [confirmFrequency] stays set, with its callback
    and delay, through every run in which it does not fire: neither the
    notification that settles the result, nor the timeout, nor anything else
    clears it.  When it fires it polls the device as [checkRFSweep] or
    [checkData] do, whether the result is still awaited or not. *)
Theorem poll_timer_is_never_cleared w t cb ms :
  reachable w →
  timers w !! t = Some (cb, ms) → is_check cb →
  (∀ inputs w' fx,
     run inputs w = Ok (w', fx) → TimerFires t ∉ inputs →
     timers w' !! t = Some (cb, ms))
  ∧ (timer_fires t w).2
    = (if cb is SweepCheckCb then checkRFSweep (device w) else checkData (device w)).2.
Proof.
  intros Hreach Hset Hcheck. split.
  - intros inputs. revert w Hreach Hset.
    induction inputs as [|i inputs IH]; intros w Hreach Hset w' fx.
    + by intros [= <- <-].
    + cbn [run]. destruct (step i w) as [[w1 fx1]|] eqn:Hi; [res_simpl|done].
      destruct (run inputs w1) as [[w2 fx2]|] eqn:Hrun; [res_simpl|done].
      intros [= <- <-] Hnot.
      destruct (reachable_timer_inv w Hreach) as [Hb Hc].
      destruct (Hc t cb ms Hset Hcheck) as [Hns Hnc].
      eapply IH; [by eapply reachable_step| |exact Hrun|].
      * rewrite (step_keeps_timer _ _ _ _ t Hi); eauto.
        intros ->. apply Hnot. by left.
      * intros Hin. apply Hnot. by right.
  - unfold timer_fires. rewrite Hset.
    destruct cb; try done; cbn [run_callback]; unfold lift; cbn [device clearTimeout with_timers].
    by destruct (checkRFSweep (device w)).
Qed.

(** X15: [sweepFrequency] on a session without RF capability.  The call
    does not fail: it logs the refusal of [enterRFSweep], sends nothing, and
    still returns a new pending promise with both timers set.  The poll after
    10 seconds and the cancellation after 30 seconds only log the refusal
    again, and the timeout then rejects the promise: the caller learns of the
    missing capability only by the timeout message. *)
Theorem sweep_without_rf_capability w :
  capabilites_RF (device w) = false →
  sweepHandler (device w) = None →
  ∃ w1,
    sweepFrequency w = (length (sweepPromises w), w1, [Log NoRFCapabilities])
    ∧ sweepPromises w1 !! length (sweepPromises w) = Some Pending
    ∧ timers w1 !! next_timer w
      = Some (SweepTimeoutCb (length (sweepPromises w)), 30000)
    ∧ timers w1 !! S (next_timer w) = Some (SweepCheckCb, 10000)
    ∧ (timer_fires (S (next_timer w)) w1).2 = [Log NoRFCapabilities]
    ∧ (timer_fires (next_timer w) w1).2 = [Log NoRFCapabilities]
    ∧ sweepPromises (timer_fires (next_timer w) w1).1 !! length (sweepPromises w)
      = Some (Rejected "RF sweep did not return any result").
Proof.
  intros Hrf Hidle.
  destruct (sweepFrequency_new w Hidle)
    as (w1 & Hcall & _ & _ & Hl & Hsp & _ & Ht & _).
  assert (capabilites_RF (device w1) = capabilites_RF (device w)) as Hrf1.
  { pose proof (sweepFrequency_evolves w) as He. rewrite Hcall in He.
    by destruct (evolves_static _ _ He) as (_ & _ & _ & _ & _ & ?). }
  exists w1.
  assert (Hpend : sweepPromises w1 !! length (sweepPromises w) = Some Pending).
  { rewrite Hsp. by rewrite lookup_app_r, Nat.sub_diag by lia. }
  assert (Htimeout : timers w1 !! next_timer w
                     = Some (SweepTimeoutCb (length (sweepPromises w)), 30000)).
  { rewrite Ht, lookup_insert_ne by lia. apply lookup_insert_eq. }
  assert (Hpoll : timers w1 !! S (next_timer w) = Some (SweepCheckCb, 10000)).
  { rewrite Ht. apply lookup_insert_eq. }
  split.
  { rewrite Hcall. unfold enterRFSweep. by rewrite Hrf. }
  split; [done|]. split; [done|]. split; [done|]. split; [|split].
  - unfold timer_fires. rewrite Hpoll. cbn [run_callback]. unfold lift.
    cbn [device clearTimeout with_timers]. unfold checkRFSweep.
    by rewrite Hrf1, Hrf.
  - unfold timer_fires. rewrite Htimeout. cbn [run_callback]. unfold lift.
    cbn [device clearTimeout with_timers]. unfold cancelRFSweep.
    by rewrite Hrf1, Hrf.
  - destruct (timer_fires_set _ _ _ w1 Htimeout) as (_ & _ & _ & -> & _).
    by apply settle_pending.
Qed.

(** ** The handshake packet *)

(** X17: [authenticate] sends one datagram of 136 bytes with command byte
    0x65 and moves the counter on by one; its ciphertext decrypts, under the
    key and iv the session has at that time, to the 80-byte handshake
    payload: fifteen bytes 0x31 from offset 4, a 1 at offsets 0x1e and 0x2d,
    and the seven characters of the device name from offset 0x30, zero
    elsewhere. *)
Theorem authenticate_packet :
  block_sized aes_encrypt_block →
  inverse_blocks aes_encrypt_block aes_decrypt_block →
  ∀ d,
    length (key d) = 16%nat → length (iv d) = 16%nat →
    ∃ packet,
      authenticate d
      = (set_count (Z.land (count d + 1) 0xffff) d,
         [Send packet (port (host d)) (address (host d))])
      ∧ length packet = 136%nat
      ∧ byteAt packet 0x26 = 0x65
      ∧ decipher_update_final (key d) (iv d) (ciphertext_of packet)
        = Ok (replicate 4 0 ++ replicate 15 0x31 ++ replicate 11 0 ++ [1]
              ++ replicate 14 0 ++ [1; 0; 0]
              ++ [84; 101; 115; 116; 32; 32; 49] ++ replicate 25 0).
Proof.
  intros Hsized Hinv d Hkey Hiv. eexists. split; [reflexivity|].
  set (d' := set_count _ d).
  match goal with |- context [command_packet _ ?p _] => set (payload := p) end.
  assert (Hpayload : payload
            = replicate 4 0 ++ replicate 15 0x31 ++ replicate 11 0 ++ [1]
              ++ replicate 14 0 ++ [1; 0; 0]
              ++ [84; 101; 115; 116; 32; 32; 49] ++ replicate 25 0)
    by (vm_compute; reflexivity).
  assert (Hlen : length payload = 80%nat) by (by rewrite Hpayload).
  destruct (command_packet_split 0x65 payload d') as (h & -> & Hh & Hlook).
  split; [|split].
  - rewrite length_app, Hh, length_cipher_update, Hlen by done. done.
  - apply byteAt_lookup; [lia|].
    rewrite lookup_app_l by (rewrite Hh; simpl; lia).
    by rewrite Hlook by reflexivity.
  - unfold ciphertext_of. rewrite drop_app_length' by done.
    change (key d') with (key d). change (iv d') with (iv d).
    rewrite decipher_cipher by done. rewrite Hlen.
    by rewrite <- Hpayload, take_ge by (rewrite Hlen; done).
Qed.

(** ** The sessions of the registry *)

Lemma addDevice_registry_inv host mac deviceType random b :
  registry_inv b → registry_inv (addDevice host mac deviceType random b).1.
Proof.
  intros Hinv. unfold addDevice.
  destruct (devices b !! toString_hex mac) as [known|]; [done|].
  destruct (unsupportedDeviceTypes !! deviceType); [done|].
  destruct ((0x7530 <=? deviceType) && (deviceType <=? 0x7918)); [done|].
  case_bool_decide as Htables; [done|].
  set (w0 := with_device _ (new_World host mac deviceType random)).
  assert (reachable w0) as Hw0 by (apply reachable_relay, reachable_new).
  assert (reachable (lift authenticate w0).1) as Hreach.
  { apply (reachable_step w0 CallAuthenticate _ (lift authenticate w0).2); [done|].
    cbn [step]. by destruct (lift authenticate w0). }
  pose proof (evolves_static _ _ (lift_sender_evolves authenticate w0 sender_authenticate))
    as (_ & Hmac & Htype & _).
  pose proof (lift_sender_fields authenticate w0 sender_authenticate)
    as (_ & _ & Hl & _).
  destruct (lift authenticate w0) as [session sent]. cbn [fst snd] in *.
  intros k w. cbn [devices].
  destruct (decide (k = toString_hex mac)) as [->|Hne].
  - rewrite lookup_insert_eq. intros [= <-]. split; [done|].
    rewrite Hmac, Htype, Hl. split; [done|]. split.
    + cbn. destruct (rmDeviceTypes !! deviceType) eqn:H1; [left; eauto|].
      destruct (rmPlusDeviceTypes !! deviceType) eqn:H2; [right; eauto|].
      by destruct Htables.
    + cbn. by constructor.
  - rewrite lookup_insert_ne by done. apply Hinv.
Qed.

Lemma engine_step_registry_inv e b b' fx :
  engine_step e b = Ok (b', fx) → registry_inv b → registry_inv b'.
Proof.
  destruct e as [message host random|k' i]; cbn [engine_step]; intros Hstep Hinv.
  - revert Hstep. unfold onMessage.
    destruct (macAddressBuffer message) as [mac|]; [res_simpl|done].
    destruct (devices b !! toString_hex mac) as [known|] eqn:Hknown.
    { by intros [= <- <-]. }
    pose proof (addDevice_registry_inv host mac
                  (Z.lor (byteAt message 0x34) (Z.shiftl (byteAt message 0x35) 8))
                  random b Hinv) as Hadd.
    destruct (addDevice host mac _ random b) as [b1 fx1]. by intros [= <- <-].
  - destruct (devices b !! k') as [w|] eqn:Hk'.
    2:{ by injection Hstep as <- <-. }
    destruct (step i w) as [[w' fx']|] eqn:Hi; [|done].
    revert Hstep. res_simpl. intros [= <- <-].
    destruct (Hinv k' w Hk') as (Hreach & Hkey & Htype & Hrelay).
    intros k w1. cbn [devices]. destruct (decide (k = k')) as [->|Hne].
    + rewrite lookup_insert_eq. intros [= <-].
      pose proof (evolves_static _ _ (step_evolves _ _ _ _ Hi))
        as (_ & Hmac & Hty & _).
      split; [by eapply reachable_step|]. rewrite Hmac, Hty.
      split; [done|]. split; [done|].
      destruct (rtc_linked_listener_count w w') as [_ [rest ->]];
        [by eapply step_linked|by apply reachable_listener_count|].
      apply elem_of_app. by left.
    + rewrite lookup_insert_ne by done. apply Hinv.
Qed.

(** X18: the sessions of the registry.  However the engine got there from
    an empty registry, every session it holds is one a session reaches from
    its construction, is registered under the hex string of its own identity,
    has a type id of one of the two supported tables, and still has the
    relay of its ready notification registered. *)
Theorem registry_holds_supported_sessions es b fx :
  engine_run es {| devices := ∅ |} = Ok (b, fx) →
  ∀ k w, devices b !! k = Some w →
    reachable w
    ∧ k = toString_hex (mac (device w))
    ∧ (is_Some (rmDeviceTypes !! type (device w))
       ∨ is_Some (rmPlusDeviceTypes !! type (device w)))
    ∧ ReadyRelay ∈ listeners (device w).
Proof.
  assert (∀ es b0 b fx,
            engine_run es b0 = Ok (b, fx) → registry_inv b0 → registry_inv b)
    as Hrun.
  { clear. induction es as [|e es IH]; intros b0 b fx.
    - by intros [= <- <-].
    - cbn [engine_run].
      destruct (engine_step e b0) as [[b1 fx1]|] eqn:He; [res_simpl|done].
      destruct (engine_run es b1) as [[b2 fx2]|] eqn:Hes; [res_simpl|done].
      intros [= <- <-] Hinv. eapply IH; [exact Hes|].
      by eapply engine_step_registry_inv. }
  intros Hes. apply (Hrun _ _ _ _ Hes).
  intros k w Hk. cbn in Hk. by rewrite lookup_empty in Hk.
Qed.
End Engine.

(** * The properties on concrete inputs *)

Lemma xor_block_sized : block_sized xor_block.
Proof.
  intros key block Hkey Hblock. unfold xor_block, xor_bytes.
  rewrite length_zip_with. lia.
Qed.

(** The handshake theorem on the sample reply. *)
Lemma handshake_reply_witness :
  ∃ payload,
    decipher_update_final xor_block (key (device sample_session))
      (iv (device sample_session)) (drop 0x38 sample_handshake_reply)
    = Ok payload
    ∧ ∃ w',
        onResponse xor_block sample_handshake_reply sample_session
        = Ok (w', Emitted (EvDeviceReady (device w')) :: ready_relays w')
        ∧ (∀ deliver : notification → World → World * list effect,
             onResponse_by xor_block deliver sample_handshake_reply sample_session
             = Ok (deliver (EvDeviceReady (device w')) w'))
        ∧ w' = with_device
                 (set_key_id (take 16 (drop 4 payload)) (take 4 payload)
                    (device sample_session)) sample_session
        ∧ key (device w') = take 16 (drop 4 payload)
        ∧ length (key (device w')) = 16%nat
        ∧ id (device w') = take 4 payload
        ∧ Forall (fun e => e = EngineDeviceReady (device w')) (ready_relays w').
Proof.
  eexists. split.
  - vm_compute. reflexivity.
  - apply (handshake_reply_installs_key_and_session_id xor_block
             sample_session sample_handshake_reply).
    + vm_compute. lia.
    + reflexivity.
    + reflexivity.
    + vm_compute. reflexivity.
    + vm_compute. lia.
Defined.

(** C2 as stated fails: on the sample reply the key installed is not 14
    payload bytes in a zeroed 16-byte field, whatever the offset; its last two
    bytes are payload bytes as well. *)
Lemma handshake_key_is_not_14_payload_bytes :
  ∃ w' fx payload,
    onResponse xor_block sample_handshake_reply sample_session = Ok (w', fx)
    ∧ decipher_update_final xor_block (key (device sample_session))
        (iv (device sample_session)) (drop 0x38 sample_handshake_reply)
      = Ok payload
    ∧ key (device w') = take 16 (drop 4 payload)
    ∧ ¬ key_is_14_payload_bytes payload (key (device w')).
Proof.
  eexists _, _, _. split; [vm_compute; reflexivity|].
  split; [vm_compute; reflexivity|]. split; [reflexivity|].
  intros [offset H]. apply (f_equal last) in H.
  change [0; 0] with ([0] ++ [0]) in H. rewrite app_assoc, last_snoc in H.
  vm_compute in H. discriminate H.
Defined.

Lemma initial_counter_witness :
  initial_count (1 # 2)%Q = 0
  ∧ ∀ host mac type, count (new_BroadlinkDevice host mac type (1 # 2)%Q) = 0.
Proof.
  apply (initial_counter_is_zero_for_every_draw (1 # 2)%Q).
  - unfold Qle. simpl. lia.
  - unfold Qlt. simpl. lia.
Defined.

Lemma rf_refusal_witness :
  (enterRFSweep xor_block (device sample_plain_session)
     = (device sample_plain_session, [Log NoRFCapabilities])
   ∧ checkRFSweep xor_block (device sample_plain_session)
     = (device sample_plain_session, [Log NoRFCapabilities])
   ∧ findRFPacket xor_block (device sample_plain_session)
     = (device sample_plain_session, [Log NoRFCapabilities])
   ∧ cancelRFSweep xor_block (device sample_plain_session)
     = (device sample_plain_session, [Log NoRFCapabilities]))
  ∧ (step xor_block xor_block CallEnterRFSweep sample_plain_session
       = Ok (sample_plain_session, [Log NoRFCapabilities])
     ∧ step xor_block xor_block CallCheckRFSweep sample_plain_session
       = Ok (sample_plain_session, [Log NoRFCapabilities])
     ∧ step xor_block xor_block CallFindRFPacket sample_plain_session
       = Ok (sample_plain_session, [Log NoRFCapabilities])
     ∧ step xor_block xor_block CallCancelRFSweep sample_plain_session
       = Ok (sample_plain_session, [Log NoRFCapabilities])).
Proof.
  apply (rf_operations_refused_without_rf_capability xor_block xor_block
           sample_plain_session).
  - apply reachable_new.
  - vm_compute. reflexivity.
Defined.

Lemma sequence_counter_witness :
  count (send_all xor_block (replicate (Z.to_nat 65536) (0x6a, [])) (device sample_session))
  = count (device sample_session) mod 65536.
Proof.
  apply (proj1 (proj2 (proj2
           (sequence_counter_increments_and_wraps xor_block xor_block)))).
  vm_compute. reflexivity.
Defined.

Lemma ciphertext_witness :
  ∃ d' packet,
    sendData xor_block [1; 2; 3] (device sample_session)
    = (d', [Send packet 80 "192.168.1.40"])
    ∧ (length (ciphertext_of packet) < 4 + 3)%nat
    ∧ ciphertext_of packet
      = cipher_update xor_block (key (device sample_session))
          (iv (device sample_session))
          (take (16 * ((4 + 3) / 16)) ([0x02; 0x00; 0x00; 0x00] ++ [1; 2; 3])).
Proof.
  apply (proj2 (ciphertext_holds_only_complete_blocks xor_block xor_block_sized)
           [1; 2; 3] (device sample_session)).
  - reflexivity.
  - reflexivity.
  - vm_compute. lia.
Defined.

Lemma same_identity_witness :
  ∃ b1 fx1,
    onMessage xor_block sample_reply sample_host (1 # 3)%Q {| devices := ∅ |}
    = Ok (b1, fx1)
    ∧ onMessage xor_block sample_reply sample_host (2 # 3)%Q b1 = Ok (b1, [])
    ∧ engine_run xor_block xor_block
        [Reply sample_reply sample_host (1 # 3)%Q;
         Reply sample_reply sample_host (2 # 3)%Q] {| devices := ∅ |}
      = Ok (b1, fx1)
    ∧ dom (devices b1) = {[toString_hex sample_mac]} ∪ dom (devices {| devices := ∅ |})
    ∧ size (devices b1) = S (size (devices {| devices := ∅ |})).
Proof.
  eexists _, _. split; [vm_compute; reflexivity|].
  apply (proj1 (same_identity_creates_one_session xor_block xor_block)
           {| devices := ∅ |} sample_reply sample_host (1 # 3)%Q
           sample_reply sample_host (2 # 3)%Q _ _ sample_mac).
  - vm_compute. reflexivity.
  - vm_compute. reflexivity.
  - reflexivity.
  - vm_compute. reflexivity.
  - eexists. vm_compute. reflexivity.
Defined.

(** The sample session after one call of [sweepFrequency] is reachable. *)
Lemma sample_sweeping_reachable :
  reachable xor_block xor_block (sweepFrequency xor_block sample_session).1.2.
Proof.
  apply (reachable_step xor_block xor_block sample_session CallSweepFrequency _
           (sweepFrequency xor_block sample_session).2).
  - apply reachable_new.
  - reflexivity.
Qed.



Lemma learning_result_witness :
  let w1 := (sweepFrequency xor_block sample_session).1.2 in
  timers w1 !! 0%nat = Some (SweepTimeoutCb 0, 30000)
  ∧ (∀ success,
       sweepPromises (emit (EvSweep success) w1).1 !! 0%nat
       = Some (if success then Fulfilled ()
               else Rejected "The RF sweep was not successful")
       ∧ timers (emit (EvSweep success) w1).1 !! 0%nat = None)
  ∧ sweepPromises (timer_fires xor_block 0 w1).1 !! 0%nat
    = Some (Rejected "RF sweep did not return any result")
  ∧ timers (timer_fires xor_block 0 w1).1 !! 0%nat = None.
Proof.
  intros w1.
  apply (proj1 (proj1 (learning_result_settles_once xor_block xor_block w1
                         sample_sweeping_reachable) 0%nat 0%nat
                 ltac:(by apply list_elem_of_singleton))).
  vm_compute. reflexivity.
Defined.

(** C3 as stated fails: after the timeout of the sample invocation has fired
    and rejected the result, the listener of that invocation is still
    registered. *)
Lemma timeout_leaves_listener_registered :
  let w1 := (sweepFrequency xor_block sample_session).1.2 in
  sweepPromises w1 !! 0%nat = Some Pending
  ∧ timers w1 !! 0%nat = Some (SweepTimeoutCb 0, 30000)
  ∧ listeners (device w1) = [SweepListener 0 0]
  ∧ sweepPromises (timer_fires xor_block 0 w1).1 !! 0%nat
    = Some (Rejected "RF sweep did not return any result")
  ∧ ¬ timeout_removes_listener xor_block (SweepListener 0 0) 0 w1.
Proof.
  intros w1. split; [vm_compute; reflexivity|]. split; [vm_compute; reflexivity|].
  split; [vm_compute; reflexivity|]. split; [vm_compute; reflexivity|].
  intros Hremoved. apply Hremoved.
  assert (listeners (device (timer_fires xor_block 0 w1).1) = [SweepListener 0 0])
    as -> by (vm_compute; reflexivity).
  by apply list_elem_of_singleton.
Defined.

(** * Further properties on concrete inputs *)

Lemma xor_block_inverse : inverse_blocks xor_block xor_block.
Proof.
  intros key block Hkey Hblock. unfold xor_block.
  apply xor_bytes_cancel. lia.
Qed.

Lemma sent_payload_witness :
  ∃ d' packet,
    sendPacket xor_block 0x6a sample_payload (device sample_session)
    = (d', [Send packet (port (host (device sample_session)))
              (address (host (device sample_session)))])
    ∧ decipher_update_final xor_block (key d') (iv d') (ciphertext_of packet)
      = Ok (take (16 * (length sample_payload / 16)) sample_payload)
    ∧ ((length sample_payload `mod` 16 = 0)%nat →
       decipher_update_final xor_block (key d') (iv d') (ciphertext_of packet)
       = Ok sample_payload).
Proof.
  apply (sent_payload_decrypts_to_itself xor_block xor_block
           xor_block_sized xor_block_inverse 0x6a sample_payload
           (device sample_session)); reflexivity.
Defined.

Lemma dispatcher_commands_witness :
  sends_command xor_block 4 [] (device sample_session)
    (checkData xor_block (device sample_session)).
Proof.
  apply (dispatcher_commands xor_block xor_block
           xor_block_sized xor_block_inverse (device sample_session));
    reflexivity.
Defined.

Lemma checksum_detection_witness :
  checksum_masked (<[1%nat := 9]> [1; 2; 3]) ≠ checksum_masked [1; 2; 3]
  ∧ checksum_summed (<[1%nat := 9]> [1; 2; 3]) ≠ checksum_summed [1; 2; 3].
Proof.
  apply (proj1 checksum_detection [1; 2; 3] 1%nat 2 9).
  - reflexivity.
  - unfold is_byte. lia.
  - unfold is_byte. lia.
  - lia.
Defined.

Lemma identities_witness :
  onMessage xor_block sample_reply sample_host (1 # 3)%Q
    {| devices := {[toString_hex sample_other_mac := sample_session]} |}
  = Ok ((addDevice xor_block sample_host sample_mac (le16 sample_reply 0x34) (1 # 3)%Q
           {| devices := {[toString_hex sample_other_mac := sample_session]} |}).1,
        Log (Discovered (toString_hex sample_mac) (le16 sample_reply 0x34))
          :: (addDevice xor_block sample_host sample_mac (le16 sample_reply 0x34)
                (1 # 3)%Q
                {| devices := {[toString_hex sample_other_mac := sample_session]} |}).2).
Proof.
  apply (proj2 (proj2 (identities_have_their_own_keys xor_block))
           sample_reply sample_host (1 # 3)%Q
           {| devices := {[toString_hex sample_other_mac := sample_session]} |}
           sample_mac).
  - unfold sample_reply. repeat apply Forall_app_2;
      [apply Forall_replicate|..]; repeat constructor; unfold is_byte; lia.
  - vm_compute. reflexivity.
  - intros k session Hk. cbn [devices] in Hk.
    apply lookup_singleton_Some in Hk as [<- _].
    exists sample_other_mac. split; [|split].
    + repeat constructor; unfold is_byte; lia.
    + reflexivity.
    + discriminate.
Defined.

Lemma reply_identity_witness :
  macAddressBuffer sample_reply
  = Ok (byteAt sample_reply <$> [0x3D; 0x3E; 0x3F; 0x3C; 0x3B; 0x3A]).
Proof.
  apply (proj2 (reply_identity xor_block sample_reply)).
  vm_compute. lia.
Defined.

Lemma error_reply_witness :
  onResponse xor_block sample_error_reply sample_session
  = Ok (sample_session, [Emitted (EvDataError (le16 sample_error_reply 0x22))]).
Proof.
  apply (proj2 (error_reply_is_only_announced xor_block sample_error_reply
                  sample_session)).
  - vm_compute. lia.
  - vm_compute. discriminate.
Defined.

Lemma payload_dispatch_witness :
  (onPayloadReceived 0 sample_short_temperature sample_session
   = Ok (sample_session, [Emitted (EvTemperature NaN)]))
  ∧ (onPayloadReceived 0 sample_temperature sample_session
     = Ok (sample_session, [Emitted (EvTemperature (Tenths 253))]))
  ∧ (onPayloadReceived 0 sample_data_payload sample_session
     = Ok (emit (EvData (drop 4 sample_data_payload)) sample_session)).
Proof.
  pose proof (payload_dispatch 0 sample_short_temperature sample_session)
    as (_ & Hshort & Hnan & _).
  pose proof (payload_dispatch 0 sample_temperature sample_session)
    as (_ & Hlong & _ & Hvalue).
  pose proof (payload_dispatch 0 sample_data_payload sample_session)
    as (_ & Hdata & _).
  split; [|split].
  - rewrite Hshort by (vm_compute; lia). rewrite Hnan by (vm_compute; lia).
    reflexivity.
  - rewrite Hlong by (vm_compute; lia). rewrite Hvalue by (vm_compute; lia).
    reflexivity.
  - rewrite Hdata by (vm_compute; lia). reflexivity.
Defined.

Lemma reply_round_trip_witness :
  onResponse xor_block
    (sample_data_header
     ++ cipher_update xor_block (key (device sample_session))
          (iv (device sample_session)) sample_data_payload)
    sample_session
  = onPayloadReceived 0 sample_data_payload sample_session.
Proof.
  apply (proj1 (reply_payload_round_trip xor_block xor_block
                  sample_data_header sample_data_payload sample_session
                  xor_block_sized xor_block_inverse
                  eq_refl eq_refl eq_refl eq_refl eq_refl)).
  left. reflexivity.
Defined.

Lemma discovery_fields_witness :
  byteAt (discovery_packet [192; 168; 1; 20] 50000 sample_date)
    <$> [0x08; 0x09; 0x0a; 0x0b]
  = if 0 <? getTimezoneOffset sample_date then [0xfd; 0xff; 0xff; 0xff]
    else [0; 0; 0; 0].
Proof.
  apply (discovery_packet_fields [192; 168; 1; 20] 50000 sample_date).
  vm_compute. split; reflexivity.
Defined.


Lemma session_identity_witness :
  ∃ w' fx,
    run xor_block xor_block [CallCheckData; CallSweepFrequency] sample_session
    = Ok (w', fx)
    ∧ (host (device w') = host (device sample_session)
       ∧ mac (device w') = mac (device sample_session)
       ∧ type (device w') = type (device sample_session)
       ∧ model (device w') = model (device sample_session)
       ∧ iv (device w') = iv (device sample_session)
       ∧ capabilites_RF (device w') = capabilites_RF (device sample_session))
    ∧ ((∀ response, Datagram response ∉ [CallCheckData; CallSweepFrequency]) →
       (∀ calls response,
          DatagramWith calls response ∉ [CallCheckData; CallSweepFrequency]) →
       key (device w') = key (device sample_session)
       ∧ id (device w') = id (device sample_session)).
Proof.
  eexists _, _. split; [vm_compute; reflexivity|].
  eapply (session_identity_is_fixed xor_block xor_block
           [CallCheckData; CallSweepFrequency] sample_session).
  vm_compute. reflexivity.
Defined.

Lemma listeners_witness :
  let w1 := (sweepFrequency xor_block sample_session).1.2 in
  length (omap sweep_target (listeners (device w1))) = length (sweepPromises w1)
  ∧ length (omap confirm_target (listeners (device w1))) = length (confirmPromises w1).
Proof.
  intros w1.
  pose proof (listeners_accumulate xor_block xor_block w1 sample_sweeping_reachable)
    as (Hs & Hc & _).
  split; [exact Hs | exact Hc].
Defined.

Lemma poll_timer_witness :
  let w1 := (sweepFrequency xor_block sample_session).1.2 in
  ∃ w' fx,
    run xor_block xor_block
      [Notify (EvSweep true); TimerFires 0; CallCheckData] w1 = Ok (w', fx)
    ∧ sweepPromises w' !! 0%nat = Some (Fulfilled ())
    ∧ timers w' !! 1%nat = Some (SweepCheckCb, 10000).
Proof.
  intros w1. eexists _, _. split; [vm_compute; reflexivity|].
  split; [vm_compute; reflexivity|].
  eapply (proj1 (poll_timer_is_never_cleared xor_block xor_block w1 1 SweepCheckCb
                   10000 sample_sweeping_reachable
                   ltac:(vm_compute; reflexivity) I)
            [Notify (EvSweep true); TimerFires 0; CallCheckData]).
  - vm_compute. reflexivity.
  - intros Hin.
    repeat (apply elem_of_cons in Hin as [Hin|Hin]; [discriminate Hin|]).
    by apply elem_of_nil in Hin.
Defined.

Lemma sweep_without_rf_witness :
  ∃ w1,
    sweepFrequency xor_block sample_plain_session
    = (length (sweepPromises sample_plain_session), w1, [Log NoRFCapabilities])
    ∧ sweepPromises w1 !! length (sweepPromises sample_plain_session) = Some Pending
    ∧ timers w1 !! next_timer sample_plain_session
      = Some (SweepTimeoutCb (length (sweepPromises sample_plain_session)), 30000)
    ∧ timers w1 !! S (next_timer sample_plain_session) = Some (SweepCheckCb, 10000)
    ∧ (timer_fires xor_block (S (next_timer sample_plain_session)) w1).2
      = [Log NoRFCapabilities]
    ∧ (timer_fires xor_block (next_timer sample_plain_session) w1).2
      = [Log NoRFCapabilities]
    ∧ sweepPromises (timer_fires xor_block (next_timer sample_plain_session) w1).1
        !! length (sweepPromises sample_plain_session)
      = Some (Rejected "RF sweep did not return any result").
Proof.
  apply (sweep_without_rf_capability xor_block sample_plain_session).
  - vm_compute. reflexivity.
  - reflexivity.
Defined.

Lemma addDevice_classification_witness :
  ∃ session packet,
    addDevice xor_block sample_host sample_mac 0x272a (1 # 3)%Q {| devices := ∅ |}
    = ({| devices := <[toString_hex sample_mac := session]> ∅ |},
       [Log (Found (model_of 0x272a) sample_host);
        Send packet (port sample_host) (address sample_host)])
    ∧ authenticate xor_block
        (on ReadyRelay (new_BroadlinkDevice sample_host sample_mac 0x272a (1 # 3)%Q))
      = (device session, [Send packet (port sample_host) (address sample_host)])
    ∧ byteAt packet 0x26 = 0x65
    ∧ (block_sized xor_block → length packet = 136%nat)
    ∧ count (device session) = Z.land (initial_count (1 # 3)%Q + 1) 0xffff
    ∧ listeners (device session) = [ReadyRelay]
    ∧ type (device session) = 0x272a
    ∧ capabilites_RF (device session)
      = bool_decide (is_Some (rmPlusDeviceTypes !! 0x272a))
    ∧ session
      = (lift (authenticate xor_block)
           (with_device
              (on ReadyRelay (new_BroadlinkDevice sample_host sample_mac 0x272a (1 # 3)%Q))
              (new_World sample_host sample_mac 0x272a (1 # 3)%Q))).1.
Proof.
  assert (Hnew : devices {| devices := (∅ : gmap string World) |}
                   !! toString_hex sample_mac = None) by reflexivity.
  apply (proj1 (proj2 (addDevice_classification xor_block sample_host sample_mac
                         0x272a (1 # 3)%Q {| devices := ∅ |} Hnew))).
  right. eexists. vm_compute. reflexivity.
Defined.

Lemma authenticate_packet_witness :
  ∃ packet,
    authenticate xor_block (device sample_session)
    = (set_count (Z.land (count (device sample_session) + 1) 0xffff)
         (device sample_session),
       [Send packet (port (host (device sample_session)))
          (address (host (device sample_session)))])
    ∧ length packet = 136%nat
    ∧ byteAt packet 0x26 = 0x65
    ∧ decipher_update_final xor_block (key (device sample_session))
        (iv (device sample_session)) (ciphertext_of packet)
      = Ok (replicate 4 0 ++ replicate 15 0x31 ++ replicate 11 0 ++ [1]
            ++ replicate 14 0 ++ [1; 0; 0]
            ++ [84; 101; 115; 116; 32; 32; 49] ++ replicate 25 0).
Proof.
  apply (authenticate_packet xor_block xor_block xor_block_sized
           xor_block_inverse (device sample_session)); reflexivity.
Defined.

Lemma registry_witness :
  ∃ b fx w,
    engine_run xor_block xor_block
      [Reply sample_reply sample_host (1 # 3)%Q;
       ToDevice (toString_hex sample_mac) CallSweepFrequency]
      {| devices := ∅ |}
    = Ok (b, fx)
    ∧ devices b !! toString_hex sample_mac = Some w
    ∧ reachable xor_block xor_block w
    ∧ toString_hex sample_mac = toString_hex (mac (device w))
    ∧ (is_Some (rmDeviceTypes !! type (device w))
       ∨ is_Some (rmPlusDeviceTypes !! type (device w)))
    ∧ ReadyRelay ∈ listeners (device w).
Proof.
  eexists _, _, _. split; [vm_compute; reflexivity|].
  split; [vm_compute; reflexivity|].
  eapply (registry_holds_supported_sessions xor_block xor_block
            [Reply sample_reply sample_host (1 # 3)%Q;
             ToDevice (toString_hex sample_mac) CallSweepFrequency]).
  - vm_compute. reflexivity.
  - vm_compute. reflexivity.
Defined.
